(** * proxys: an SNI-routed TLS passthrough proxy (main.go)

    A shallow embedding of the route grammar, the route table, the dialer
    factory and the per-connection handler of [main.go], with the
    properties the specification states about them.

    Go strings are byte strings: they are modelled as [string] (a list of
    8-bit [ascii]), Go's [int] as [Z], a Go [map] as a [gmap].  The
    functions of Go's standard library that the program calls
    ([strings], [strconv], [net], [io], [bytes]) are modelled after their
    documented behaviour in the modules [go_strings], [go_strconv],
    [go_net] and [go_io]. *)

From Stdlib Require Import ZArith List Ascii String Strings.Byte Bool Lia.
From stdpp Require Import base option list strings gmap.

Import ListNotations.
Local Open Scope string_scope.
Local Open Scope Z_scope.
Local Open Scope list_scope.

(* ===================================================================== *)
(** * Go library models *)
(* ===================================================================== *)

Module go_strings.

(** [s[i:]] and [s[:i]] for an index inside the string. *)
Fixpoint drop_str (n : nat) (s : string) : string :=
  match n, s with
  | O, _ => s
  | S n', String _ s' => drop_str n' s'
  | S _, EmptyString => EmptyString
  end.

Fixpoint take_str (n : nat) (s : string) : string :=
  match n, s with
  | O, _ => EmptyString
  | S n', String a s' => String a (take_str n' s')
  | S _, EmptyString => EmptyString
  end.

Definition slice_from (s : string) (i : Z) : string := drop_str (Z.to_nat i) s.
Definition slice_to (s : string) (i : Z) : string := take_str (Z.to_nat i) s.

Definition len (s : string) : Z := Z.of_nat (String.length s).

(** [strings.IndexByte]: the first index of [c], or -1. *)
Fixpoint IndexByte (s : string) (c : ascii) : Z :=
  match s with
  | EmptyString => -1
  | String a s' =>
      if Ascii.eqb a c then 0
      else let i := IndexByte s' c in if i =? -1 then -1 else i + 1
  end.

(** [strings.LastIndex(s, sep)] for a one-byte separator: the last index
    of [c], or -1. *)
Fixpoint LastIndex (s : string) (c : ascii) : Z :=
  match s with
  | EmptyString => -1
  | String a s' =>
      let i := LastIndex s' c in
      if i =? -1 then (if Ascii.eqb a c then 0 else -1) else i + 1
  end.

(** [strings.Contains(s, sep)] for a one-byte separator. *)
Definition Contains (s : string) (c : ascii) : bool :=
  negb (IndexByte s c =? -1).

(** [strings.HasPrefix(s, prefix)] for a one-byte prefix. *)
Definition HasPrefix (s : string) (c : ascii) : bool :=
  match s with
  | String a _ => Ascii.eqb a c
  | EmptyString => false
  end.

(** [strings.SplitN(s, sep, 2)] for a one-byte separator: the text
    before the first [sep] and the text after it; the whole string
    alone when [sep] does not occur. *)
Definition SplitN2 (s : string) (c : ascii) : list string :=
  let i := IndexByte s c in
  if i =? -1 then [s] else [slice_to s i; slice_from s (i + 1)].

(** The white space of [unicode.IsSpace], as [strings.TrimSpace] sees it
    in a UTF-8 byte string.  One-byte runes: TAB, LF, VT, FF, CR, space. *)
Definition ascii_space (a : ascii) : bool :=
  let n := nat_of_ascii a in
  ((9 <=? n) && (n <=? 13))%nat || (n =? 32)%nat.

(** Two-byte runes: U+0085 (C2 85) and U+00A0 (C2 A0). *)
Definition space2 (a b : ascii) : bool :=
  let x := nat_of_ascii a in
  let y := nat_of_ascii b in
  (x =? 194)%nat && ((y =? 133)%nat || (y =? 160)%nat).

(** Three-byte runes: U+1680 (E1 9A 80), U+2000..U+200A (E2 80 80..8A),
    U+2028, U+2029 (E2 80 A8, A9), U+202F (E2 80 AF), U+205F (E2 81 9F),
    U+3000 (E3 80 80). *)
Definition space3 (a b c : ascii) : bool :=
  let x := nat_of_ascii a in
  let y := nat_of_ascii b in
  let z := nat_of_ascii c in
  ((x =? 225) && (y =? 154) && (z =? 128))%nat
  || ((x =? 226) && (y =? 128)
      && (((128 <=? z) && (z <=? 138)) || (z =? 168) || (z =? 169) || (z =? 175)))%nat
  || ((x =? 226) && (y =? 129) && (z =? 159))%nat
  || ((x =? 227) && (y =? 128) && (z =? 128))%nat.

(** Leading white-space runes removed: decoding stops at the first rune
    that is not white space (an invalid encoding decodes to U+FFFD). *)
Fixpoint trim_left (l : list ascii) : list ascii :=
  match l with
  | [] => []
  | a :: l1 =>
      if ascii_space a then trim_left l1
      else
        match l1 with
        | b :: l2 =>
            if space2 a b then trim_left l2
            else
              match l2 with
              | c :: l3 => if space3 a b c then trim_left l3 else l
              | [] => l
              end
        | [] => l
        end
  end.

Definition TrimLeft (s : string) : string :=
  string_of_list_ascii (trim_left (list_ascii_of_string s)).

(** The same from the end, on the reversed byte sequence. *)
Fixpoint trim_rev (r : list ascii) : list ascii :=
  match r with
  | [] => []
  | a :: r1 =>
      if ascii_space a then trim_rev r1
      else
        match r1 with
        | b :: r2 =>
            if space2 b a then trim_rev r2
            else
              match r2 with
              | c :: r3 => if space3 c b a then trim_rev r3 else r
              | [] => r
              end
        | [] => r
        end
  end.

Definition TrimRight (s : string) : string :=
  string_of_list_ascii (rev (trim_rev (rev (list_ascii_of_string s)))).

(** [strings.TrimSpace]. *)
Definition TrimSpace (s : string) : string := TrimRight (TrimLeft s).

(** The bytes [strings.TrimSpace] keeps. *)
Definition trim (l : list ascii) : list ascii := rev (trim_rev (rev (trim_left l))).

(** A byte of a printable ASCII character. *)
Definition plain (c : ascii) : Prop := (32 < nat_of_ascii c < 128)%nat.

(** The first byte of a white-space rune is a one-byte space or one of
    C2, E1, E2, E3; its other bytes are continuation bytes up to AF. *)
Definition lead (a : ascii) : Prop :=
  (nat_of_ascii a <= 32 \/ nat_of_ascii a = 194 \/
   (225 <= nat_of_ascii a /\ nat_of_ascii a <= 227))%nat.

Definition cont (a : ascii) : Prop :=
  (128 <= nat_of_ascii a /\ nat_of_ascii a <= 175)%nat.

(** A sequence of white-space runes. *)
Inductive blank : list ascii -> Prop :=
| blank_nil : blank []
| blank_1 a w : ascii_space a = true -> blank w -> blank (a :: w)
| blank_2 a b w : space2 a b = true -> blank w -> blank (a :: b :: w)
| blank_3 a b c w : space3 a b c = true -> blank w -> blank (a :: b :: c :: w).

End go_strings.

Module go_strconv.

Inductive NumError := ErrSyntax | ErrRange.

Definition maxUint64 : Z := 2 ^ 64 - 1.

(** The digit loop of [strconv.ParseUint(s, 10, 64)]: a byte that is not
    a decimal digit is a syntax error, a value above [maxUint64] a range
    error, whichever comes first from the left. *)
Fixpoint digits (s : string) (n : Z) : Z + NumError :=
  match s with
  | EmptyString => inl n
  | String c s' =>
      let d := Z.of_nat (nat_of_ascii c) - 48 in
      if (0 <=? d) && (d <=? 9) then
        let n1 := n * 10 + d in
        if n1 >? maxUint64 then inr ErrRange else digits s' n1
      else inr ErrSyntax
  end.

(** [strconv.Atoi] with a 64-bit [int]: an optional sign, then at least
    one decimal digit, the value within the range of [int]. *)
Definition Atoi (s : string) : Z + NumError :=
  match s with
  | EmptyString => inr ErrSyntax
  | String c s' =>
      let neg := Ascii.eqb c "-" in
      let body := if neg || Ascii.eqb c "+" then s' else s in
      match body with
      | EmptyString => inr ErrSyntax
      | _ =>
          match digits body 0 with
          | inr e => inr e
          | inl un =>
              if negb neg && (un >=? 2 ^ 63) then inr ErrRange
              else if neg && (un >? 2 ^ 63) then inr ErrRange
              else inl (if neg then - un else un)
          end
      end
  end.

End go_strconv.

Module go_net.
Import go_strings.

(** The reasons of [net.AddrError] that [net.SplitHostPort] gives. *)
Inductive AddrError :=
| MissingPort
| TooManyColons
| MissingBracket
| UnexpectedOpen
| UnexpectedClose.

(** [net.SplitHostPort]: [host:port], or [[host]:port] with the host in
    square brackets; the port starts after the last colon. *)
Definition SplitHostPort (hostport : string) : (string * string) + AddrError :=
  let i := LastIndex hostport ":" in
  if i <? 0 then inr MissingPort
  else
    let bracketed :=
      if HasPrefix hostport "[" then
        let e := IndexByte hostport "]" in
        if e <? 0 then inr MissingBracket
        else if e + 1 =? len hostport then inr MissingPort
        else if e + 1 =? i then inl (slice_to (slice_from hostport 1) (e - 1), 1, e + 1)
        else if HasPrefix (slice_from hostport (e + 1)) ":" then inr TooManyColons
        else inr MissingPort
      else
        let host := slice_to hostport i in
        if 0 <=? IndexByte host ":" then inr TooManyColons
        else inl (host, 0, 0)
    in
    match bracketed with
    | inr e => inr e
    | inl (host, j, k) =>
        if 0 <=? IndexByte (slice_from hostport j) "[" then inr UnexpectedOpen
        else if 0 <=? IndexByte (slice_from hostport k) "]" then inr UnexpectedClose
        else inl (host, slice_from hostport (i + 1))
    end.

End go_net.

(* ===================================================================== *)
(** * Routes: [RouteConfig], [RouteMap], [parseRoute], [parseRoutes] *)
(* ===================================================================== *)

(** The errors the program builds with [fmt.Errorf], by the text of their
    format, with the values the format prints. *)
Inductive Error :=
| ErrInvalidSocksProxy (addr : string) (why : go_net.AddrError)
| ErrInvalidRouteFormat (route : string)
| ErrEmptyHostname
| ErrTargetRequired
| ErrInvalidPort (port : string) (why : go_strconv.NumError)
| ErrInvalidTarget (target : string) (why : go_net.AddrError)
| ErrDuplicateRoute (host : string)
| ErrSocks5Dialer (why : string).

Inductive result (A : Type) :=
| Ok (a : A)
| Err (e : Error).
Arguments Ok {A} a.
Arguments Err {A} e.

(** [RouteConfig]: a single routing rule. *)
Record RouteConfig := mkRouteConfig {
  Host : string;
  Target : string;
  Passthrough : bool;
  ProxyAddr : string
}.

(** [RouteMap]: all routing rules, by host. *)
Record RouteMap := mkRouteMap {
  rules : gmap string RouteConfig
}.

(** [RouteMap.Lookup]: the two results of the map index expression,
    [(cfg, true)] as [Some cfg] and [(nil, false)] as [None]. *)
Definition Lookup (rm : RouteMap) (host : string) : option RouteConfig :=
  rules rm !! host.

Import go_strings.

(** Lines 75-89 of [parseRoute]: the SOCKS5 proxy address and the
    remainder of the route, split at the last [@]. *)
Definition splitProxy (route : string) : result (string * string) :=
  let idx := LastIndex route "@" in
  if negb (idx =? -1) then
    let proxyAddr := TrimSpace (slice_from route (idx + 1)) in
    let remainder := TrimSpace (slice_to route idx) in
    if negb (String.eqb proxyAddr "") then
      match go_net.SplitHostPort proxyAddr with
      | inr err => Err (ErrInvalidSocksProxy proxyAddr err)
      | inl _ => Ok (proxyAddr, remainder)
      end
    else Ok (proxyAddr, remainder)
  else Ok ("", route).

(** Lines 91-132 of [parseRoute]: the route of the remainder. *)
Definition parseRemainder (route proxyAddr remainder : string) : result RouteConfig :=
  if Contains remainder ":" && negb (Contains remainder "=") then
    Err (ErrInvalidRouteFormat route)
  else if negb (Contains remainder "=") then
    let host := TrimSpace remainder in
    if String.eqb host "" then Err ErrEmptyHostname
    else Ok (mkRouteConfig host "" true proxyAddr)
  else
    let parts := SplitN2 remainder "=" in
    let host := TrimSpace (nth 0 parts "") in
    let target := TrimSpace (nth 1 parts "") in
    if String.eqb host "" then Err ErrEmptyHostname
    else if String.eqb target "" then Err ErrTargetRequired
    else if HasPrefix target ":" then
      let port := slice_from target 1 in
      match go_strconv.Atoi port with
      | inr err => Err (ErrInvalidPort port err)
      | inl _ => Ok (mkRouteConfig host ("localhost" ++ target)%string false proxyAddr)
      end
    else
      match go_net.SplitHostPort target with
      | inr err => Err (ErrInvalidTarget target err)
      | inl _ => Ok (mkRouteConfig host target false proxyAddr)
      end.

(** [parseRoute]: a single route string. *)
Definition parseRoute (route : string) : result RouteConfig :=
  match splitProxy route with
  | Err e => Err e
  | Ok (proxyAddr, remainder) => parseRemainder route proxyAddr remainder
  end.

(** The loop of [parseRoutes], from the map built so far. *)
Fixpoint parseRoutesFrom (rm : gmap string RouteConfig) (routes : list string)
  : result RouteMap :=
  match routes with
  | [] => Ok (mkRouteMap rm)
  | route :: rest =>
      match parseRoute route with
      | Err err => Err err
      | Ok cfg =>
          match rm !! Host cfg with
          | Some _ => Err (ErrDuplicateRoute (Host cfg))
          | None => parseRoutesFrom (<[Host cfg := cfg]> rm) rest
          end
      end
  end.

(** [parseRoutes]: the route flags into a [RouteMap]. *)
Definition parseRoutes (routes : list string) : result RouteMap :=
  parseRoutesFrom ∅ routes.


(* ===================================================================== *)
(** * Sockets and streams: [net.Conn], [io.CopyN], [encoding/binary] *)
(* ===================================================================== *)

Module go_io.

(** The errors of reads and writes: [io.EOF], [os.ErrDeadlineExceeded],
    [net.ErrClosed], a write the peer no longer takes, [io.ErrShortWrite]
    and any other network error. *)
Inductive IOError :=
| EOF
| ErrDeadlineExceeded
| ErrClosed
| ErrBrokenPipe
| ErrShortWrite
| ErrNet (code : nat).

Definition is_EOF (e : IOError) : bool :=
  match e with EOF => true | _ => false end.

(** What the peer of a socket does, in order: it sends bytes, it stays
    silent beyond the instant of the read deadline, or the connection
    breaks.  After the last arrival the peer has closed its side. *)
Inductive Arrival :=
| Data (bs : list byte)
| Silence
| Broken (e : IOError).

(** One end of a TCP connection ([net.Conn]). *)
Record Conn := mkConn {
  inbound : list Arrival;   (* what is still to arrive from the peer *)
  deadline : option Z;      (* the read deadline; [None] is the zero time *)
  closed : bool;            (* [Close] was called on this end *)
  sent : list byte;         (* the bytes written to the peer so far *)
  quota : option nat        (* how many more bytes the peer takes; [None]: all *)
}.

(** A read of at most [limit] bytes from what arrives: it blocks until
    some byte is there, waits through a silence unless a deadline is set,
    and returns the bytes of one arrival, cut at [limit]. *)
Fixpoint read_inbound (dl : option Z) (limit : nat) (inb : list Arrival)
  : list byte * option IOError * list Arrival :=
  match inb with
  | [] => ([], Some EOF, [])
  | Data [] :: rest => read_inbound dl limit rest
  | Data bs :: rest =>
      if (length bs <=? limit)%nat then (bs, None, rest)
      else (firstn limit bs, None, Data (skipn limit bs) :: rest)
  | Silence :: rest =>
      match dl with
      | Some _ => ([], Some ErrDeadlineExceeded, inb)
      | None => read_inbound dl limit rest
      end
  | Broken e :: _ => ([], Some e, inb)
  end.

Definition set_inbound (c : Conn) (inb : list Arrival) : Conn :=
  mkConn inb (deadline c) (closed c) (sent c) (quota c).

(** [c.Read(p)] with [len(p) = limit]. *)
Definition Read (c : Conn) (limit : nat) : list byte * option IOError * Conn :=
  if closed c then ([], Some ErrClosed, c)
  else if (limit =? 0)%nat then ([], None, c)
  else
    let '(data, err, inb) := read_inbound (deadline c) limit (inbound c) in
    (data, err, set_inbound c inb).

(** [c.Write(p)]: the number of bytes written and the error. *)
Definition Write (c : Conn) (p : list byte) : nat * option IOError * Conn :=
  if closed c then (0%nat, Some ErrClosed, c)
  else
    match quota c with
    | None =>
        (length p, None, mkConn (inbound c) (deadline c) false (sent c ++ p) None)
    | Some q =>
        if (length p <=? q)%nat then
          (length p, None,
           mkConn (inbound c) (deadline c) false (sent c ++ p) (Some (q - length p)%nat))
        else
          (q, Some ErrBrokenPipe,
           mkConn (inbound c) (deadline c) false (sent c ++ firstn q p) (Some 0%nat))
    end.

(** [c.Close()]. *)
Definition Close (c : Conn) : Conn :=
  mkConn (inbound c) (deadline c) true (sent c) (quota c).

(** [c.SetReadDeadline(t)]. *)
Definition SetReadDeadline (c : Conn) (t : option Z) : Conn :=
  mkConn (inbound c) t (closed c) (sent c) (quota c).

(** All the bytes that are still to arrive on a socket. *)
Fixpoint stream (inb : list Arrival) : list byte :=
  match inb with
  | [] => []
  | Data bs :: rest => bs ++ stream rest
  | _ :: rest => stream rest
  end.

(** The buffer [io.Copy] allocates: 32 KiB. *)
Definition copyBufSize : nat := 32 * 1024.

(** [binary.BigEndian.Uint16] of a two-byte slice. *)
Definition Uint16 (b : list byte) : N :=
  match b with
  | [hi; lo] => Byte.to_N hi * 256 + Byte.to_N lo
  | _ => 0
  end%N.

End go_io.

(* ===================================================================== *)
(** * The dialer factory: [createDialer] *)
(* ===================================================================== *)

Import go_io.

(** [ParsedHello]: what the SNI extractor returns beside its found flag. *)
Record ClientHello := mkClientHello {
  SNI : string
}.

(** A dial function, as the data it closes over: the [Dial] of a [net.Dialer] with
    its timeout, or the [Dial] of a SOCKS5 dialer with the proxy it goes
    through and the dialer that reaches the proxy. *)
Inductive Dialer :=
| NetDialer (timeout : Z)
| Socks5Dialer (network address : string) (forward : Dialer).

Inductive Side := Client | Backend.

(** The lines the handler logs, by the text of their format. *)
Inductive LogMsg :=
| LogHeaderFailed (err : IOError)
| LogRecordFailed (err : IOError)
| LogNoSNI
| LogRejected (sni : string)
| LogRoute (sni backend routeType : string)
| LogDialerFailed (sni : string) (err : Error)
| LogConnectFailed (backend : string) (err : IOError)
| LogCopyError (sni : string) (err : IOError).

(** What a run of the program does to the world around it, in order. *)
Inductive Event :=
| EvSetReadDeadline (t : option Z)
| EvRead (s : Side) (dl : option Z) (limit : nat) (data : list byte) (err : option IOError)
| EvReplay (data : list byte)
| EvWrite (s : Side) (p : list byte) (n : nat) (err : option IOError)
| EvLog (m : LogMsg)
| EvCreateDialer (socksAddr : string) (timeout : Z)
| EvConnect (network address : string) (timeout : Z)
| EvSocksConnect (destination : string)
| EvSend (err : option IOError)
| EvRecv (err : option IOError)
| EvClose (s : Side).

(** What lies outside the program: the clock, the SNI extractor (a
    function of this repository that [main.go] calls and does not define),
    whether [proxy.SOCKS5] of golang.org/x/net reports an error for a
    proxy address (it only records the address and the forwarding dialer),
    and what the network answers to a TCP connection attempt and to a
    SOCKS5 CONNECT negotiation over an open proxy connection. *)
Record Env := mkEnv {
  now : Z;
  ParseClientHello : list byte -> ClientHello * bool;
  socks5_error : string -> string -> option string;
  tcp_connect : string -> string -> Z -> Conn + IOError;
  socks_connect : Conn -> string -> Conn + IOError
}.

(** [time.Second], in nanoseconds. *)
Definition Second : Z := 1000000000.

Section Program.

Variable E : Env.

(** [createDialer]: a dial function that optionally goes through a SOCKS
    proxy, with what the call itself does to the world. *)
Definition createDialer (socksAddr : string) (timeout : Z)
  : list Event * result Dialer :=
  ([EvCreateDialer socksAddr timeout],
   if String.eqb socksAddr "" then Ok (NetDialer timeout)
   else
     match go_net.SplitHostPort socksAddr with
     | inr err => Err (ErrInvalidSocksProxy socksAddr err)
     | inl _ =>
         match socks5_error E "tcp" socksAddr with
         | Some why => Err (ErrSocks5Dialer why)
         | None => Ok (Socks5Dialer "tcp" socksAddr (NetDialer timeout))
         end
     end).

(** Calling a dial function: [dialer(network, addr)]. *)
Fixpoint Dial (d : Dialer) (network addr : string) : list Event * (Conn + IOError) :=
  match d with
  | NetDialer timeout =>
      ([EvConnect network addr timeout], tcp_connect E network addr timeout)
  | Socks5Dialer pnet paddr forward =>
      match Dial forward pnet paddr with
      | (evs, inr err) => (evs, inr err)
      | (evs, inl pc) => (evs ++ [EvSocksConnect addr], socks_connect E pc addr)
      end
  end.

(** An event that opens a network connection. *)
Definition opens_connection (ev : Event) : bool :=
  match ev with
  | EvConnect _ _ _ | EvSocksConnect _ => true
  | _ => false
  end.

(* =================================================================== *)
(** * The connection handler: [handleConn] *)
(* =================================================================== *)

(** The loop of [io.CopyN(&buf, conn, n)]: [bytes.Buffer.ReadFrom] reads
    from an [io.LimitedReader] of [n] bytes until it reports [io.EOF],
    which it does without a read of the socket once the [n] bytes are
    there.  A read is made with the limit of the bytes still missing; the
    free room of the buffer may cut a read shorter, which changes how many
    reads there are and not their bytes.  Every read returns a byte or an
    error, so [n] rounds are enough. *)
Fixpoint copyN (rounds : nat) (buf : list byte) (src : Conn) (n : nat)
  : list Event * (list byte * Conn * option IOError) :=
  match rounds with
  | O => ([], (buf, src, None))
  | S rounds' =>
      if (n =? 0)%nat then ([], (buf, src, None))
      else
        let '(data, err, src') := Read src n in
        let ev := EvRead Client (deadline src) n data err in
        match err with
        | Some e => ([ev], (buf ++ data, src', Some e))
        | None =>
            let '(evs, r) := copyN rounds' (buf ++ data) src' (n - length data) in
            (ev :: evs, r)
        end
  end.

(** [io.CopyN(&buf, conn, n)]: [n] bytes, or the error that came before
    them ([io.EOF] when the stream ends early). *)
Definition CopyN (buf : list byte) (src : Conn) (n : nat)
  : list Event * (list byte * Conn * option IOError) :=
  copyN n buf src n.

(** Lines 202-212 of [handleConn]: the five bytes of the TLS record
    header, then the payload of the length the header declares. *)
Definition readClientHello (conn : Conn)
  : list Event * (list byte * Conn * option LogMsg) :=
  let '(evs1, (buf, conn, err)) := CopyN [] conn 5 in
  match err with
  | Some e => (evs1, (buf, conn, Some (LogHeaderFailed e)))
  | None =>
      let length := Uint16 (firstn 2 (skipn 3 buf)) in
      let '(evs2, (buf, conn, err)) := CopyN buf conn (N.to_nat length) in
      match err with
      | Some e => (evs1 ++ evs2, (buf, conn, Some (LogRecordFailed e)))
      | None => (evs1 ++ evs2, (buf, conn, None))
      end
  end.

(** The readers an [io.MultiReader(&buf, conn)] still has: the buffer
    and the socket, the socket alone, or none. *)
Inductive PrefixReader :=
| PrBuf (buf : list byte)
| PrConn
| PrDone.

(** A goroutine that runs [io.Copy(dst, src)] and sends its error on
    [errCh]: about to read, about to write what it read (with the error
    that came with the read), about to send, gone. *)
Inductive Copier :=
| Reading
| Writing (chunk : list byte) (er : option IOError)
| Sending (err : option IOError)
| Exited.

(** The handler after it started both copies: it waits on [errCh], then
    returns through its deferred calls, [backendConn.Close()] and
    [conn.Close()]. *)
Inductive HandlerPc :=
| AwaitErr
| CloseBackend
| CloseClient
| Returned.

Record Relay := mkRelay {
  sni : string;
  client : Conn;
  backend : Conn;
  reader : PrefixReader;         (* prefixConn.Reader *)
  up : Copier;                    (* io.Copy(backendConn, c) *)
  down : Copier;                  (* io.Copy(c, backendConn) *)
  errCh : list (option IOError);  (* buffered, capacity 2 *)
  handler : HandlerPc
}.

Inductive Outcome :=
| Closed (client : Conn)
| Relaying (r : Relay).

(** A [return] of [handleConn] before the backend is connected: the line
    it logs, then the deferred [conn.Close()]. *)
Definition bail (evs : list Event) (m : LogMsg) (conn : Conn) : list Event * Outcome :=
  (evs ++ [EvLog m; EvClose Client], Closed (Close conn)).

(** [handleConn], up to the start of the two copies. *)
Definition handleConn (conn : Conn) (routes : RouteMap) : list Event * Outcome :=
  let t := now E + 10 * Second in
  let conn := SetReadDeadline conn (Some t) in
  let ev0 := [EvSetReadDeadline (Some t)] in
  let '(evs, (buf, conn, failed)) := readClientHello conn in
  match failed with
  | Some m => bail (ev0 ++ evs) m conn
  | None =>
      let '(ch, ok) := ParseClientHello E buf in
      if negb ok || String.eqb (SNI ch) "" then bail (ev0 ++ evs) LogNoSNI conn
      else
        match Lookup routes (SNI ch) with
        | None => bail (ev0 ++ evs) (LogRejected (SNI ch)) conn
        | Some cfg =>
            let '(backend, routeType) :=
              if Passthrough cfg then ((SNI ch ++ ":443")%string, "passthrough")
              else (Target cfg, "routed") in
            let evl := [EvLog (LogRoute (SNI ch) backend routeType)] in
            let '(evd, dialer) := createDialer (ProxyAddr cfg) (10 * Second) in
            match dialer with
            | Err err =>
                bail (ev0 ++ evs ++ evl ++ evd) (LogDialerFailed (SNI ch) err) conn
            | Ok dialer =>
                let conn := SetReadDeadline conn None in
                let '(evc, backendConn) := Dial dialer "tcp" backend in
                let pre := ev0 ++ evs ++ evl ++ evd ++ [EvSetReadDeadline None] ++ evc in
                match backendConn with
                | inr err => bail pre (LogConnectFailed backend err) conn
                | inl backendConn =>
                    (pre,
                     Relaying (mkRelay (SNI ch) conn backendConn (PrBuf buf)
                                       Reading Reading [] AwaitErr))
                end
            end
        end
  end.

(** [prefixConn.Read], the [Read] of [io.MultiReader(&buf, conn)]: the
    buffered bytes while there are some; once the buffer reports
    [io.EOF] it is dropped and the same call reads the socket. *)
Definition prefixRead (pr : PrefixReader) (conn : Conn) (limit : nat)
  : list Event * (list byte * option IOError * PrefixReader * Conn) :=
  match pr with
  | PrBuf ((_ :: _) as buf) =>
      ([EvReplay (firstn limit buf)],
       (firstn limit buf, None, PrBuf (skipn limit buf), conn))
  | PrBuf [] | PrConn =>
      let '(data, err, conn') := Read conn limit in
      ([EvRead Client (deadline conn) limit data err],
       (data, err,
        match err with Some EOF => PrDone | _ => PrConn end,
        conn'))
  | PrDone => ([], ([], Some EOF, PrDone, conn))
  end.

(** The end of a round of [io.Copy]: [if er != nil], with [io.EOF] not
    reported as an error. *)
Definition after_read (er : option IOError) : Copier :=
  match er with
  | Some e => Sending (if is_EOF e then None else Some e)
  | None => Reading
  end.

(** After [src.Read]: [if nr > 0] the bytes are written. *)
Definition copy_read (data : list byte) (er : option IOError) : Copier :=
  match data with
  | [] => after_read er
  | _ :: _ => Writing data er
  end.

(** After [dst.Write]: a write error or a short write ends the copy. *)
Definition copy_write (chunk : list byte) (er : option IOError)
           (nw : nat) (ew : option IOError) : Copier :=
  match ew with
  | Some e => Sending (Some e)
  | None =>
      if (nw =? length chunk)%nat then after_read er
      else Sending (Some ErrShortWrite)
  end.

Definition with_up (r : Relay) (c : Conn) (pr : PrefixReader) (b : Conn)
           (ch : list (option IOError)) (k : Copier) : Relay :=
  mkRelay (sni r) c b pr k (down r) ch (handler r).

Definition with_down (r : Relay) (c : Conn) (b : Conn)
           (ch : list (option IOError)) (k : Copier) : Relay :=
  mkRelay (sni r) c b (reader r) (up r) k ch (handler r).

Definition with_handler (r : Relay) (c : Conn) (b : Conn)
           (ch : list (option IOError)) (h : HandlerPc) : Relay :=
  mkRelay (sni r) c b (reader r) (up r) (down r) ch h.

(** One step of the goroutine [io.Copy(backendConn, c); errCh <- err]. *)
Definition step_up (r : Relay) : option (list Event * Relay) :=
  match up r with
  | Reading =>
      let '(evs, (data, er, pr, c)) := prefixRead (reader r) (client r) copyBufSize in
      Some (evs, with_up r c pr (backend r) (errCh r) (copy_read data er))
  | Writing chunk er =>
      let '(nw, ew, b) := Write (backend r) chunk in
      Some ([EvWrite Backend chunk nw ew],
            with_up r (client r) (reader r) b (errCh r) (copy_write chunk er nw ew))
  | Sending err =>
      if (length (errCh r) <? 2)%nat then
        Some ([EvSend err],
              with_up r (client r) (reader r) (backend r) (errCh r ++ [err]) Exited)
      else None
  | Exited => None
  end.

(** One step of the goroutine [io.Copy(c, backendConn); errCh <- err];
    [c.Write] is the [Write] of the client socket. *)
Definition step_down (r : Relay) : option (list Event * Relay) :=
  match down r with
  | Reading =>
      let '(data, er, b) := Read (backend r) copyBufSize in
      Some ([EvRead Backend (deadline (backend r)) copyBufSize data er],
            with_down r (client r) b (errCh r) (copy_read data er))
  | Writing chunk er =>
      let '(nw, ew, c) := Write (client r) chunk in
      Some ([EvWrite Client chunk nw ew],
            with_down r c (backend r) (errCh r) (copy_write chunk er nw ew))
  | Sending err =>
      if (length (errCh r) <? 2)%nat then
        Some ([EvSend err],
              with_down r (client r) (backend r) (errCh r ++ [err]) Exited)
      else None
  | Exited => None
  end.

(** The line the handler logs for the error it received. *)
Definition copy_log (host : string) (err : option IOError) : list Event :=
  match err with
  | Some e => if is_EOF e then [] else [EvLog (LogCopyError host e)]
  | None => []
  end.

(** One step of the handler: [err = <-errCh] and its log line, then the
    deferred [backendConn.Close()], then the deferred [conn.Close()]. *)
Definition step_handler (r : Relay) : option (list Event * Relay) :=
  match handler r with
  | AwaitErr =>
      match errCh r with
      | [] => None
      | err :: rest =>
          Some (EvRecv err :: copy_log (sni r) err,
                with_handler r (client r) (backend r) rest CloseBackend)
      end
  | CloseBackend =>
      Some ([EvClose Backend],
            with_handler r (client r) (Close (backend r)) (errCh r) CloseClient)
  | CloseClient =>
      Some ([EvClose Client],
            with_handler r (Close (client r)) (backend r) (errCh r) Returned)
  | Returned => None
  end.

(** The bytes an [io.MultiReader(&buf, conn)] still holds in its buffer. *)
Definition buffered (pr : PrefixReader) : list byte :=
  match pr with
  | PrBuf buf => buf
  | _ => []
  end.

(** An event by which the handler reaches out for a backend or sends
    bytes: a dialer is created, a connection is opened, bytes are written
    to a socket or replayed from the buffer. *)
Definition reaches_out (ev : Event) : bool :=
  match ev with
  | EvCreateDialer _ _ | EvConnect _ _ _ | EvSocksConnect _
  | EvWrite _ _ _ _ | EvReplay _ => true
  | _ => false
  end.

(** A read from the client socket with the read deadline [dl] in force. *)
Definition read_under (dl : option Z) (ev : Event) : Prop :=
  exists limit data err, ev = EvRead Client dl limit data err.

(** A read from the client socket, and one made under a read deadline. *)
Definition client_read (ev : Event) : bool :=
  match ev with
  | EvRead Client _ _ _ _ => true
  | _ => false
  end.

Definition timed_read (ev : Event) : bool :=
  match ev with
  | EvRead Client (Some _) _ _ _ => true
  | _ => false
  end.

(** One for a goroutine that has sent its error and is gone. *)
Definition ended (k : Copier) : nat :=
  match k with
  | Exited => 1
  | _ => 0
  end.

(** A step of the relay: one step of one of the three goroutines. *)
Inductive relay_step (r : Relay) (evs : list Event) (r' : Relay) : Prop :=
| step_of_up : step_up r = Some (evs, r') -> relay_step r evs r'
| step_of_down : step_down r = Some (evs, r') -> relay_step r evs r'
| step_of_handler : step_handler r = Some (evs, r') -> relay_step r evs r'.

(** A run of the relay, with the events of its steps in order. *)
Inductive relay_run (r0 : Relay) : list Event -> Relay -> Prop :=
| run_start : relay_run r0 [] r0
| run_step evs r evs' r' :
    relay_run r0 evs r -> relay_step r evs' r' -> relay_run r0 (evs ++ evs') r'.

End Program.

(* ===================================================================== *)
(** * The SNI extractor: [ParseClientHello] *)
(* ===================================================================== *)

Module sni.

(** The result of a decoding step on a Go slice: a value, "not found",
    or the run-time panic of an index or a slice bound out of range. *)
Inductive Parsed (A : Type) :=
| Found (a : A)
| Missing
| Panic.
Arguments Found {A} a.
Arguments Missing {A}.
Arguments Panic {A}.

#[export] Instance Parsed_ret : MRet Parsed := fun A a => Found a.
#[export] Instance Parsed_bind : MBind Parsed := fun A B k m =>
  match m with
  | Found a => k a
  | Missing => Missing
  | Panic => Panic
  end.

(** [b[i]] and [b[i:j]]. *)
Definition index (b : list byte) (i : nat) : Parsed byte :=
  match nth_error b i with
  | Some x => Found x
  | None => Panic
  end.

Definition slice (b : list byte) (i j : nat) : Parsed (list byte) :=
  if ((i <=? j) && (j <=? length b))%nat then Found (firstn (j - i) (skipn i b))
  else Panic.

(** Big-endian integers of one, two and three bytes at the head of [b],
    with the bytes after them; "not found" when [b] is too short. *)
Definition u8 (b : list byte) : Parsed (N * list byte) :=
  if (length b <? 1)%nat then Missing
  else
    x ← index b 0;
    rest ← slice b 1 (length b);
    mret (Byte.to_N x, rest).

Definition u16 (b : list byte) : Parsed (N * list byte) :=
  if (length b <? 2)%nat then Missing
  else
    hi ← index b 0;
    lo ← index b 1;
    rest ← slice b 2 (length b);
    mret ((Byte.to_N hi * 256 + Byte.to_N lo)%N, rest).

Definition u24 (b : list byte) : Parsed (N * list byte) :=
  if (length b <? 3)%nat then Missing
  else
    hi ← index b 0;
    mi ← index b 1;
    lo ← index b 2;
    rest ← slice b 3 (length b);
    mret ((Byte.to_N hi * 65536 + Byte.to_N mi * 256 + Byte.to_N lo)%N, rest).

(** The next [n] bytes and the bytes after them; "not found" when [n]
    exceeds the bytes that remain. *)
Definition bytes (n : nat) (b : list byte) : Parsed (list byte * list byte) :=
  if (length b <? n)%nat then Missing
  else
    d ← slice b 0 n;
    rest ← slice b n (length b);
    mret (d, rest).

(** A length-prefixed field: its declared length, then that many bytes. *)
Definition vec (width : list byte -> Parsed (N * list byte)) (b : list byte)
  : Parsed (list byte * list byte) :=
  '(n, b) ← width b;
  bytes (N.to_nat n) b.

(** The entries [{1-byte name-type, 2-byte length, name}] of a server
    name list: the name of the first entry of name-type 0.  An entry
    takes three bytes or more, so [length b] rounds are enough. *)
Fixpoint scan_names (rounds : nat) (b : list byte) : Parsed (list byte) :=
  match rounds with
  | O => Missing
  | S rounds' =>
      '(name_type, b) ← u8 b;
      '(name, b) ← vec u16 b;
      if (name_type =? 0)%N then Found name else scan_names rounds' b
  end.

(** The data of a server_name extension: a 2-byte list length, then the
    entries. *)
Definition server_name (data : list byte) : Parsed (list byte) :=
  '(names, _) ← vec u16 data;
  scan_names (length names) names.

(** The extensions [{2-byte type, 2-byte length, data}] of the block:
    the first extension of type 0 gives the result. *)
Fixpoint scan_extensions (rounds : nat) (b : list byte) : Parsed (list byte) :=
  match rounds with
  | O => Missing
  | S rounds' =>
      '(ext_type, b) ← u16 b;
      '(data, b) ← vec u16 b;
      if (ext_type =? 0)%N then server_name data else scan_extensions rounds' b
  end.

(** The body of a ClientHello: legacy version, random, session id,
    cipher suites, compression methods, then the extensions block. *)
Definition client_hello (body : list byte) : Parsed (list byte) :=
  '(_, b) ← bytes 2 body;
  '(_, b) ← bytes 32 b;
  '(_, b) ← vec u8 b;
  '(_, b) ← vec u16 b;
  '(_, b) ← vec u8 b;
  '(exts, _) ← vec u16 b;
  scan_extensions (length exts) exts.

(** The handshake message of the record payload: type 1, a 3-byte body
    length, the body. *)
Definition handshake (payload : list byte) : Parsed (list byte) :=
  '(msg_type, b) ← u8 payload;
  if negb (msg_type =? 1)%N then Missing
  else
    '(body, _) ← vec u24 b;
    client_hello body.

(** The TLS record: type 22 (handshake), a 2-byte version, a 2-byte
    payload length, the payload. *)
Definition record (buf : list byte) : Parsed (list byte) :=
  '(rec_type, b) ← u8 buf;
  if negb (rec_type =? 22)%N then Missing
  else
    '(_, b) ← bytes 2 b;
    '(payload, _) ← vec u16 b;
    handshake payload.

(** Modelled from the spec: [ParseClientHello], the SNI extractor that
    [handleConn] calls; its source file is not part of [main.go].  After
    section 4.1: the buffer holds one TLS record; for a handshake record
    whose payload begins with a ClientHello the extensions are scanned
    for type 0 (server_name), and the name of the first name-type-0
    entry is the result; a mismatch of record or message type, a missing
    extensions block, a missing server_name extension and a declared
    length that exceeds the bytes that remain give "not found".  The
    length prefixes of session id, cipher suites and compression methods
    have the widths of TLS: one, two and one byte. *)
Definition ParseClientHello (buf : list byte) : ClientHello * bool :=
  match record buf with
  | Found name => (mkClientHello (string_of_list_byte name), true)
  | _ => (mkClientHello "", false)
  end.

(** ** Well-formed records, by their encoding *)

Definition byte_of (n : N) : byte :=
  match Byte.of_N (n mod 256) with
  | Some b => b
  | None => x00
  end.

Definition enc8 (n : N) : list byte := [byte_of n].
Definition enc16 (n : N) : list byte := [byte_of (n / 256); byte_of n].
Definition enc24 (n : N) : list byte :=
  [byte_of (n / 65536); byte_of (n / 256); byte_of n].

Definition len8 (d : list byte) : list byte := enc8 (N.of_nat (length d)) ++ d.
Definition len16 (d : list byte) : list byte := enc16 (N.of_nat (length d)) ++ d.
Definition len24 (d : list byte) : list byte := enc24 (N.of_nat (length d)) ++ d.

(** An entry of the server name list and an extension. *)
Record Name := mkName { name_type : N; name : list byte }.
Record Extension := mkExtension { ext_type : N; ext_data : list byte }.

Definition enc_name (e : Name) : list byte :=
  enc8 (name_type e) ++ len16 (name e).
Definition enc_names (es : list Name) : list byte := concat (map enc_name es).

Definition enc_extension (x : Extension) : list byte :=
  enc16 (ext_type x) ++ len16 (ext_data x).
Definition enc_extensions (xs : list Extension) : list byte :=
  concat (map enc_extension xs).

(** The server_name extension of a list of names. *)
Definition server_name_ext (es : list Name) : Extension :=
  mkExtension 0 (len16 (enc_names es)).

(** The fields of a TLS record that holds a ClientHello. *)
Record Hello := mkHello {
  record_version : list byte;
  legacy_version : list byte;
  random : list byte;
  session_id : list byte;
  cipher_suites : list byte;
  compression_methods : list byte;
  extensions : option (list Extension)
}.

Definition enc_body (h : Hello) : list byte :=
  legacy_version h ++ random h ++ len8 (session_id h)
  ++ len16 (cipher_suites h) ++ len8 (compression_methods h)
  ++ match extensions h with
     | Some xs => len16 (enc_extensions xs)
     | None => []
     end.

Definition enc_payload (h : Hello) : list byte := enc8 1 ++ len24 (enc_body h).

Definition enc_record (h : Hello) : list byte :=
  enc8 22 ++ record_version h ++ len16 (enc_payload h).

Definition fits (bits : N) (d : list byte) : Prop := (N.of_nat (length d) < 2 ^ bits)%N.

Definition wf_name (e : Name) : Prop :=
  (name_type e < 256)%N /\ fits 16 (name e).

Definition wf_extension (x : Extension) : Prop :=
  (ext_type x < 65536)%N /\ fits 16 (ext_data x).

(** Every field has the size its length prefix can declare. *)
Definition wf_hello (h : Hello) : Prop :=
  length (record_version h) = 2%nat /\
  length (legacy_version h) = 2%nat /\
  length (random h) = 32%nat /\
  fits 8 (session_id h) /\
  fits 16 (cipher_suites h) /\
  fits 8 (compression_methods h) /\
  match extensions h with
  | Some xs => Forall wf_extension xs /\ fits 16 (enc_extensions xs)
  | None => True
  end /\
  fits 24 (enc_body h) /\
  fits 16 (enc_payload h).

(** ** Records with a length prefix that declares too much *)

(** A length prefix of [bits] bits, written by [enc], that declares more
    bytes than remain after it. *)
Definition overrun (enc : N -> list byte) (bits : N) (b : list byte) : Prop :=
  exists n rest,
    b = enc n ++ rest /\ (n < 2 ^ bits)%N /\ (length rest < N.to_nat n)%nat.

(** The record and the handshake header around the body of a
    ClientHello, with lengths that fit their prefixes. *)
Definition enc_frame (ver body : list byte) : list byte :=
  enc8 22 ++ ver ++ len16 (enc8 1 ++ len24 body).

Definition wf_frame (ver body : list byte) : Prop :=
  length ver = 2%nat /\ fits 24 body /\ fits 16 (enc8 1 ++ len24 body).

(** The fields of [h] that come before the extensions block, and the
    record that has [block] in the place of the block. *)
Definition enc_fields (h : Hello) : list byte :=
  legacy_version h ++ random h ++ len8 (session_id h)
  ++ len16 (cipher_suites h) ++ len8 (compression_methods h).

Definition enc_around (h : Hello) (block : list byte) : list byte :=
  enc_frame (record_version h) (enc_fields h ++ block).

Definition wf_around (h : Hello) (block : list byte) : Prop :=
  length (legacy_version h) = 2%nat /\
  length (random h) = 32%nat /\
  fits 8 (session_id h) /\
  fits 16 (cipher_suites h) /\
  fits 8 (compression_methods h) /\
  wf_frame (record_version h) (enc_fields h ++ block).

(** ** The buffers that hold a server name *)

(** A server name list whose first entry of name-type 0 has the name
    [host]: well-formed entries of other types, that entry, and any
    bytes after it. *)
Definition names_layout (names host : list byte) : Prop :=
  exists (before : list Name) (tail : list byte),
    names = enc_names before ++ enc8 0 ++ len16 host ++ tail /\
    Forall (fun e => wf_name e /\ name_type e <> 0%N) before /\
    fits 16 host.

(** An extensions block whose first extension of type 0 holds such a
    list: well-formed extensions of other types, that extension, and any
    bytes after it. *)
Definition extensions_layout (exts host : list byte) : Prop :=
  exists (before : list Extension) (names tail1 tail2 : list byte),
    exts = enc_extensions before ++ enc16 0 ++ len16 (len16 names ++ tail1) ++ tail2 /\
    Forall (fun x => wf_extension x /\ ext_type x <> 0%N) before /\
    fits 16 names /\ fits 16 (len16 names ++ tail1) /\
    names_layout names host.

(** A buffer that starts with a handshake record whose payload starts
    with a ClientHello with such a block, every length on the way fitting
    in the bytes that remain; what follows the block, the body and the
    payload is free. *)
Definition record_layout (buf host : list byte) : Prop :=
  exists (ver lv rnd sid cs cm exts tail1 body tail2 payload tail3 : list byte),
    buf = enc8 22 ++ ver ++ len16 payload ++ tail3 /\
    payload = enc8 1 ++ len24 body ++ tail2 /\
    body = lv ++ rnd ++ len8 sid ++ len16 cs ++ len8 cm ++ len16 exts ++ tail1 /\
    length ver = 2%nat /\ fits 16 payload /\ fits 24 body /\
    length lv = 2%nat /\ length rnd = 32%nat /\
    fits 8 sid /\ fits 16 cs /\ fits 8 cm /\ fits 16 exts /\
    extensions_layout exts host.

End sni.


(* ===================================================================== *)
(** * The start of the program: [main] *)
(* ===================================================================== *)

(** The lines [main] logs before it listens, by the text of their
    format, with the values the format prints. *)
Inductive StartupMsg :=
| LogParseFailed (err : Error)
| LogStarting (listen : string)
| LogConfiguredRoutes
| LogPassthroughRoute (host dest proxyInfo : string)
| LogRoutedRoute (host target proxyInfo : string)
| LogNoRoutes.

(** The body of the loop over [routeMap.rules]: the line of one route. *)
Definition routeLine (entry : string * RouteConfig) : StartupMsg :=
  let '(host, cfg) := entry in
  let proxyInfo :=
    if negb (String.eqb (ProxyAddr cfg) "")
    then (" via SOCKS5 " ++ ProxyAddr cfg)%string else "" in
  if Passthrough cfg then LogPassthroughRoute host host proxyInfo
  else LogRoutedRoute host (Target cfg) proxyInfo.

(** [main] from the parsed flags to the call of [net.Listen]: the lines
    it logs, and the route table every connection is handled with, or the
    error [log.Fatalf] ends the program with.  [range] is the order in
    which the [for ... range] loop of this run meets the entries of the
    map, which Go leaves open. *)
Definition startup (range : gmap string RouteConfig -> list (string * RouteConfig))
           (listen : string) (routes : list string)
  : list StartupMsg * result RouteMap :=
  match parseRoutes routes with
  | Err err => ([LogParseFailed err], Err err)
  | Ok routeMap =>
      (LogStarting listen ::
       (if (0 <? size (rules routeMap))%nat
        then LogConfiguredRoutes :: map routeLine (range (rules routeMap))
        else [LogNoRoutes]),
       Ok routeMap)
  end.

(** The bytes [strconv.Atoi] accepts: decimal digits and a sign. *)
Definition numeric (c : ascii) : Prop :=
  (48 <= nat_of_ascii c <= 57)%nat \/ c = "-"%char \/ c = "+"%char.

(* ===================================================================== *)
(** * Sample values *)
(* ===================================================================== *)

(** A ClientHello for [host]: one extension of another type, then the
    server_name extension with the one name. *)
Definition sampleHello (host : string) : sni.Hello :=
  sni.mkHello [x03; x01] [x03; x03] (repeat x00 32) [] [x13; x01] [x00]
    (Some [sni.mkExtension 10 [x00; x02; x00; x1d];
           sni.server_name_ext [sni.mkName 0 (list_byte_of_string host)]]).

(** A client that sends the record in one piece, then two more bytes. *)
Definition sampleClient (host : string) : Conn :=
  mkConn [Data (sni.enc_record (sampleHello host)); Data [x07; x08]]
         None false [] None.

(** A backend that sends one byte and takes every byte. *)
Definition sampleBackend : Conn := mkConn [Data [x01]] None false [] None.

(** The table of two routes. *)
Definition sampleTable : RouteMap :=
  mkRouteMap (<["b" := mkRouteConfig "b" "localhost:1" false ""]>
              (<["example.com" := mkRouteConfig "example.com" "" true ""]> ∅)).

(** The relay the handler starts for the client of host [b]. *)
Definition sampleRelay : Relay :=
  mkRelay "b" (mkConn [Data [x07; x08]] None false [] None) sampleBackend
          (PrBuf (sni.enc_record (sampleHello "b"))) Reading Reading [] AwaitErr.

Definition sampleEnv : Env :=
  mkEnv 0 sni.ParseClientHello (fun _ _ => None)
        (fun _ _ _ => inl sampleBackend) (fun c _ => inl c).

(* ===================================================================== *)
(** * Properties of the route grammar and the route table *)
(* ===================================================================== *)

Section RouteFacts.

Implicit Types (rm : gmap string RouteConfig) (routes : list string).

(** A table that was built holds what the map held, and the descriptor of
    every route string of the list under its host. *)
Lemma parseRoutesFrom_lookup rm routes t :
  parseRoutesFrom rm routes = Ok t ->
  forall h cfg,
    rules t !! h = Some cfg <->
    rm !! h = Some cfg \/
    exists r, In r routes /\ parseRoute r = Ok cfg /\ Host cfg = h.
Proof.
  revert rm. induction routes as [|route rest IH]; intros rm Hok h cfg; simpl in Hok.
  - inversion Hok; subst; simpl. split; [auto | intros [H | (r & [] & _)]; exact H].
  - destruct (parseRoute route) as [c|e] eqn:Hp; [|discriminate].
    destruct (rm !! Host c) eqn:Hfresh; [discriminate|].
    rewrite (IH _ Hok h cfg). split.
    + intros [Hins | (r & Hin & Hr & Hh)].
      * destruct (decide (Host c = h)) as [<-|Hne].
        -- rewrite lookup_insert_eq in Hins. inversion Hins; subst.
           right. exists route. simpl. auto.
        -- rewrite lookup_insert_ne in Hins by exact Hne. auto.
      * right. exists r. simpl. auto.
    + intros [Hrm | (r & [<- | Hin] & Hr & Hh)].
      * left. rewrite lookup_insert_ne; [exact Hrm|]. congruence.
      * left. rewrite Hp in Hr. inversion Hr; subst. apply lookup_insert_eq.
      * right. exists r. auto.
Qed.

(** Building a table succeeds only when no host of the list is in the map
    yet. *)
Lemma parseRoutesFrom_fresh rm routes t :
  parseRoutesFrom rm routes = Ok t ->
  forall r c, In r routes -> parseRoute r = Ok c -> rm !! Host c = None.
Proof.
  revert rm. induction routes as [|route rest IH]; intros rm Hok r c Hin Hr; simpl in *.
  - destruct Hin.
  - destruct (parseRoute route) as [c0|e] eqn:Hp; [|discriminate].
    destruct (rm !! Host c0) eqn:Hfresh; [discriminate|].
    destruct Hin as [<- | Hin].
    + congruence.
    + specialize (IH _ Hok r c Hin Hr).
      apply lookup_insert_None in IH. tauto.
Qed.

(** Two strings of the list with one host: no table. *)
Lemma parseRoutesFrom_duplicate rm routes i j r1 r2 c1 c2 :
  (i < j)%nat ->
  routes !! i = Some r1 -> routes !! j = Some r2 ->
  parseRoute r1 = Ok c1 -> parseRoute r2 = Ok c2 ->
  Host c1 = Host c2 ->
  exists e, parseRoutesFrom rm routes = Err e.
Proof.
  revert rm i j. induction routes as [|route rest IH]; intros rm i j Hlt Hi Hj H1 H2 Hh.
  - discriminate.
  - simpl. destruct j as [|j]; [lia|]. simpl in Hj.
    destruct (parseRoute route) as [c0|e] eqn:Hp; [|eauto].
    destruct (rm !! Host c0) eqn:Hfresh; [eauto|].
    destruct i as [|i]; simpl in Hi.
    + inversion Hi; subst route. rewrite H1 in Hp. inversion Hp; subst c0.
      destruct (parseRoutesFrom (<[Host c1:=c1]> rm) rest) as [t|e] eqn:Hrest; [|eauto].
      exfalso.
      assert (Hin : In r2 rest).
      { apply list_elem_of_In. eapply list_elem_of_lookup_2. exact Hj. }
      pose proof (parseRoutesFrom_fresh _ _ _ Hrest r2 c2 Hin H2) as Hnone.
      rewrite <- Hh, lookup_insert_eq in Hnone. discriminate.
    + apply (IH _ i j); auto. lia.
Qed.

(** When every string of the list is valid, the only failure is a
    duplicate host. *)
Lemma parseRoutesFrom_valid_error rm routes e :
  Forall (fun r => exists c, parseRoute r = Ok c) routes ->
  parseRoutesFrom rm routes = Err e ->
  exists h, e = ErrDuplicateRoute h.
Proof.
  intros Hall. revert rm. induction Hall as [|route rest [c Hc] _ IH]; intros rm Herr; simpl in Herr.
  - discriminate.
  - rewrite Hc in Herr. destruct (rm !! Host c); [inversion Herr; eauto|]. eauto.
Qed.

(** A failure of [parseRoutes] is a duplicate host or the error of a string
    of the list. *)
Lemma parseRoutesFrom_error rm routes e :
  parseRoutesFrom rm routes = Err e ->
  (exists h, e = ErrDuplicateRoute h) \/ exists r, In r routes /\ parseRoute r = Err e.
Proof.
  revert rm. induction routes as [|route rest IH]; intros rm Herr; simpl in Herr.
  - discriminate.
  - destruct (parseRoute route) as [c|e0] eqn:Hp.
    + destruct (rm !! Host c).
      * inversion Herr; eauto.
      * destruct (IH _ Herr) as [?|(r & ? & ?)]; [auto|]. right. exists r. simpl. auto.
    + inversion Herr; subst. right. exists route. simpl. auto.
Qed.

End RouteFacts.

(** C4. [parseRoute] on the five route strings of the specification: a
    bare hostname is a passthrough route with no target and no proxy;
    [=:8080] is routed to [localhost:8080]; a target with a proxy suffix is
    routed to the target through the proxy; [hostname:port] without [=] is
    a format error; an empty target after [=] is the empty-target error. *)
Theorem parseRoute_examples :
  parseRoute "example.com" = Ok (mkRouteConfig "example.com" "" true "") /\
  parseRoute "example.com=:8080"
    = Ok (mkRouteConfig "example.com" "localhost:8080" false "") /\
  parseRoute "example.com=backend.local:443@127.0.0.1:1080"
    = Ok (mkRouteConfig "example.com" "backend.local:443" false "127.0.0.1:1080") /\
  parseRoute "example.com:443" = Err (ErrInvalidRouteFormat "example.com:443") /\
  parseRoute "example.com=" = Err ErrTargetRequired.
Proof. repeat split; vm_compute; reflexivity. Qed.

(** C5, as stated, fails: with an invalid string before the second of the
    two strings that share a host, the error is the one of the invalid
    string and not the duplicate-route error. *)
Lemma parseRoutes_duplicate_counterexample :
  parseRoute "a" = Ok (mkRouteConfig "a" "" true "") /\
  ["a"; "b:1"; "a"] !! 0%nat = Some "a" /\
  ["a"; "b:1"; "a"] !! 2%nat = Some "a" /\
  parseRoutes ["a"; "b:1"; "a"] = Err (ErrInvalidRouteFormat "b:1") /\
  ~ (exists h, parseRoutes ["a"; "b:1"; "a"] = Err (ErrDuplicateRoute h)).
Proof.
  repeat split; try (vm_compute; reflexivity).
  intros [h Hh]. vm_compute in Hh. discriminate.
Qed.

(** C5, amended.  For every list of route strings in which two valid route
    strings, at two places of the list, share a hostname, [parseRoutes]
    returns no table, whatever the order; the error is the duplicate-route
    error or the error of an invalid string of the list, and it is the
    duplicate-route error when every string of the list is valid. *)
Theorem parseRoutes_duplicate (routes : list string) (i j : nat)
  (r1 r2 : string) (c1 c2 : RouteConfig)
  (Hij : i <> j)
  (Hi : routes !! i = Some r1) (Hj : routes !! j = Some r2)
  (H1 : parseRoute r1 = Ok c1) (H2 : parseRoute r2 = Ok c2)
  (Hhost : Host c1 = Host c2) :
  exists e,
    parseRoutes routes = Err e /\
    ((exists h, e = ErrDuplicateRoute h) \/
     exists r, In r routes /\ parseRoute r = Err e) /\
    (Forall (fun r => exists c, parseRoute r = Ok c) routes ->
     exists h, e = ErrDuplicateRoute h).
Proof.
  assert (He : exists e, parseRoutes routes = Err e).
  { unfold parseRoutes. destruct (Nat.lt_total i j) as [Hlt | [Heq | Hgt]].
    - eapply parseRoutesFrom_duplicate; eauto.
    - contradiction.
    - eapply (parseRoutesFrom_duplicate _ _ j i); eauto. }
  destruct He as [e He]. exists e. split; [exact He|]. split.
  - eapply parseRoutesFrom_error. exact He.
  - intros Hall. eapply parseRoutesFrom_valid_error; eauto.
Qed.

Lemma parseRoutes_duplicate_witness :
  exists e,
    parseRoutes ["a=:1"; "b"; " a "] = Err e /\
    ((exists h, e = ErrDuplicateRoute h) \/
     exists r, In r ["a=:1"; "b"; " a "] /\ parseRoute r = Err e) /\
    (Forall (fun r => exists c, parseRoute r = Ok c) ["a=:1"; "b"; " a "] ->
     exists h, e = ErrDuplicateRoute h).
Proof.
  apply (parseRoutes_duplicate ["a=:1"; "b"; " a "] 2 0 " a " "a=:1"
           (mkRouteConfig "a" "" true "") (mkRouteConfig "a" "localhost:1" false ""));
    [lia | reflexivity | reflexivity | vm_compute; reflexivity
     | vm_compute; reflexivity | reflexivity].
Defined.

(** C10. Route lookup is exact string equality.  In every route table
    [Lookup] finds a descriptor under [h] exactly when [h] itself is a key
    of the table; in the table built from a list of route strings, exactly
    when a string of the list parses to that descriptor and its hostname
    is [h] itself.  There is no case folding and no wildcard or subdomain
    matching: a route for [example.com] matches neither [EXAMPLE.COM] nor
    [www.example.com]. *)
Theorem Lookup_exact (routes : list string) (rm : RouteMap)
  (Hbuilt : parseRoutes routes = Ok rm) :
  (forall (t : RouteMap) (h : string), is_Some (Lookup t h) <-> h ∈ dom (rules t)) /\
  (forall h cfg,
     Lookup rm h = Some cfg <->
     exists r, In r routes /\ parseRoute r = Ok cfg /\ Host cfg = h) /\
  (forall h cfg, Lookup rm h = Some cfg -> Host cfg = h) /\
  (exists rm',
     parseRoutes ["example.com"] = Ok rm' /\
     Lookup rm' "example.com" = Some (mkRouteConfig "example.com" "" true "") /\
     Lookup rm' "EXAMPLE.COM" = None /\
     Lookup rm' "www.example.com" = None).
Proof.
  pose proof (parseRoutesFrom_lookup _ _ _ Hbuilt) as Hl.
  split; [|split; [|split]].
  - intros t h. unfold Lookup. symmetry. apply elem_of_dom.
  - intros h cfg. unfold Lookup. rewrite Hl. rewrite lookup_empty.
    split; [intros [?|?]; [discriminate|assumption] | auto].
  - intros h cfg Hc. unfold Lookup in Hc. apply Hl in Hc.
    destruct Hc as [Hc | (r & _ & _ & Hh)]; [rewrite lookup_empty in Hc; discriminate | exact Hh].
  - eexists. split; [vm_compute; reflexivity|].
    repeat split; vm_compute; reflexivity.
Qed.

Lemma Lookup_exact_witness :
  parseRoutes ["example.com"; "b=:1"] = Ok sampleTable /\
  Lookup sampleTable "b" = Some (mkRouteConfig "b" "localhost:1" false "").
Proof.
  assert (Hbuilt : parseRoutes ["example.com"; "b=:1"] = Ok sampleTable)
    by (vm_compute; reflexivity).
  split; [exact Hbuilt|].
  apply (proj1 (proj2 (Lookup_exact ["example.com"; "b=:1"] sampleTable Hbuilt))).
  exists "b=:1". split; [simpl; auto|]. split; vm_compute; reflexivity.
Defined.

Section TrimFacts.

(** [strings.TrimSpace] on one-byte, two-byte and three-byte white space:
    TAB, U+00A0 and U+2003 around [a b], and a lone continuation byte,
    which stays. *)
Example TrimSpace_runes :
  TrimSpace (String (ascii_of_nat 9)
            (String (ascii_of_nat 194) (String (ascii_of_nat 160)
            ("a b" ++
             String (ascii_of_nat 226) (String (ascii_of_nat 128)
             (String (ascii_of_nat 131) " ")))))) = "a b" /\
  TrimSpace (String (ascii_of_nat 160) " a") = String (ascii_of_nat 160) " a".
Proof. split; vm_compute; reflexivity. Qed.

(** ** White space in a byte string *)

Ltac bytes_of_runes :=
  unfold ascii_space, space2, space3 in *;
  repeat match goal with
  | H : _ && _ = true |- _ => apply andb_true_iff in H; destruct H
  | H : _ || _ = true |- _ => apply orb_true_iff in H; destruct H
  | H : (_ =? _)%nat = true |- _ => apply Nat.eqb_eq in H
  | H : (_ <=? _)%nat = true |- _ => apply Nat.leb_le in H
  end;
  repeat match goal with
  | |- _ /\ _ => split
  | |- _ || _ = false => apply orb_false_iff
  | |- _ && _ = false => apply andb_false_iff
  | |- (_ =? _)%nat = false => apply Nat.eqb_neq
  | |- (_ <=? _)%nat = false => apply Nat.leb_gt
  end.

Lemma ascii_space_lead a : ascii_space a = true -> lead a.
Proof. intros H. unfold lead. bytes_of_runes; lia. Qed.

Lemma space2_lead a b : space2 a b = true -> lead a /\ cont b /\ nat_of_ascii a = 194%nat.
Proof. intros H. unfold lead, cont. bytes_of_runes; lia. Qed.

Lemma space3_lead a b c :
  space3 a b c = true ->
  lead a /\ cont b /\ cont c /\ (225 <= nat_of_ascii a)%nat.
Proof. intros H. unfold lead, cont. bytes_of_runes; lia. Qed.

Lemma cont_not_space a : cont a -> ascii_space a = false.
Proof.
  unfold cont, ascii_space. intros [H1 H2].
  destruct (Nat.leb_spec 9 (nat_of_ascii a)); destruct (Nat.leb_spec (nat_of_ascii a) 13);
    destruct (Nat.eqb_spec (nat_of_ascii a) 32); simpl; try reflexivity; lia.
Qed.

Lemma space2_first a b : space2 a b = true -> nat_of_ascii a = 194%nat.
Proof. intros H. apply space2_lead in H. tauto. Qed.

Lemma not_space2_first a b : nat_of_ascii a <> 194%nat -> space2 a b = false.
Proof.
  intros H. unfold space2. destruct (Nat.eqb_spec (nat_of_ascii a) 194); [contradiction|reflexivity].
Qed.

Lemma not_space2_second a b : lead b -> space2 a b = false.
Proof.
  intros H. destruct (space2 a b) eqn:E; [|reflexivity].
  apply space2_lead in E. unfold lead, cont in *. lia.
Qed.

Lemma not_space3_second a b c : lead b -> space3 a b c = false.
Proof.
  intros H. destruct (space3 a b c) eqn:E; [|reflexivity].
  apply space3_lead in E. unfold lead, cont in *. lia.
Qed.

Lemma not_space3_third a b c : lead c -> space3 a b c = false.
Proof.
  intros H. destruct (space3 a b c) eqn:E; [|reflexivity].
  apply space3_lead in E. unfold lead, cont in *. lia.
Qed.

Lemma not_space3_first a b c : (nat_of_ascii a < 225)%nat -> space3 a b c = false.
Proof.
  intros H. destruct (space3 a b c) eqn:E; [|reflexivity].
  apply space3_lead in E. lia.
Qed.

Lemma blank_head b w : blank (b :: w) -> lead b.
Proof.
  intros H. inversion H; subst.
  - apply ascii_space_lead. assumption.
  - eapply space2_lead. eassumption.
  - eapply space3_lead. eassumption.
Qed.

Lemma blank_app w1 w2 : blank w1 -> blank w2 -> blank (w1 ++ w2).
Proof. intros H1 H2. induction H1; simpl; [assumption| | |]; constructor; assumption. Qed.

(** What [trim_left] removes is white space, and it removes all of it. *)
Lemma trim_left_spec l :
  exists w, blank w /\ l = w ++ trim_left l /\ trim_left (trim_left l) = trim_left l.
Proof.
  remember (length l) as n eqn:Hn. revert l Hn.
  induction n as [n IH] using lt_wf_ind. intros l Hn.
  destruct l as [|a l1]; [exists []; repeat split; constructor|].
  cbn [trim_left]. destruct (ascii_space a) eqn:Ha.
  { destruct (IH (length l1) ltac:(simpl in Hn; lia) l1 eq_refl) as (w & Hw & Heq & Hst).
    exists (a :: w). split; [constructor; assumption|].
    split; [simpl; congruence | exact Hst]. }
  destruct l1 as [|b l2].
  { exists []. repeat split; [constructor | simpl; rewrite Ha; reflexivity]. }
  destruct (space2 a b) eqn:Hab.
  { destruct (IH (length l2) ltac:(simpl in Hn; lia) l2 eq_refl) as (w & Hw & Heq & Hst).
    exists (a :: b :: w). split; [constructor; assumption|].
    split; [simpl; congruence | exact Hst]. }
  destruct l2 as [|c l3].
  { exists []. repeat split; [constructor | simpl; rewrite Ha, Hab; reflexivity]. }
  destruct (space3 a b c) eqn:Habc.
  { destruct (IH (length l3) ltac:(simpl in Hn; lia) l3 eq_refl) as (w & Hw & Heq & Hst).
    exists (a :: b :: c :: w). split; [constructor; assumption|].
    split; [simpl; congruence | exact Hst]. }
  exists []. repeat split; [constructor | simpl; rewrite Ha, Hab, Habc; reflexivity].
Qed.

Lemma trim_left_length l : (length (trim_left l) <= length l)%nat.
Proof.
  destruct (trim_left_spec l) as (w & _ & Heq & _).
  rewrite Heq at 2. rewrite length_app. lia.
Qed.

Lemma trim_left_blank w l : blank w -> trim_left (w ++ l) = trim_left l.
Proof.
  intros Hw. induction Hw as [|a w Ha _ IH|a b w Hab _ IH|a b c w Habc _ IH];
    cbn [app trim_left].
  - reflexivity.
  - rewrite Ha. exact IH.
  - destruct (space2_lead _ _ Hab) as (_ & _ & Hf).
    assert (ascii_space a = false) as ->.
    { unfold ascii_space. rewrite Hf. reflexivity. }
    rewrite Hab. exact IH.
  - destruct (space3_lead _ _ _ Habc) as (_ & _ & _ & Hf).
    assert (ascii_space a = false) as ->.
    { unfold ascii_space.
      destruct (Nat.leb_spec (nat_of_ascii a) 13); destruct (Nat.eqb_spec (nat_of_ascii a) 32);
        lia. }
    rewrite not_space2_first by lia. rewrite Habc. exact IH.
Qed.

(** What [trim_rev] removes from the reversed bytes is white space. *)
Lemma trim_rev_spec r : exists w, blank w /\ r = rev w ++ trim_rev r.
Proof.
  remember (length r) as n eqn:Hn. revert r Hn.
  induction n as [n IH] using lt_wf_ind. intros r Hn.
  destruct r as [|a r1]; [exists []; split; constructor|].
  cbn [trim_rev]. destruct (ascii_space a) eqn:Ha.
  { destruct (IH (length r1) ltac:(simpl in Hn; lia) r1 eq_refl) as (w & Hw & Heq).
    exists (w ++ [a]). split; [apply blank_app; [assumption | repeat constructor; assumption]|].
    rewrite rev_app_distr. simpl. congruence. }
  destruct r1 as [|b r2]; [exists []; split; constructor|].
  destruct (space2 b a) eqn:Hab.
  { destruct (IH (length r2) ltac:(simpl in Hn; lia) r2 eq_refl) as (w & Hw & Heq).
    exists (w ++ [b; a]).
    split; [apply blank_app; [assumption | apply blank_2; [assumption | constructor]]|].
    rewrite rev_app_distr. simpl. congruence. }
  destruct r2 as [|c r3]; [exists []; split; constructor|].
  destruct (space3 c b a) eqn:Habc.
  { destruct (IH (length r3) ltac:(simpl in Hn; lia) r3 eq_refl) as (w & Hw & Heq).
    exists (w ++ [c; b; a]).
    split; [apply blank_app; [assumption | apply blank_3; [assumption | constructor]]|].
    rewrite rev_app_distr. simpl. congruence. }
  exists []. split; constructor.
Qed.

Lemma trim_rev_blank w r : blank w -> trim_rev (rev w ++ r) = trim_rev r.
Proof.
  intros Hw. revert r.
  induction Hw as [|a w Ha _ IH|a b w Hab _ IH|a b c w Habc _ IH]; intros r.
  - reflexivity.
  - simpl rev. rewrite <- app_assoc, IH. cbn [app trim_rev]. rewrite Ha. reflexivity.
  - simpl rev. rewrite <- !app_assoc, IH. cbn [app trim_rev].
    destruct (space2_lead _ _ Hab) as (_ & Hb & _).
    rewrite (cont_not_space _ Hb), Hab. reflexivity.
  - simpl rev. rewrite <- !app_assoc, IH. cbn [app trim_rev].
    destruct (space3_lead _ _ _ Habc) as (_ & Hb & Hc & _).
    rewrite (cont_not_space _ Hc).
    rewrite not_space2_first by (unfold cont in Hb; lia).
    rewrite Habc. reflexivity.
Qed.

(** White space after a string that does not begin with white space is
    left alone by [trim_left]. *)
Lemma trim_left_keeps l w :
  trim_left l = l -> l <> [] -> blank w -> trim_left (l ++ w) = l ++ w.
Proof.
  intros Hst Hne Hw.
  destruct l as [|a l1]; [contradiction|]. clear Hne.
  assert (Ha : ascii_space a = false).
  { destruct (ascii_space a) eqn:Ha; [|reflexivity]. exfalso.
    cbn [trim_left] in Hst. rewrite Ha in Hst.
    pose proof (trim_left_length l1) as Hl. rewrite Hst in Hl. simpl in Hl. lia. }
  cbn [trim_left] in Hst. rewrite Ha in Hst. cbn [app trim_left]. rewrite Ha.
  destruct l1 as [|b l2].
  { cbn [app]. destruct w as [|b w1]; [reflexivity|].
    pose proof (blank_head _ _ Hw) as Hb.
    rewrite not_space2_second by exact Hb.
    destruct w1 as [|c w2]; [reflexivity|].
    rewrite not_space3_second by exact Hb. reflexivity. }
  assert (Hab : space2 a b = false).
  { destruct (space2 a b) eqn:Hab; [|reflexivity]. exfalso.
    pose proof (trim_left_length l2) as Hl. rewrite Hst in Hl. simpl in Hl. lia. }
  rewrite Hab in Hst. cbn [app]. rewrite Hab.
  destruct l2 as [|c l3].
  { cbn [app]. destruct w as [|c w1]; [reflexivity|].
    pose proof (blank_head _ _ Hw) as Hc.
    rewrite not_space3_third by exact Hc. reflexivity. }
  assert (Habc : space3 a b c = false).
  { destruct (space3 a b c) eqn:Habc; [|reflexivity]. exfalso.
    pose proof (trim_left_length l3) as Hl. rewrite Hst in Hl. simpl in Hl. lia. }
  cbn [app]. rewrite Habc. reflexivity.
Qed.

(** [trim] takes white space off both ends and nothing else. *)
Lemma trim_split l : exists w1 w2, blank w1 /\ blank w2 /\ l = w1 ++ trim l ++ w2.
Proof.
  destruct (trim_left_spec l) as (w1 & Hw1 & Hl & _).
  destruct (trim_rev_spec (rev (trim_left l))) as (w2 & Hw2 & Hr).
  exists w1, w2. split; [exact Hw1|]. split; [exact Hw2|].
  apply (f_equal (@rev ascii)) in Hr.
  rewrite rev_involutive, rev_app_distr, rev_involutive in Hr.
  unfold trim. rewrite <- Hr. exact Hl.
Qed.

Lemma trim_blank_l w l : blank w -> trim (w ++ l) = trim l.
Proof. intros Hw. unfold trim. rewrite trim_left_blank by exact Hw. reflexivity. Qed.

Lemma trim_blank_r l w : blank w -> trim (l ++ w) = trim l.
Proof.
  intros Hw. unfold trim.
  destruct (trim_left_spec l) as (w0 & Hw0 & Hl & Hst).
  destruct (trim_left l) as [|a l'] eqn:Htl.
  - rewrite app_nil_r in Hl. subst l.
    rewrite <- (app_nil_r (w0 ++ w)), trim_left_blank by (apply blank_app; assumption).
    reflexivity.
  - rewrite Hl at 1. rewrite <- app_assoc, trim_left_blank by exact Hw0.
    rewrite trim_left_keeps by (assumption || discriminate).
    rewrite rev_app_distr, trim_rev_blank by exact Hw. reflexivity.
Qed.

Lemma trim_idem l : trim (trim l) = trim l.
Proof.
  destruct (trim_split l) as (w1 & w2 & Hw1 & Hw2 & Hl).
  rewrite Hl at 2. rewrite trim_blank_l, trim_blank_r by assumption. reflexivity.
Qed.

Lemma blank_plain w c : blank w -> plain c -> ~ In c w.
Proof.
  unfold plain. intros Hw Hc.
  induction Hw as [|a w Ha _ IH|a b w Hab _ IH|a b x w Habc _ IH]; simpl.
  - tauto.
  - apply ascii_space_lead in Ha. unfold lead in Ha.
    intros [-> | H]; [lia | tauto].
  - destruct (space2_lead _ _ Hab) as (_ & Hb & Hf). unfold cont in Hb.
    intros [-> | [-> | H]]; [lia | lia | tauto].
  - destruct (space3_lead _ _ _ Habc) as (_ & Hb & Hx & Hf). unfold cont in Hb, Hx.
    intros [-> | [-> | [-> | H]]]; [lia | lia | lia | tauto].
Qed.

Lemma trim_In l c : plain c -> In c (trim l) <-> In c l.
Proof.
  intros Hc. destruct (trim_split l) as (w1 & w2 & Hw1 & Hw2 & Hl).
  pose proof (blank_plain _ _ Hw1 Hc). pose proof (blank_plain _ _ Hw2 Hc).
  rewrite Hl at 2. rewrite !in_app_iff. tauto.
Qed.

(** The split of a byte string at the first [c]. *)
Lemma first_split_unique (c : ascii) (A B A' B' : list ascii) :
  A ++ c :: B = A' ++ c :: B' -> ~ In c A -> ~ In c A' -> A = A' /\ B = B'.
Proof.
  revert A'. induction A as [|a A IH]; intros [|a' A'] Heq HA HA'; simpl in *.
  - inversion Heq. auto.
  - inversion Heq; subst. tauto.
  - inversion Heq; subst. tauto.
  - inversion Heq; subst. destruct (IH A' H1) as [-> ->]; [tauto | tauto | auto].
Qed.

(** Trimming before or after the split at the first [c] gives the same
    trimmed parts. *)
Lemma trim_first_split (c : ascii) (A B A' B' : list ascii) :
  plain c ->
  ~ In c A -> ~ In c A' ->
  trim (A ++ c :: B) = A' ++ c :: B' ->
  trim A' = trim A /\ trim B' = trim B.
Proof.
  intros Hc HA HA' Ht.
  destruct (trim_split (A ++ c :: B)) as (w1 & w2 & Hw1 & Hw2 & Hl).
  rewrite Ht in Hl. rewrite <- !app_assoc in Hl. cbn [app] in Hl.
  rewrite app_assoc in Hl.
  apply first_split_unique in Hl; [|exact HA|].
  - destruct Hl as [-> ->]. rewrite trim_blank_l, trim_blank_r by assumption. auto.
  - rewrite in_app_iff. pose proof (blank_plain _ _ Hw1 Hc). tauto.
Qed.

(** ** From byte lists to strings *)

Lemma TrimSpace_trim s :
  TrimSpace s = string_of_list_ascii (trim (list_ascii_of_string s)).
Proof.
  unfold TrimSpace, TrimRight, TrimLeft, trim.
  rewrite list_ascii_of_string_of_list_ascii. reflexivity.
Qed.

Lemma IndexByte_ge s c : -1 <= IndexByte s c.
Proof.
  induction s as [|a s IH]; simpl; [lia|].
  destruct (Ascii.eqb a c); [lia|]. destruct (Z.eqb_spec (IndexByte s c) (-1)); lia.
Qed.

Lemma IndexByte_split s c :
  (IndexByte s c = -1 /\ ~ In c (list_ascii_of_string s)) \/
  exists A B,
    list_ascii_of_string s = A ++ c :: B /\ ~ In c A /\
    IndexByte s c = Z.of_nat (length A) /\
    take_str (length A) s = string_of_list_ascii A /\
    drop_str (S (length A)) s = string_of_list_ascii B.
Proof.
  induction s as [|a s IH]; cbn [IndexByte list_ascii_of_string].
  - left. simpl. tauto.
  - destruct (Ascii.eqb_spec a c) as [->|Hne].
    + right. exists [], (list_ascii_of_string s). simpl.
      rewrite string_of_list_ascii_of_string. repeat split; auto.
    + destruct IH as [[Hi Hn] | (A & B & Hl & HA & Hi & Hto & Hfrom)].
      * left. rewrite Hi. simpl. split; [reflexivity|]. intros [?|?]; [congruence | tauto].
      * right. exists (a :: A), B.
        destruct (Z.eqb_spec (IndexByte s c) (-1)) as [E|_]; [lia|].
        rewrite Hl, Hi. cbn [length take_str drop_str string_of_list_ascii app].
        rewrite Hto. cbn [drop_str] in Hfrom. rewrite Hfrom.
        repeat split; auto; [|lia]. intros [?|?]; [congruence | tauto].
Qed.

Lemma Contains_In s c : Contains s c = true <-> In c (list_ascii_of_string s).
Proof.
  unfold Contains.
  destruct (IndexByte_split s c) as [[Hi Hn] | (A & B & Hl & HA & Hi & _)].
  - rewrite Hi. simpl. split; [discriminate | tauto].
  - destruct (Z.eqb_spec (IndexByte s c) (-1)) as [E|_]; [lia|]. simpl.
    rewrite Hl, in_app_iff. simpl. tauto.
Qed.

Lemma SplitN2_spec s c :
  Contains s c = true ->
  exists A B,
    list_ascii_of_string s = A ++ c :: B /\ ~ In c A /\
    SplitN2 s c = [string_of_list_ascii A; string_of_list_ascii B].
Proof.
  intros Hc. apply Contains_In in Hc.
  destruct (IndexByte_split s c) as [[Hi Hn] | (A & B & Hl & HA & Hi & Hto & Hfrom)];
    [contradiction|].
  exists A, B. split; [exact Hl|]. split; [exact HA|].
  unfold SplitN2, slice_to, slice_from.
  destruct (Z.eqb_spec (IndexByte s c) (-1)) as [E|_]; [lia|].
  rewrite Hi. replace (Z.to_nat (Z.of_nat (length A) + 1)) with (S (length A)) by lia.
  rewrite Nat2Z.id, Hto, Hfrom. reflexivity.
Qed.

Lemma Contains_TrimSpace s c : plain c -> Contains (TrimSpace s) c = Contains s c.
Proof.
  intros Hc. apply eq_true_iff_eq. rewrite !Contains_In, TrimSpace_trim.
  rewrite list_ascii_of_string_of_list_ascii. apply trim_In. exact Hc.
Qed.

Lemma TrimSpace_idem s : TrimSpace (TrimSpace s) = TrimSpace s.
Proof.
  rewrite !TrimSpace_trim, list_ascii_of_string_of_list_ascii, trim_idem. reflexivity.
Qed.

Lemma SplitN2_TrimSpace s c :
  plain c -> Contains s c = true ->
  TrimSpace (nth 0 (SplitN2 (TrimSpace s) c) "") = TrimSpace (nth 0 (SplitN2 s c) "") /\
  TrimSpace (nth 1 (SplitN2 (TrimSpace s) c) "") = TrimSpace (nth 1 (SplitN2 s c) "").
Proof.
  intros Hc Hs.
  pose proof Hs as Hs'. rewrite <- (Contains_TrimSpace s c Hc) in Hs'.
  destruct (SplitN2_spec _ _ Hs) as (A & B & Hl & HA & ->).
  destruct (SplitN2_spec _ _ Hs') as (A' & B' & Hl' & HA' & ->).
  rewrite TrimSpace_trim, list_ascii_of_string_of_list_ascii, Hl in Hl'.
  destruct (trim_first_split c A B A' B' Hc HA HA' Hl') as [HtA HtB].
  cbn [nth]. rewrite !TrimSpace_trim, !list_ascii_of_string_of_list_ascii, HtA, HtB.
  split; reflexivity.
Qed.

(** The route of a remainder does not depend on the white space around
    it, up to the text a format error quotes. *)
Lemma parseRemainder_TrimSpace route route' proxyAddr remainder cfg :
  parseRemainder route proxyAddr (TrimSpace remainder) = Ok cfg <->
  parseRemainder route' proxyAddr remainder = Ok cfg.
Proof.
  assert (Hcolon : plain ":") by (unfold plain; vm_compute; lia).
  assert (Heq : plain "=") by (unfold plain; vm_compute; lia).
  unfold parseRemainder.
  rewrite !Contains_TrimSpace by assumption. rewrite TrimSpace_idem.
  destruct (Contains remainder "=") eqn:Hc; simpl.
  - rewrite andb_false_r.
    destruct (SplitN2_TrimSpace remainder "=" Heq Hc) as [-> ->]. reflexivity.
  - rewrite andb_true_r. destruct (Contains remainder ":"); [|reflexivity].
    split; discriminate.
Qed.

End TrimFacts.
(** With nothing but white space after its last [@], a route string has
    no proxy address and its remainder is the text before the [@]. *)
Lemma splitProxy_trailing_at route idx :
  LastIndex route "@" = idx -> idx <> -1 ->
  TrimSpace (slice_from route (idx + 1)) = "" ->
  splitProxy route = Ok ("", TrimSpace (slice_to route idx)).
Proof.
  intros Hat Hidx Hblank. unfold splitProxy. rewrite Hat.
  destruct (Z.eqb_spec idx (-1)) as [|_]; [contradiction|]. simpl.
  rewrite Hblank. reflexivity.
Qed.

(** C9, as stated, fails: a route string that ends in [@] need not
    succeed, and it need not behave as without the [@]. *)
Lemma parseRoute_trailing_at_counterexample :
  (LastIndex "@" "@" = 0 /\
   TrimSpace (slice_from "@" (0 + 1)) = "" /\
   parseRoute "@" = Err ErrEmptyHostname) /\
  (LastIndex "a@b:1@" "@" = 5 /\
   TrimSpace (slice_from "a@b:1@" (5 + 1)) = "" /\
   parseRoute "a@b:1@" = Err (ErrInvalidRouteFormat "a@b:1@") /\
   parseRoute "a@b:1" = Ok (mkRouteConfig "a" "" true "b:1")).
Proof. repeat split; vm_compute; reflexivity. Qed.

(** C9, amended.  For every route string whose last [@] is followed only
    by white space or nothing, [parseRoute] does not return an
    invalid-proxy error, and a descriptor it produces has no proxy
    address; when the text before that [@] holds no other [@],
    [parseRoute] succeeds exactly when it does on that text, and with the
    same descriptor, as for [example.com@]. *)
Theorem parseRoute_trailing_at (route : string) (idx : Z)
  (Hat : LastIndex route "@" = idx) (Hidx : idx <> -1)
  (Hblank : TrimSpace (slice_from route (idx + 1)) = "") :
  (forall addr why, parseRoute route <> Err (ErrInvalidSocksProxy addr why)) /\
  (forall cfg, parseRoute route = Ok cfg -> ProxyAddr cfg = "") /\
  (LastIndex (slice_to route idx) "@" = -1 ->
   forall cfg,
     parseRoute route = Ok cfg <-> parseRoute (slice_to route idx) = Ok cfg) /\
  parseRoute "example.com@" = parseRoute "example.com".
Proof.
  pose proof (splitProxy_trailing_at route idx Hat Hidx Hblank) as Hsp.
  split; [|split; [|split]].
  - intros addr why. unfold parseRoute, parseRemainder. rewrite Hsp.
    repeat case_match; congruence.
  - intros cfg. unfold parseRoute, parseRemainder. rewrite Hsp.
    repeat case_match; intros Hcfg; inversion Hcfg; reflexivity.
  - intros Hone cfg. unfold parseRoute. rewrite Hsp.
    unfold splitProxy. rewrite Hone. cbn [Z.eqb negb].
    apply parseRemainder_TrimSpace.
  - vm_compute. reflexivity.
Qed.

Lemma parseRoute_trailing_at_witness :
  parseRoute " a =:80 @ " = Ok (mkRouteConfig "a" "localhost:80" false "") /\
  parseRoute " a =:80 " = Ok (mkRouteConfig "a" "localhost:80" false "").
Proof.
  assert (H : parseRoute " a =:80 @ " = Ok (mkRouteConfig "a" "localhost:80" false ""))
    by (vm_compute; reflexivity).
  split; [exact H|].
  apply (proj1 (proj2 (proj2 (parseRoute_trailing_at " a =:80 @ " 8 eq_refl
                                ltac:(discriminate) eq_refl))) eq_refl).
  exact H.
Defined.

(* ===================================================================== *)
(** * Properties of the dialer factory *)
(* ===================================================================== *)

(** Calling a dial function opens a connection first of all. *)
Lemma Dial_connects E d network addr :
  exists ev evs, fst (Dial E d network addr) = ev :: evs /\ opens_connection ev = true.
Proof.
  revert network addr. induction d as [t | pnet paddr fwd IH]; intros network addr; simpl.
  - eauto.
  - destruct (IH pnet paddr) as (ev & evs & Hev & Ho).
    destruct (Dial E fwd pnet paddr) as [evs0 [pc|err]]; simpl in *; subst evs0; simpl; eauto.
Qed.

(** Every event of a call of a dial function is a connection attempt. *)
Lemma Dial_events E d network addr :
  Forall (fun ev => opens_connection ev = true) (fst (Dial E d network addr)).
Proof.
  revert network addr. induction d as [t | pnet paddr fwd IH]; intros network addr; simpl.
  - repeat constructor.
  - specialize (IH pnet paddr).
    destruct (Dial E fwd pnet paddr) as [evs0 [pc|err]]; simpl in *; [|exact IH].
    apply Forall_app. split; [exact IH | repeat constructor].
Qed.

(** C7. [createDialer] returns an error and no dial function whenever its
    proxy address is not empty and not syntactically [host:port]; with an
    empty proxy address it returns a direct TCP dial function; in no case
    does the call itself open a network connection: only calling the dial
    function it returned does. *)
Theorem createDialer_spec (E : Env) (socksAddr : string) (timeout : Z) :
  (socksAddr <> "" ->
   forall why, go_net.SplitHostPort socksAddr = inr why ->
   snd (createDialer E socksAddr timeout) = Err (ErrInvalidSocksProxy socksAddr why)) /\
  (snd (createDialer E "" timeout) = Ok (NetDialer timeout) /\
   forall addr,
     Dial E (NetDialer timeout) "tcp" addr
     = ([EvConnect "tcp" addr timeout], tcp_connect E "tcp" addr timeout)) /\
  Forall (fun ev => opens_connection ev = false) (fst (createDialer E socksAddr timeout)) /\
  (forall d, snd (createDialer E socksAddr timeout) = Ok d ->
   forall network addr,
     exists ev evs, fst (Dial E d network addr) = ev :: evs /\ opens_connection ev = true).
Proof.
  split; [|split; [|split]].
  - intros Hne why Hsplit. unfold createDialer. simpl.
    destruct (String.eqb_spec socksAddr "") as [|_]; [contradiction|].
    rewrite Hsplit. reflexivity.
  - split; [reflexivity|]. intros addr. reflexivity.
  - unfold createDialer. simpl. repeat constructor.
  - intros d _ network addr. apply Dial_connects.
Qed.

Lemma createDialer_spec_witness :
  snd (createDialer sampleEnv "proxy.local" (10 * Second))
  = Err (ErrInvalidSocksProxy "proxy.local" go_net.MissingPort).
Proof.
  apply (proj1 (createDialer_spec sampleEnv "proxy.local" (10 * Second)));
    [discriminate | vm_compute; reflexivity].
Defined.

(* ===================================================================== *)
(** * Properties of sockets and of reading the ClientHello *)
(* ===================================================================== *)

Section ReadFacts.

Lemma read_inbound_spec dl limit inb data err inb' :
  read_inbound dl limit inb = (data, err, inb') ->
  data ++ stream inb' = stream inb /\
  (length data <= limit)%nat /\
  (err = None -> (0 < limit)%nat -> data <> []) /\
  (err <> None -> data = []).
Proof.
  revert data err inb'. induction inb as [|a inb IH]; intros data err inb' H; simpl in H.
  - inversion H; subst. repeat split; simpl; auto; try lia; try discriminate.
  - destruct a as [bs | | e].
    + destruct bs as [|b bs].
      * simpl. apply IH. exact H.
      * destruct (Nat.leb_spec (length (b :: bs)) limit) as [Hle|Hgt];
          inversion H; subst; clear H.
        -- repeat split; simpl; auto. congruence.
        -- simpl stream. rewrite app_assoc, firstn_skipn.
           repeat split; auto.
           ++ rewrite length_firstn. lia.
           ++ intros _ Hl. destruct limit; [lia|]. simpl. discriminate.
           ++ congruence.
    + destruct dl.
      * inversion H; subst. repeat split; simpl; auto; try lia; try discriminate.
      * simpl. apply IH. exact H.
    + inversion H; subst. repeat split; simpl; auto; try lia; try discriminate.
Qed.

Lemma Read_spec c limit data err c' :
  Read c limit = (data, err, c') ->
  data ++ stream (inbound c') = stream (inbound c) /\
  (length data <= limit)%nat /\
  (err = None -> (0 < limit)%nat -> data <> []) /\
  (err <> None -> data = []) /\
  sent c' = sent c /\ closed c' = closed c /\ deadline c' = deadline c /\ quota c' = quota c.
Proof.
  unfold Read. intros H.
  destruct (closed c) eqn:Hc.
  { inversion H; subst. repeat split; simpl; auto; try lia; try discriminate. }
  destruct (Nat.eqb_spec limit 0) as [->|Hl].
  { inversion H; subst. repeat split; simpl; auto; try lia. }
  destruct (read_inbound (deadline c) limit (inbound c)) as [[d e] inb] eqn:Hr.
  inversion H; subst. apply read_inbound_spec in Hr.
  destruct Hr as (? & ? & ? & ?). repeat split; simpl; auto.
Qed.

Lemma Write_spec c p n err c' :
  Write c p = (n, err, c') ->
  (exists k, sent c' = sent c ++ firstn k p) /\
  (err = None -> n = length p /\ sent c' = sent c ++ p) /\
  inbound c' = inbound c /\ closed c' = closed c /\ deadline c' = deadline c /\
  (closed c = true -> sent c' = sent c).
Proof.
  unfold Write. intros H. destruct (closed c) eqn:Hc.
  { inversion H; subst. repeat split; auto; try discriminate.
    exists 0%nat. simpl. rewrite app_nil_r. reflexivity. }
  destruct (quota c) as [q|].
  - destruct (Nat.leb_spec (length p) q); inversion H; subst; simpl;
      repeat split; auto; try discriminate.
    + exists (length p). rewrite firstn_all. reflexivity.
    + eauto.
  - inversion H; subst; simpl. repeat split; auto; try discriminate.
    exists (length p). rewrite firstn_all. reflexivity.
Qed.

(** [io.CopyN] appends to the buffer the next bytes of the stream, all [n]
    of them unless it reports an error; it reads from the client socket
    under the deadline the socket has, and does nothing else. *)
Lemma copyN_spec rounds buf src n evs buf' src' err :
  copyN rounds buf src n = (evs, (buf', src', err)) ->
  (n <= rounds)%nat ->
  exists got,
    buf' = buf ++ got /\
    got ++ stream (inbound src') = stream (inbound src) /\
    (err = None -> length got = n) /\
    sent src' = sent src /\ closed src' = closed src /\ deadline src' = deadline src /\
    Forall (read_under (deadline src)) evs.
Proof.
  revert buf src n evs buf' src' err.
  induction rounds as [|rounds IH]; intros buf src n evs buf' src' err H Hn; simpl in H.
  - inversion H; subst. exists []. rewrite app_nil_r.
    repeat split; auto. intros _. simpl. lia.
  - destruct (Nat.eqb_spec n 0) as [->|Hnz].
    { inversion H; subst. exists []. rewrite app_nil_r. repeat split; auto. }
    destruct (Read src n) as [[data e] src1] eqn:Hr.
    pose proof (Read_spec _ _ _ _ _ Hr) as (Hs & Hlen & Hsome & Hnone & Hsent & Hcl & Hdl & _).
    destruct e as [e|].
    + inversion H; subst. exists data. repeat split; auto; try discriminate.
      repeat constructor. unfold read_under. eauto.
    + destruct (copyN rounds (buf ++ data) src1 (n - length data)) as [evs1 [[b1 s1] e1]] eqn:Hc.
      inversion H; subst. clear H.
      assert (Hd : data <> []) by (apply Hsome; [reflexivity | lia]).
      assert (0 < length data)%nat by (destruct data; [congruence | simpl; lia]).
      apply IH in Hc; [|lia].
      destruct Hc as (got & -> & Hs1 & Hl1 & Hsent1 & Hcl1 & Hdl1 & Hev1).
      exists (data ++ got). rewrite <- app_assoc. repeat split; auto; try congruence.
      * rewrite <- app_assoc, Hs1. exact Hs.
      * intros ->. rewrite length_app, Hl1 by reflexivity. lia.
      * constructor; [unfold read_under; eauto|]. rewrite <- Hdl. exact Hev1.
Qed.

Lemma CopyN_spec buf src n evs buf' src' err :
  CopyN buf src n = (evs, (buf', src', err)) ->
  exists got,
    buf' = buf ++ got /\
    got ++ stream (inbound src') = stream (inbound src) /\
    (err = None -> length got = n) /\
    sent src' = sent src /\ closed src' = closed src /\ deadline src' = deadline src /\
    Forall (read_under (deadline src)) evs.
Proof. intros H. eapply copyN_spec; [exact H | lia]. Qed.

Lemma read_under_quiet dl ev :
  read_under dl ev -> client_read ev = true /\ reaches_out ev = false.
Proof. intros (limit & data & err & ->). split; reflexivity. Qed.

(** Reading the ClientHello leaves what was sent, the deadline and the
    open socket as they are; when it does not fail, the buffer holds the
    first bytes of the client's stream: the five bytes of the header and
    the payload of the length the header declares. *)
Lemma readClientHello_spec conn evs buf conn' failed :
  readClientHello conn = (evs, (buf, conn', failed)) ->
  sent conn' = sent conn /\ closed conn' = closed conn /\ deadline conn' = deadline conn /\
  Forall (read_under (deadline conn)) evs /\
  (failed = None ->
   exists hdr payload,
     buf = hdr ++ payload /\
     length hdr = 5%nat /\
     length payload = N.to_nat (Uint16 (firstn 2 (skipn 3 hdr))) /\
     stream (inbound conn) = hdr ++ payload ++ stream (inbound conn')).
Proof.
  unfold readClientHello. intros H.
  destruct (CopyN [] conn 5) as [evs1 [[b1 c1] e1]] eqn:H1.
  apply CopyN_spec in H1. simpl in H1.
  destruct H1 as (hdr & -> & Hs1 & Hl1 & Hsent1 & Hcl1 & Hdl1 & Hev1).
  destruct e1 as [e1|].
  { inversion H; subst. repeat split; auto; try discriminate. }
  destruct (CopyN hdr c1 (N.to_nat (Uint16 (firstn 2 (skipn 3 hdr)))))
    as [evs2 [[b2 c2] e2]] eqn:H2.
  apply CopyN_spec in H2.
  destruct H2 as (payload & -> & Hs2 & Hl2 & Hsent2 & Hcl2 & Hdl2 & Hev2).
  assert (Hev : Forall (read_under (deadline conn)) (evs1 ++ evs2))
    by (apply Forall_app; split; [exact Hev1 | rewrite <- Hdl1; exact Hev2]).
  destruct e2 as [e2|]; inversion H; subst; clear H.
  { repeat split; auto; try congruence; try discriminate. }
  repeat split; auto; try congruence.
  intros _. exists hdr, payload. repeat split; auto.
  rewrite Hs2. symmetry. exact Hs1.
Qed.

(** A client that falls silent inside the record header runs into the
    deadline; a silence met with the deadline cleared is waited through. *)
Example hello_deadline_exceeded :
  handleConn sampleEnv (mkConn [Data [x16; x03]; Silence; Data [x01]] None false [] None)
             sampleTable
  = ([EvSetReadDeadline (Some (10 * Second));
      EvRead Client (Some (10 * Second)) 5 [x16; x03] None;
      EvRead Client (Some (10 * Second)) 3 [] (Some ErrDeadlineExceeded);
      EvLog (LogHeaderFailed ErrDeadlineExceeded); EvClose Client],
     Closed (mkConn [Silence; Data [x01]] (Some (10 * Second)) true [] None)) /\
  Read (mkConn [Silence; Data [x01]] None false [] None) 5
  = ([x01], None, mkConn [] None false [] None).
Proof. split; vm_compute; reflexivity. Qed.

End ReadFacts.

(* ===================================================================== *)
(** * Properties of the connection handler *)
(* ===================================================================== *)

(** C2. A connection whose SNI extraction fails or gives an empty
    hostname, or whose SNI has no entry in the route table, is logged and
    closed: the handler creates no dialer, dials no backend and sends no
    byte, to the client or to any backend. *)
Theorem handleConn_rejects (E : Env) (conn : Conn) (routes : RouteMap)
  (evs : list Event) (buf : list byte) (conn' : Conn)
  (Hhello : readClientHello (SetReadDeadline conn (Some (now E + 10 * Second)))
            = (evs, (buf, conn', None)))
  (Hreject : snd (ParseClientHello E buf) = false \/
             SNI (fst (ParseClientHello E buf)) = "" \/
             Lookup routes (SNI (fst (ParseClientHello E buf))) = None) :
  exists m,
    handleConn E conn routes
    = (EvSetReadDeadline (Some (now E + 10 * Second)) :: evs ++ [EvLog m; EvClose Client],
       Closed (Close conn')) /\
    (m = LogNoSNI \/ m = LogRejected (SNI (fst (ParseClientHello E buf)))) /\
    Forall (fun ev => reaches_out ev = false) (fst (handleConn E conn routes)) /\
    closed (Close conn') = true /\
    sent (Close conn') = sent conn.
Proof.
  pose proof (readClientHello_spec _ _ _ _ _ Hhello) as (Hsent & _ & _ & Hev & _).
  assert (Hquiet : forall m,
    Forall (fun ev => reaches_out ev = false)
      (EvSetReadDeadline (Some (now E + 10 * Second)) :: evs ++ [EvLog m; EvClose Client])).
  { intros m. constructor; [reflexivity|]. apply Forall_app. split.
    - eapply Forall_impl; [exact Hev|]. intros ev Hu. apply (read_under_quiet _ _ Hu).
    - repeat constructor. }
  assert (Hbail : forall m,
    bail ([EvSetReadDeadline (Some (now E + 10 * Second))] ++ evs) m conn'
    = (EvSetReadDeadline (Some (now E + 10 * Second)) :: evs ++ [EvLog m; EvClose Client],
       Closed (Close conn'))).
  { intros m. unfold bail. simpl. reflexivity. }
  unfold handleConn. rewrite Hhello.
  destruct (ParseClientHello E buf) as [ch ok]. simpl in Hreject.
  destruct (negb ok || String.eqb (SNI ch) "") eqn:Hsni.
  - exists LogNoSNI. rewrite Hbail. simpl. repeat split; auto.
  - apply orb_false_iff in Hsni. destruct Hsni as [Hok Hne].
    apply negb_false_iff in Hok. apply String.eqb_neq in Hne.
    destruct Hreject as [Hr | [Hr | Hr]]; [congruence | congruence |].
    rewrite Hr. exists (LogRejected (SNI ch)). rewrite Hbail. simpl.
    repeat split; auto.
Qed.

Lemma handleConn_rejects_witness :
  exists m,
    handleConn sampleEnv (sampleClient "unknown.test") sampleTable
    = (EvSetReadDeadline (Some (now sampleEnv + 10 * Second))
         :: fst (readClientHello
                   (SetReadDeadline (sampleClient "unknown.test")
                                    (Some (now sampleEnv + 10 * Second))))
         ++ [EvLog m; EvClose Client],
       Closed (mkConn [Data [x07; x08]] (Some (10 * Second)) true [] None)) /\
    m = LogRejected "unknown.test".
Proof.
  destruct (handleConn_rejects sampleEnv (sampleClient "unknown.test") sampleTable
              (fst (readClientHello
                      (SetReadDeadline (sampleClient "unknown.test")
                                       (Some (now sampleEnv + 10 * Second)))))
              (sni.enc_record (sampleHello "unknown.test"))
              (mkConn [Data [x07; x08]] (Some (10 * Second)) false [] None))
    as (m & Hrun & Hm & _).
  - vm_compute. reflexivity.
  - right. right. vm_compute. reflexivity.
  - exists m. split; [exact Hrun|].
    destruct Hm as [-> | ->]; [exfalso | vm_compute; reflexivity].
    vm_compute in Hrun. discriminate.
Defined.

Section RelayFacts.

(** A read through [prefixConn] takes the next bytes of the buffer
    followed by the client's stream, and leaves the socket as it is
    otherwise; it reads the socket under the deadline the socket has. *)
Lemma prefixRead_spec pr c limit evs data er pr' c' :
  prefixRead pr c limit = (evs, (data, er, pr', c')) ->
  data ++ buffered pr' ++ stream (inbound c') = buffered pr ++ stream (inbound c) /\
  sent c' = sent c /\ closed c' = closed c /\ deadline c' = deadline c /\
  (pr = PrDone \/ closed c = true -> inbound c' = inbound c) /\
  Forall (fun ev => ev = EvRead Client (deadline c) limit data er \/
                    exists d, ev = EvReplay d) evs.
Proof.
  assert (Hconn : forall evs data er pr' c',
    (let '(data, err, conn') := Read c limit in
     ([EvRead Client (deadline c) limit data err],
      (data, err, match err with Some EOF => PrDone | _ => PrConn end, conn')))
    = (evs, (data, er, pr', c')) ->
    data ++ buffered pr' ++ stream (inbound c') = stream (inbound c) /\
    sent c' = sent c /\ closed c' = closed c /\ deadline c' = deadline c /\
    (closed c = true -> inbound c' = inbound c) /\
    Forall (fun ev => ev = EvRead Client (deadline c) limit data er \/
                      exists d, ev = EvReplay d) evs).
  { clear. intros evs data er pr' c' H.
    destruct (Read c limit) as [[d e] c1] eqn:Hr.
    pose proof (Read_spec _ _ _ _ _ Hr) as (Hs & _ & _ & _ & Hsent & Hcl & Hdl & _).
    inversion H; subst; clear H.
    assert (Hb : buffered (match er with Some EOF => PrDone | _ => PrConn end) = [])
      by (destruct er as [[]|]; reflexivity).
    rewrite Hb. simpl. repeat split; auto.
    intros Hc. unfold Read in Hr. rewrite Hc in Hr. inversion Hr. reflexivity. }
  intros H. destruct pr as [[|b buf]| |]; simpl in H.
  - apply Hconn in H. destruct H as (? & ? & ? & ? & ? & ?).
    simpl. repeat split; auto. intros [?|?]; [discriminate | auto].
  - inversion H; subst; clear H. simpl buffered.
    rewrite !app_assoc, firstn_skipn. repeat split; auto.
    constructor; [right; eauto | constructor].
  - apply Hconn in H. destruct H as (? & ? & ? & ? & ? & ?).
    simpl. repeat split; auto. intros [?|?]; [discriminate | auto].
  - inversion H; subst; clear H. simpl. repeat split; auto.
Qed.

(** What a step of each goroutine changes. *)
Lemma step_up_spec r evs r' :
  step_up r = Some (evs, r') ->
  down r' = down r /\ handler r' = handler r /\ sni r' = sni r /\
  match up r with
  | Reading =>
      exists data er,
        prefixRead (reader r) (client r) copyBufSize
        = (evs, (data, er, reader r', client r')) /\
        backend r' = backend r /\ errCh r' = errCh r /\ up r' = copy_read data er
  | Writing chunk er =>
      exists nw ew,
        Write (backend r) chunk = (nw, ew, backend r') /\
        evs = [EvWrite Backend chunk nw ew] /\
        client r' = client r /\ reader r' = reader r /\ errCh r' = errCh r /\
        up r' = copy_write chunk er nw ew
  | Sending err =>
      (length (errCh r) < 2)%nat /\ evs = [EvSend err] /\
      errCh r' = errCh r ++ [err] /\ up r' = Exited /\
      client r' = client r /\ backend r' = backend r /\ reader r' = reader r
  | Exited => False
  end.
Proof.
  unfold step_up. intros H. destruct (up r) as [|chunk er|err|].
  - destruct (prefixRead (reader r) (client r) copyBufSize) as [evs0 [[[data er] pr] c]].
    inversion H; subst; simpl. repeat split; eauto 10.
  - destruct (Write (backend r) chunk) as [[nw ew] b].
    inversion H; subst; simpl. repeat split; eauto 10.
  - destruct (Nat.ltb_spec (length (errCh r)) 2); [|discriminate].
    inversion H; subst; simpl. repeat split; auto.
  - discriminate.
Qed.

Lemma step_down_spec r evs r' :
  step_down r = Some (evs, r') ->
  up r' = up r /\ handler r' = handler r /\ sni r' = sni r /\ reader r' = reader r /\
  match down r with
  | Reading =>
      exists data er,
        Read (backend r) copyBufSize = (data, er, backend r') /\
        evs = [EvRead Backend (deadline (backend r)) copyBufSize data er] /\
        client r' = client r /\ errCh r' = errCh r /\ down r' = copy_read data er
  | Writing chunk er =>
      exists nw ew,
        Write (client r) chunk = (nw, ew, client r') /\
        evs = [EvWrite Client chunk nw ew] /\
        backend r' = backend r /\ errCh r' = errCh r /\
        down r' = copy_write chunk er nw ew
  | Sending err =>
      (length (errCh r) < 2)%nat /\ evs = [EvSend err] /\
      errCh r' = errCh r ++ [err] /\ down r' = Exited /\
      client r' = client r /\ backend r' = backend r
  | Exited => False
  end.
Proof.
  unfold step_down. intros H. destruct (down r) as [|chunk er|err|].
  - destruct (Read (backend r) copyBufSize) as [[data er] b].
    inversion H; subst; simpl. repeat split; eauto 10.
  - destruct (Write (client r) chunk) as [[nw ew] c].
    inversion H; subst; simpl. repeat split; eauto 10.
  - destruct (Nat.ltb_spec (length (errCh r)) 2); [|discriminate].
    inversion H; subst; simpl. repeat split; auto.
  - discriminate.
Qed.

Lemma step_handler_spec r evs r' :
  step_handler r = Some (evs, r') ->
  up r' = up r /\ down r' = down r /\ sni r' = sni r /\ reader r' = reader r /\
  match handler r with
  | AwaitErr =>
      exists err, errCh r = err :: errCh r' /\
        evs = EvRecv err :: copy_log (sni r) err /\
        client r' = client r /\ backend r' = backend r /\ handler r' = CloseBackend
  | CloseBackend =>
      evs = [EvClose Backend] /\ errCh r' = errCh r /\
      client r' = client r /\ backend r' = Close (backend r) /\ handler r' = CloseClient
  | CloseClient =>
      evs = [EvClose Client] /\ errCh r' = errCh r /\
      client r' = Close (client r) /\ backend r' = backend r /\ handler r' = Returned
  | Returned => False
  end.
Proof.
  unfold step_handler. intros H. destruct (handler r).
  - destruct (errCh r) as [|err rest]; [discriminate|].
    inversion H; subst; simpl. repeat split; eauto 10.
  - inversion H; subst; simpl. repeat split; auto.
  - inversion H; subst; simpl. repeat split; auto.
  - discriminate.
Qed.

(** The client's read deadline stays cleared while the relay runs, and no
    read of the client socket is made under a deadline. *)
Lemma relay_deadline r0 evs r :
  relay_run r0 evs r ->
  deadline (client r0) = None ->
  deadline (client r) = None /\ Forall (fun ev => timed_read ev = false) evs.
Proof.
  intros Hrun H0. induction Hrun as [|evs r evs' r' Hrun [IHd IHe] Hstep].
  - split; [exact H0 | constructor].
  - assert (deadline (client r') = None /\ Forall (fun ev => timed_read ev = false) evs')
      as [Hd He]; [|split; [exact Hd | apply Forall_app; auto]].
    destruct Hstep as [Hs | Hs | Hs].
    + apply step_up_spec in Hs. destruct Hs as (_ & _ & _ & Hs).
      destruct (up r) as [|chunk er|err|].
      * destruct Hs as (data & er & Hp & _).
        apply prefixRead_spec in Hp. destruct Hp as (_ & _ & _ & Hdl & _ & Hev).
        split; [congruence|].
        eapply Forall_impl; [exact Hev|]. simpl.
        intros ev [-> | [d ->]]; [rewrite IHd|]; reflexivity.
      * destruct Hs as (nw & ew & _ & -> & -> & _). split; [exact IHd | repeat constructor].
      * destruct Hs as (_ & -> & _ & _ & -> & _). split; [exact IHd | repeat constructor].
      * destruct Hs.
    + apply step_down_spec in Hs. destruct Hs as (_ & _ & _ & _ & Hs).
      destruct (down r) as [|chunk er|err|].
      * destruct Hs as (data & er & _ & -> & -> & _). split; [exact IHd | repeat constructor].
      * destruct Hs as (nw & ew & Hw & -> & _).
        apply Write_spec in Hw. destruct Hw as (_ & _ & _ & _ & Hdl & _).
        split; [congruence | repeat constructor].
      * destruct Hs as (_ & -> & _ & _ & -> & _). split; [exact IHd | repeat constructor].
      * destruct Hs.
    + apply step_handler_spec in Hs. destruct Hs as (_ & _ & _ & _ & Hs).
      destruct (handler r).
      * destruct Hs as (err & _ & -> & -> & _). split; [exact IHd|].
        constructor; [reflexivity|]. unfold copy_log.
        destruct err as [e|]; [destruct (is_EOF e)|]; repeat constructor.
      * destruct Hs as (-> & _ & -> & _). split; [exact IHd | repeat constructor].
      * destruct Hs as (-> & _ & -> & _). split; [exact IHd | repeat constructor].
      * destruct Hs.
Qed.

End RelayFacts.

(** The course of [handleConn]: the deadline, the reads of the
    ClientHello, and after them no other read of the client.  A handler
    that starts the relay has a complete buffer; after its reads it logged
    the route, created the dialer, cleared the deadline and dialed, and
    nothing else. *)
Lemma handleConn_shape (E : Env) conn routes evs buf c1 failed :
  readClientHello (SetReadDeadline conn (Some (now E + 10 * Second)))
  = (evs, (buf, c1, failed)) ->
  exists rest,
    fst (handleConn E conn routes)
    = EvSetReadDeadline (Some (now E + 10 * Second)) :: evs ++ rest /\
    Forall (fun ev => client_read ev = false) rest /\
    match snd (handleConn E conn routes) with
    | Closed c => closed c = true /\ sent c = sent conn
    | Relaying r0 =>
        failed = None /\
        reader r0 = PrBuf buf /\ client r0 = SetReadDeadline c1 None /\
        up r0 = Reading /\ down r0 = Reading /\ errCh r0 = [] /\ handler r0 = AwaitErr /\
        exists l p d addr,
          rest = [EvLog l; EvCreateDialer p (10 * Second); EvSetReadDeadline None]
                 ++ fst (Dial E d "tcp" addr) /\
          snd (Dial E d "tcp" addr) = inl (backend r0)
    end.
Proof.
  intros Hhello.
  pose proof (readClientHello_spec _ _ _ _ _ Hhello) as (Hsent & _ & _ & _ & _).
  simpl in Hsent.
  set (P := fun (rest : list Event) (out : Outcome) =>
    match out with
    | Closed c => closed c = true /\ sent c = sent conn
    | Relaying r0 =>
        failed = None /\
        reader r0 = PrBuf buf /\ client r0 = SetReadDeadline c1 None /\
        up r0 = Reading /\ down r0 = Reading /\ errCh r0 = [] /\ handler r0 = AwaitErr /\
        exists l p d addr,
          rest = [EvLog l; EvCreateDialer p (10 * Second); EvSetReadDeadline None]
                 ++ fst (Dial E d "tcp" addr) /\
          snd (Dial E d "tcp" addr) = inl (backend r0)
    end).
  set (ev0 := EvSetReadDeadline (Some (now E + 10 * Second))).
  change (exists rest,
            fst (handleConn E conn routes) = ev0 :: evs ++ rest /\
            Forall (fun ev => client_read ev = false) rest /\
            P rest (snd (handleConn E conn routes))).
  assert (Hbail : forall pre m,
    Forall (fun ev => client_read ev = false) pre ->
    exists rest,
      fst (bail ([ev0] ++ evs ++ pre) m c1) = ev0 :: evs ++ rest /\
      Forall (fun ev => client_read ev = false) rest /\
      P rest (snd (bail ([ev0] ++ evs ++ pre) m c1))).
  { intros pre m Hpre. exists (pre ++ [EvLog m; EvClose Client]). simpl.
    rewrite <- app_assoc. repeat split; auto.
    apply Forall_app. split; [exact Hpre | repeat constructor]. }
  assert (Hbail0 : forall m,
    exists rest,
      fst (bail ([ev0] ++ evs) m c1) = ev0 :: evs ++ rest /\
      Forall (fun ev => client_read ev = false) rest /\
      P rest (snd (bail ([ev0] ++ evs) m c1))).
  { intros m. specialize (Hbail [] m ltac:(constructor)).
    rewrite app_nil_r in Hbail. exact Hbail. }
  unfold handleConn. fold ev0. rewrite Hhello.
  destruct failed as [m|]; [apply Hbail0|].
  destruct (ParseClientHello E buf) as [ch ok].
  destruct (negb ok || String.eqb (SNI ch) ""); [apply Hbail0|].
  destruct (Lookup routes (SNI ch)) as [cfg|]; [|apply Hbail0].
  destruct (if Passthrough cfg then ((SNI ch ++ ":443")%string, "passthrough")
            else (Target cfg, "routed")) as [backend routeType].
  destruct (createDialer E (ProxyAddr cfg) (10 * Second)) as [evd dialer] eqn:Hcd.
  assert (evd = [EvCreateDialer (ProxyAddr cfg) (10 * Second)]) as ->
    by (unfold createDialer in Hcd; inversion Hcd; reflexivity).
  destruct dialer as [dialer|err].
  2:{ apply (Hbail ([EvLog (LogRoute (SNI ch) backend routeType)]
                    ++ [EvCreateDialer (ProxyAddr cfg) (10 * Second)])).
      repeat constructor. }
  pose proof (Dial_events E dialer "tcp" backend) as Hev.
  assert (Hquiet : Forall (fun ev => client_read ev = false)
                     ([EvLog (LogRoute (SNI ch) backend routeType)]
                      ++ [EvCreateDialer (ProxyAddr cfg) (10 * Second)]
                      ++ [EvSetReadDeadline None] ++ fst (Dial E dialer "tcp" backend))).
  { repeat (constructor; [reflexivity|]).
    eapply Forall_impl; [exact Hev|]. intros [] Ho; simpl in *; congruence. }
  destruct (Dial E dialer "tcp" backend) as [evc [bc|err]] eqn:Hdial; simpl in Hquiet.
  - exists ([EvLog (LogRoute (SNI ch) backend routeType);
             EvCreateDialer (ProxyAddr cfg) (10 * Second); EvSetReadDeadline None] ++ evc).
    unfold P. simpl. repeat split; auto.
    exists (LogRoute (SNI ch) backend routeType), (ProxyAddr cfg), dialer, backend.
    rewrite Hdial. split; reflexivity.
  - apply (Hbail ([EvLog (LogRoute (SNI ch) backend routeType)]
                     ++ [EvCreateDialer (ProxyAddr cfg) (10 * Second)]
                     ++ [EvSetReadDeadline None] ++ evc)
                    (LogConnectFailed backend err)). exact Hquiet.
Qed.

(** C8, as stated, fails: a connection whose ClientHello is complete and
    whose SNI has no route is closed with the deadline never cleared. *)
Lemma read_deadline_counterexample :
  snd (snd (readClientHello
              (SetReadDeadline (sampleClient "unknown.test")
                               (Some (now sampleEnv + 10 * Second)))))
  = None /\
  ~ In (EvSetReadDeadline None)
       (fst (handleConn sampleEnv (sampleClient "unknown.test") sampleTable)) /\
  snd (handleConn sampleEnv (sampleClient "unknown.test") sampleTable)
  = Closed (mkConn [Data [x07; x08]] (Some (10 * Second)) true [] None).
Proof.
  split; [vm_compute; reflexivity|]. split; [|vm_compute; reflexivity].
  intros H. vm_compute in H.
  repeat (destruct H as [H|H]; [discriminate|]). exact H.
Qed.

(** How [handleConn] ends without a relay.  Either it returned before
    line 250: the ClientHello was not read, no SNI was found, the SNI has
    no route, or the dialer could not be created; then the deadline is
    the one set at acceptance and is never cleared.  Or the dialer was
    created, the deadline cleared, and the dial failed. *)
Lemma handleConn_closed (E : Env) conn routes evs buf c1 failed c :
  readClientHello (SetReadDeadline conn (Some (now E + 10 * Second)))
  = (evs, (buf, c1, failed)) ->
  snd (handleConn E conn routes) = Closed c ->
  (deadline c = Some (now E + 10 * Second) /\
   ~ In (EvSetReadDeadline None) (fst (handleConn E conn routes)) /\
   Forall (fun ev => opens_connection ev = false) (fst (handleConn E conn routes)) /\
   (failed <> None \/
    snd (ParseClientHello E buf) = false \/
    SNI (fst (ParseClientHello E buf)) = "" \/
    Lookup routes (SNI (fst (ParseClientHello E buf))) = None \/
    exists cfg err,
      Lookup routes (SNI (fst (ParseClientHello E buf))) = Some cfg /\
      snd (createDialer E (ProxyAddr cfg) (10 * Second)) = Err err)) \/
  (deadline c = None /\ failed = None /\
   snd (ParseClientHello E buf) = true /\
   SNI (fst (ParseClientHello E buf)) <> "" /\
   exists l cfg d addr err,
     Lookup routes (SNI (fst (ParseClientHello E buf))) = Some cfg /\
     snd (createDialer E (ProxyAddr cfg) (10 * Second)) = Ok d /\
     snd (Dial E d "tcp" addr) = inr err /\
     fst (handleConn E conn routes)
     = EvSetReadDeadline (Some (now E + 10 * Second)) :: evs ++
       [EvLog l; EvCreateDialer (ProxyAddr cfg) (10 * Second); EvSetReadDeadline None]
       ++ fst (Dial E d "tcp" addr)
       ++ [EvLog (LogConnectFailed addr err); EvClose Client]).
Proof.
  intros Hhello.
  pose proof (readClientHello_spec _ _ _ _ _ Hhello) as (_ & _ & Hdl & Hunder & _).
  cbn [SetReadDeadline deadline] in Hdl, Hunder.
  set (t := now E + 10 * Second) in *.
  assert (Hevs : ~ In (EvSetReadDeadline None) evs /\
                 Forall (fun ev => opens_connection ev = false) evs).
  { split.
    - intros Hin. rewrite List.Forall_forall in Hunder.
      destruct (Hunder _ Hin) as (limit & data & err & Heq). discriminate.
    - eapply List.Forall_impl; [|exact Hunder].
      intros ev (limit & data & err & ->). reflexivity. }
  destruct Hevs as [Hnone Hquiet].
  assert (Hbail : forall pre m,
    ~ In (EvSetReadDeadline None) pre ->
    Forall (fun ev => opens_connection ev = false) pre ->
    snd (bail ([EvSetReadDeadline (Some t)] ++ evs ++ pre) m c1) = Closed c ->
    deadline c = Some t /\
    ~ In (EvSetReadDeadline None)
         (fst (bail ([EvSetReadDeadline (Some t)] ++ evs ++ pre) m c1)) /\
    Forall (fun ev => opens_connection ev = false)
           (fst (bail ([EvSetReadDeadline (Some t)] ++ evs ++ pre) m c1))).
  { intros pre m Hpre Hpq Hc. unfold bail in *. cbn [fst snd] in *.
    inversion Hc; subst c. split; [exact Hdl|]. split.
    - intros H. rewrite !in_app_iff in H. cbn [In] in H.
      decompose [or] H; try discriminate; auto.
    - rewrite !Forall_app. repeat split; auto; repeat constructor. }
  assert (Hbail0 : forall m,
    snd (bail ([EvSetReadDeadline (Some t)] ++ evs) m c1) = Closed c ->
    deadline c = Some t /\
    ~ In (EvSetReadDeadline None)
         (fst (bail ([EvSetReadDeadline (Some t)] ++ evs) m c1)) /\
    Forall (fun ev => opens_connection ev = false)
           (fst (bail ([EvSetReadDeadline (Some t)] ++ evs) m c1))).
  { intros m Hc. specialize (Hbail [] m ltac:(intros []) ltac:(constructor)).
    rewrite app_nil_r in Hbail. exact (Hbail Hc). }
  unfold handleConn. fold t. rewrite Hhello.
  destruct failed as [m|].
  { intros Hc. left. destruct (Hbail0 _ Hc) as (H1 & H2 & H3).
    split; [exact H1|]. split; [exact H2|]. split; [exact H3|]. left. discriminate. }
  destruct (ParseClientHello E buf) as [ch ok]. cbn [fst snd].
  destruct ok; cbn [negb orb].
  2:{ intros Hc. left. destruct (Hbail0 _ Hc) as (H1 & H2 & H3).
      split; [exact H1|]. split; [exact H2|]. split; [exact H3|]. right. left. reflexivity. }
  destruct (String.eqb_spec (SNI ch) "") as [Hempty|Hname].
  { intros Hc. left. destruct (Hbail0 _ Hc) as (H1 & H2 & H3).
    split; [exact H1|]. split; [exact H2|]. split; [exact H3|].
    right. right. left. exact Hempty. }
  destruct (Lookup routes (SNI ch)) as [cfg|].
  2:{ intros Hc. left. destruct (Hbail0 _ Hc) as (H1 & H2 & H3).
      split; [exact H1|]. split; [exact H2|]. split; [exact H3|].
      right. right. right. left. reflexivity. }
  destruct (if Passthrough cfg then ((SNI ch ++ ":443")%string, "passthrough")
            else (Target cfg, "routed")) as [backend routeType].
  destruct (createDialer E (ProxyAddr cfg) (10 * Second)) as [evd dialer] eqn:Hcd.
  assert (evd = [EvCreateDialer (ProxyAddr cfg) (10 * Second)]) as ->
    by (unfold createDialer in Hcd; inversion Hcd; reflexivity).
  cbn [snd]. destruct dialer as [dialer|err].
  2:{ intros Hc. left.
      destruct (Hbail ([EvLog (LogRoute (SNI ch) backend routeType)]
                       ++ [EvCreateDialer (ProxyAddr cfg) (10 * Second)])
                      _ ltac:(cbn; intros [H|[H|[]]]; discriminate)
                      ltac:(repeat constructor) Hc) as (H1 & H2 & H3).
      split; [exact H1|]. split; [exact H2|]. split; [exact H3|].
      right. right. right. right. exists cfg, err.
      split; [reflexivity | rewrite Hcd; reflexivity]. }
  destruct (Dial E dialer "tcp" backend) as [evc [bc|err]] eqn:Hdial; [discriminate|].
  intros Hc. right. unfold bail in *. cbn [fst snd] in *. inversion Hc; subst c.
  split; [reflexivity|]. split; [reflexivity|]. split; [reflexivity|].
  split; [exact Hname|].
  exists (LogRoute (SNI ch) backend routeType), cfg, dialer, backend, err.
  rewrite Hdial, Hcd. cbn [fst snd]. repeat split.
  cbn [app]. rewrite <- !app_assoc. reflexivity.
Qed.

(** C8, amended.  For every accepted connection a 10-second read deadline
    is set at acceptance, before the first read, and the reads that fill
    the ClientHello buffer are made under it.  On a connection that passes
    SNI extraction, route lookup and dialer creation the deadline is
    cleared right after the dialer is created and before the backend is
    dialed, whether the dial then succeeds or fails.  A connection that is
    rejected before that, because its ClientHello could not be read, no
    SNI was found, the SNI has no route or the dialer could not be
    created, is closed with the deadline still set and never cleared, and
    nothing was dialed.  After the reads that fill the buffer the handler
    itself reads the client no more, and no read of the relay is made
    under a deadline. *)
Theorem read_deadline (E : Env) (conn : Conn) (routes : RouteMap) :
  let t := now E + 10 * Second in
  let hello := readClientHello (SetReadDeadline conn (Some t)) in
  let ch := fst (ParseClientHello E (fst (fst (snd hello)))) in
  let found := snd (ParseClientHello E (fst (fst (snd hello)))) in
  exists rest,
    fst (handleConn E conn routes) = EvSetReadDeadline (Some t) :: fst hello ++ rest /\
    Forall (read_under (Some t)) (fst hello) /\
    Forall (fun ev => client_read ev = false) rest /\
    match snd (handleConn E conn routes) with
    | Closed c =>
        (deadline c = Some t /\
         ~ In (EvSetReadDeadline None) (fst (handleConn E conn routes)) /\
         Forall (fun ev => opens_connection ev = false) (fst (handleConn E conn routes)) /\
         (snd (snd hello) <> None \/ found = false \/ SNI ch = "" \/
          Lookup routes (SNI ch) = None \/
          exists cfg err,
            Lookup routes (SNI ch) = Some cfg /\
            snd (createDialer E (ProxyAddr cfg) (10 * Second)) = Err err)) \/
        (deadline c = None /\
         snd (snd hello) = None /\ found = true /\ SNI ch <> "" /\
         exists l cfg d addr err,
           Lookup routes (SNI ch) = Some cfg /\
           snd (createDialer E (ProxyAddr cfg) (10 * Second)) = Ok d /\
           snd (Dial E d "tcp" addr) = inr err /\
           rest = [EvLog l; EvCreateDialer (ProxyAddr cfg) (10 * Second);
                   EvSetReadDeadline None]
                  ++ fst (Dial E d "tcp" addr)
                  ++ [EvLog (LogConnectFailed addr err); EvClose Client])
    | Relaying r0 =>
        snd (snd hello) = None /\
        (exists l p d addr,
           rest = [EvLog l; EvCreateDialer p (10 * Second); EvSetReadDeadline None]
                  ++ fst (Dial E d "tcp" addr)) /\
        deadline (client r0) = None /\
        forall evs r,
          relay_run r0 evs r ->
          deadline (client r) = None /\ Forall (fun ev => timed_read ev = false) evs
    end.
Proof.
  intros t hello.
  destruct hello as [evs [[buf c1] failed]] eqn:Hhello. subst hello. cbn [fst snd].
  destruct (handleConn_shape E conn routes _ _ _ _ Hhello) as (rest & Hfst & Hrest & Hout).
  pose proof (readClientHello_spec _ _ _ _ _ Hhello) as (_ & _ & _ & Hunder & _).
  exists rest. split; [exact Hfst|]. split; [exact Hunder|]. split; [exact Hrest|].
  destruct (snd (handleConn E conn routes)) as [c|r0] eqn:Hsnd.
  - destruct (handleConn_closed E conn routes _ _ _ _ c Hhello Hsnd)
      as [Hkept | (Hd & Hf & Hok & Hname & l & cfg & d & addr & err & Hlk & Hcd & Hdial & Htr)].
    + left. exact Hkept.
    + right. split; [exact Hd|]. split; [exact Hf|]. split; [exact Hok|].
      split; [exact Hname|].
      exists l, cfg, d, addr, err. repeat split; try assumption.
      fold t in Htr. rewrite Hfst in Htr. inversion Htr as [Happ].
      apply app_inv_head in Happ. exact Happ.
  - destruct Hout as (-> & _ & Hc & _ & _ & _ & _ & (l & p & d & addr & -> & _)).
    assert (Hd : deadline (client r0) = None) by (rewrite Hc; reflexivity).
    split; [reflexivity|]. split; [eauto|]. split; [exact Hd|].
    intros evs' r Hrun. apply (relay_deadline _ _ _ Hrun Hd).
Qed.

Lemma read_deadline_witness :
  exists evs r,
    relay_run sampleRelay evs r /\
    evs = [EvReplay (sni.enc_record (sampleHello "b"))] /\
    deadline (client r) = None /\ Forall (fun ev => timed_read ev = false) evs.
Proof.
  pose proof (read_deadline sampleEnv (sampleClient "b") sampleTable) as H.
  cbv zeta in H. destruct H as (rest & _ & _ & _ & H).
  assert (Hout : snd (handleConn sampleEnv (sampleClient "b") sampleTable)
                 = Relaying sampleRelay) by (vm_compute; reflexivity).
  rewrite Hout in H. destruct H as (_ & _ & _ & H).
  assert (Hrun : exists r, relay_run sampleRelay
                   ([] ++ [EvReplay (sni.enc_record (sampleHello "b"))]) r).
  { eexists. eapply run_step; [apply run_start|].
    apply step_of_up. vm_compute. reflexivity. }
  destruct Hrun as [r Hrun]. simpl in Hrun.
  exists [EvReplay (sni.enc_record (sampleHello "b"))], r.
  split; [exact Hrun|]. split; [reflexivity|]. exact (H _ _ Hrun).
Defined.

Section ReplayFacts.

(** What the backend has received is, at every point of a run of the
    relay, the start of the buffered bytes followed by the client's
    stream; while the copy towards the backend is under way, the bytes it
    holds, the rest of the buffer and the rest of the stream are what
    follows. *)
Lemma relay_replay r0 evs r :
  relay_run r0 evs r ->
  up r0 = Reading ->
  exists delivered,
    sent (backend r) = sent (backend r0) ++ delivered /\
    match up r with
    | Reading =>
        delivered ++ buffered (reader r) ++ stream (inbound (client r))
        = buffered (reader r0) ++ stream (inbound (client r0))
    | Writing chunk _ =>
        delivered ++ chunk ++ buffered (reader r) ++ stream (inbound (client r))
        = buffered (reader r0) ++ stream (inbound (client r0))
    | _ => delivered `prefix_of` buffered (reader r0) ++ stream (inbound (client r0))
    end.
Proof.
  intros Hrun H0. induction Hrun as [|evs r evs' r' Hrun IH Hstep].
  - exists []. rewrite app_nil_r, H0. split; reflexivity.
  - destruct IH as (delivered & Hsent & Hinv).
    set (total := buffered (reader r0) ++ stream (inbound (client r0))) in *.
    assert (Hafter : forall er d,
      d ++ buffered (reader r') ++ stream (inbound (client r')) = total ->
      match after_read er with
      | Reading => d ++ buffered (reader r') ++ stream (inbound (client r')) = total
      | Writing chunk _ =>
          d ++ chunk ++ buffered (reader r') ++ stream (inbound (client r')) = total
      | _ => d `prefix_of` total
      end).
    { intros er d Hd. destruct er as [e|]; simpl; [|exact Hd]. eexists. symmetry. exact Hd. }
    destruct Hstep as [Hs | Hs | Hs].
    + apply step_up_spec in Hs. destruct Hs as (_ & _ & _ & Hs).
      destruct (up r) as [|chunk er|err|].
      * destruct Hs as (data & er & Hp & Hb & _ & Hup).
        apply prefixRead_spec in Hp. destruct Hp as (Hp & _).
        exists delivered. rewrite Hb, Hup. split; [exact Hsent|].
        rewrite <- Hp in Hinv.
        destruct data as [|b data]; simpl copy_read; [apply Hafter|]; exact Hinv.
      * destruct Hs as (nw & ew & Hw & _ & Hc & Hr & _ & Hup).
        apply Write_spec in Hw. destruct Hw as ([k Hk] & Hok & _).
        rewrite Hup, Hc, Hr. unfold copy_write. destruct ew as [e|].
        -- exists (delivered ++ firstn k chunk). rewrite Hk, Hsent, app_assoc.
           split; [reflexivity|].
           exists (skipn k chunk ++ buffered (reader r) ++ stream (inbound (client r))).
           rewrite <- Hinv, <- !app_assoc. f_equal.
           rewrite (app_assoc (firstn k chunk)), firstn_skipn. reflexivity.
        -- destruct (Hok eq_refl) as [-> Hall]. rewrite Nat.eqb_refl.
           exists (delivered ++ chunk). rewrite Hall, Hsent, app_assoc.
           split; [reflexivity|].
           rewrite <- Hc, <- Hr. apply Hafter. rewrite Hc, Hr, <- app_assoc. exact Hinv.
      * destruct Hs as (_ & _ & _ & Hup & _ & Hb & _).
        exists delivered. rewrite Hb, Hup. split; [exact Hsent | exact Hinv].
      * destruct Hs.
    + apply step_down_spec in Hs. destruct Hs as (Hup & _ & _ & Hrd & Hs).
      exists delivered. rewrite Hup, Hrd.
      destruct (down r) as [|chunk er|err|].
      * destruct Hs as (data & er & Hread & _ & Hc & _).
        apply Read_spec in Hread. destruct Hread as (_ & _ & _ & _ & Hsb & _).
        rewrite Hsb, Hc. split; [exact Hsent | exact Hinv].
      * destruct Hs as (nw & ew & Hw & _ & Hb & _).
        apply Write_spec in Hw. destruct Hw as (_ & _ & Hin & _).
        rewrite Hb, Hin. split; [exact Hsent | exact Hinv].
      * destruct Hs as (_ & _ & _ & _ & Hc & Hb).
        rewrite Hb, Hc. split; [exact Hsent | exact Hinv].
      * destruct Hs.
    + apply step_handler_spec in Hs. destruct Hs as (Hup & _ & _ & Hrd & Hs).
      exists delivered. rewrite Hup, Hrd.
      destruct (handler r).
      * destruct Hs as (err & _ & _ & Hc & Hb & _).
        rewrite Hb, Hc. split; [exact Hsent | exact Hinv].
      * destruct Hs as (_ & _ & Hc & Hb & _).
        rewrite Hb, Hc. split; [exact Hsent | exact Hinv].
      * destruct Hs as (_ & _ & Hc & Hb & _).
        rewrite Hb, Hc. split; [exact Hsent | exact Hinv].
      * destruct Hs.
Qed.

(** In every state of the copy, what was delivered starts the total. *)
Lemma relay_replay_prefix r0 evs r :
  relay_run r0 evs r ->
  up r0 = Reading ->
  exists delivered,
    sent (backend r) = sent (backend r0) ++ delivered /\
    delivered `prefix_of` buffered (reader r0) ++ stream (inbound (client r0)).
Proof.
  intros Hrun H0. destruct (relay_replay _ _ _ Hrun H0) as (delivered & Hsent & Hinv).
  exists delivered. split; [exact Hsent|].
  destruct (up r); [| |exact Hinv|exact Hinv]; eexists; symmetry; exact Hinv.
Qed.

Lemma relay_run_trans r0 evs r evs' r' :
  relay_run r0 evs r -> relay_run r evs' r' -> relay_run r0 (evs ++ evs') r'.
Proof.
  intros H1 H2. induction H2 as [|evs1 r1 evs2 r2 _ IH Hstep].
  - rewrite app_nil_r. exact H1.
  - rewrite app_assoc. eapply run_step; eassumption.
Qed.

Lemma copyBufSize_pos : exists k, copyBufSize = S k.
Proof. exists (copyBufSize - 1)%nat. unfold copyBufSize. lia. Qed.

(** A backend that is open and takes every byte gets the whole buffer by
    the steps of the copy towards it alone, in rounds of a read from the
    buffer and a write, and before any read of the client socket. *)
Lemma replay_progress n buf r :
  (length buf <= n)%nat ->
  up r = Reading -> reader r = PrBuf buf ->
  closed (backend r) = false -> quota (backend r) = None ->
  exists evs r',
    relay_run r evs r' /\
    up r' = Reading /\ reader r' = PrBuf [] /\
    sent (backend r') = sent (backend r) ++ buf /\
    client r' = client r /\
    Forall (fun ev => client_read ev = false) evs.
Proof.
  revert buf r. induction n as [|n IH]; intros buf r Hlen Hup Hrd Hcl Hq.
  - destruct buf; [|simpl in Hlen; lia].
    exists [], r. rewrite app_nil_r. repeat split; auto. constructor.
  - destruct buf as [|b rest].
    { exists [], r. rewrite app_nil_r. repeat split; auto. constructor. }
    destruct copyBufSize_pos as [k Hk].
    set (data := firstn copyBufSize (b :: rest)).
    set (r1 := with_up r (client r) (PrBuf (skipn copyBufSize (b :: rest)))
                       (backend r) (errCh r) (Writing data None)).
    assert (Hs1 : step_up r = Some ([EvReplay data], r1)).
    { unfold step_up. rewrite Hup, Hrd. cbn [prefixRead]. unfold r1, data.
      rewrite Hk. reflexivity. }
    set (b1 := mkConn (inbound (backend r)) (deadline (backend r)) false
                      (sent (backend r) ++ data) None).
    set (r2 := with_up r1 (client r1) (reader r1) b1 (errCh r1) Reading).
    assert (Hs2 : step_up r1 = Some ([EvWrite Backend data (length data) None], r2)).
    { unfold step_up. cbn [up r1 with_up backend]. unfold Write. rewrite Hcl, Hq.
      unfold copy_write. rewrite Nat.eqb_refl. reflexivity. }
    destruct (IH (skipn copyBufSize (b :: rest)) r2) as (evs & r' & Hrun & Hup' & Hrd' & Hsent & Hc & Hev).
    + rewrite Hk. cbn [skipn]. rewrite length_skipn. simpl in Hlen. lia.
    + reflexivity.
    + reflexivity.
    + reflexivity.
    + reflexivity.
    + exists (([] ++ [EvReplay data]) ++ [EvWrite Backend data (length data) None] ++ evs), r'.
      split; [|repeat split; auto].
      * rewrite app_assoc. eapply relay_run_trans; [|exact Hrun].
        eapply run_step; [eapply run_step; [apply run_start|]|].
        -- apply step_of_up. exact Hs1.
        -- apply step_of_up. exact Hs2.
      * rewrite Hsent. cbn [r2 with_up backend b1 sent]. unfold data.
        rewrite <- app_assoc, firstn_skipn. reflexivity.
      * repeat (constructor; [reflexivity|]). exact Hev.
Qed.

(** The copy towards the backend on the sample relay: the record from the
    buffer, then the two bytes that arrive on the socket. *)
Example relay_upstream :
  exists evs r,
    relay_run sampleRelay evs r /\
    sent (backend r) = sni.enc_record (sampleHello "b") ++ [x07; x08] /\
    up r = Reading /\ reader r = PrConn.
Proof.
  do 2 eexists. split.
  - eapply run_step;
      [eapply run_step;
        [eapply run_step; [eapply run_step; [apply run_start|]|]|]|];
      apply step_of_up; reflexivity.
  - repeat split; reflexivity.
Qed.

End ReplayFacts.

(** C1. On every connection that reaches the relay, the buffer holds the
    five bytes of the record header and the payload of the length the
    header declares, the first bytes the client sent; at every point of
    the relay the bytes the backend has received are the start of these
    buffered bytes, in their order, followed by the bytes that arrive on
    the client socket after them; and a backend that is open and takes
    what is written gets the whole buffer before the client socket is read
    again: the backend receives the buffered bytes before any byte relayed
    from the socket. *)
Theorem replay_before_relay (E : Env) (conn : Conn) (routes : RouteMap)
  (tr : list Event) (r0 : Relay)
  (Hrelay : handleConn E conn routes = (tr, Relaying r0)) :
  exists hdr payload,
    length hdr = 5%nat /\
    length payload = N.to_nat (Uint16 (firstn 2 (skipn 3 hdr))) /\
    reader r0 = PrBuf (hdr ++ payload) /\
    stream (inbound conn) = (hdr ++ payload) ++ stream (inbound (client r0)) /\
    (forall evs r,
       relay_run r0 evs r ->
       exists delivered,
         sent (backend r) = sent (backend r0) ++ delivered /\
         delivered `prefix_of` (hdr ++ payload) ++ stream (inbound (client r0)) /\
         ((length (hdr ++ payload) <= length delivered)%nat ->
          firstn (length (hdr ++ payload)) delivered = hdr ++ payload)) /\
    (closed (backend r0) = false -> quota (backend r0) = None ->
     exists evs r,
       relay_run r0 evs r /\
       sent (backend r) = sent (backend r0) ++ hdr ++ payload /\
       client r = client r0 /\
       Forall (fun ev => client_read ev = false) evs).
Proof.
  destruct (readClientHello (SetReadDeadline conn (Some (now E + 10 * Second))))
    as [evs0 [[buf c1] failed]] eqn:Hhello.
  destruct (handleConn_shape E conn routes _ _ _ _ Hhello) as (rest & _ & _ & Hout).
  rewrite Hrelay in Hout. simpl in Hout.
  destruct Hout as (-> & Hrd & Hc & Hup & _).
  pose proof (readClientHello_spec _ _ _ _ _ Hhello) as (_ & _ & _ & _ & Hbuf).
  destruct (Hbuf eq_refl) as (hdr & payload & -> & Hh & Hp & Hs). simpl in Hs.
  exists hdr, payload.
  split; [exact Hh|]. split; [exact Hp|]. split; [exact Hrd|].
  split; [|split].
  - rewrite Hc. simpl. rewrite <- app_assoc. exact Hs.
  - intros evs r Hrun.
    destruct (relay_replay_prefix _ _ _ Hrun Hup) as (delivered & Hsent & Hpre).
    rewrite Hrd in Hpre. simpl in Hpre.
    exists delivered. repeat split; auto.
    intros Hlen. destruct Hpre as [k Hk].
    apply (f_equal (firstn (length (hdr ++ payload)))) in Hk.
    rewrite firstn_app, firstn_all, Nat.sub_diag in Hk. simpl in Hk. rewrite app_nil_r in Hk.
    rewrite firstn_app in Hk.
    replace (length (hdr ++ payload) - length delivered)%nat with 0%nat in Hk by lia.
    simpl in Hk. rewrite app_nil_r in Hk. symmetry. exact Hk.
  - intros Hcl Hq.
    destruct (replay_progress _ _ r0 (Nat.le_refl _) Hup Hrd Hcl Hq)
      as (evs & r & Hrun & _ & _ & Hsent & Hcr & Hev).
    exists evs, r. auto.
Qed.

Lemma replay_before_relay_witness :
  exists hdr payload,
    length hdr = 5%nat /\
    length payload = N.to_nat (Uint16 (firstn 2 (skipn 3 hdr))) /\
    reader sampleRelay = PrBuf (hdr ++ payload) /\
    stream (inbound (sampleClient "b")) = (hdr ++ payload) ++ [x07; x08] /\
    exists evs r,
      relay_run sampleRelay evs r /\
      sent (backend r) = hdr ++ payload /\
      Forall (fun ev => client_read ev = false) evs.
Proof.
  destruct (replay_before_relay sampleEnv (sampleClient "b") sampleTable
              (fst (handleConn sampleEnv (sampleClient "b") sampleTable)) sampleRelay)
    as (hdr & payload & H1 & H2 & H3 & H4 & _ & H6).
  - vm_compute. reflexivity.
  - exists hdr, payload. repeat split; try assumption.
    destruct (H6 eq_refl eq_refl) as (evs & r & Hrun & Hsent & _ & Hev).
    exists evs, r. repeat split; assumption.
Defined.

Section TeardownFacts.

Lemma ended_after_read er : ended (after_read er) = 0%nat.
Proof. destruct er; reflexivity. Qed.

Lemma ended_copy_read data er : ended (copy_read data er) = 0%nat.
Proof. destruct data; [apply ended_after_read | reflexivity]. Qed.

Lemma ended_copy_write chunk er nw ew : ended (copy_write chunk er nw ew) = 0%nat.
Proof.
  unfold copy_write. destruct ew; [reflexivity|].
  destruct (nw =? length chunk)%nat; [apply ended_after_read | reflexivity].
Qed.

(** The channel holds the errors of the goroutines that are gone, less
    the one the handler received; the handler closes nothing before it
    received one. *)
Lemma relay_teardown_inv r0 evs r :
  relay_run r0 evs r ->
  up r0 = Reading -> down r0 = Reading -> errCh r0 = [] -> handler r0 = AwaitErr ->
  match handler r with
  | AwaitErr =>
      length (errCh r) = (ended (up r) + ended (down r))%nat /\
      closed (client r) = closed (client r0) /\ closed (backend r) = closed (backend r0)
  | CloseBackend =>
      S (length (errCh r)) = (ended (up r) + ended (down r))%nat /\
      closed (client r) = closed (client r0) /\ closed (backend r) = closed (backend r0)
  | CloseClient =>
      S (length (errCh r)) = (ended (up r) + ended (down r))%nat /\
      closed (client r) = closed (client r0) /\ closed (backend r) = true
  | Returned =>
      S (length (errCh r)) = (ended (up r) + ended (down r))%nat /\
      closed (client r) = true /\ closed (backend r) = true
  end.
Proof.
  intros Hrun Hu Hd Hch Hh. induction Hrun as [|evs r evs' r' Hrun IH Hstep].
  - rewrite Hh, Hu, Hd, Hch. repeat split; reflexivity.
  - destruct Hstep as [Hs | Hs | Hs].
    + apply step_up_spec in Hs. destruct Hs as (Hdn & Hhd & _ & Hs).
      rewrite Hhd, Hdn.
      assert (Hgoal : (length (errCh r') + ended (up r) + ended (down r)
                       = length (errCh r) + ended (up r') + ended (down r))%nat /\
                      closed (client r') = closed (client r) /\
                      closed (backend r') = closed (backend r)).
      { destruct (up r) as [|chunk er|err|].
        - destruct Hs as (data & er & Hp & -> & -> & ->).
          apply prefixRead_spec in Hp. destruct Hp as (_ & _ & Hcl & _).
          rewrite ended_copy_read. simpl. auto.
        - destruct Hs as (nw & ew & Hw & _ & -> & _ & -> & ->).
          apply Write_spec in Hw. destruct Hw as (_ & _ & _ & Hcl & _).
          rewrite ended_copy_write. simpl. auto.
        - destruct Hs as (_ & _ & -> & -> & -> & -> & _).
          rewrite length_app. simpl. repeat split; lia.
        - destruct Hs. }
      destruct Hgoal as (Hn & -> & ->).
      destruct (handler r); destruct IH as (IHn & IHc & IHb); repeat split; auto; lia.
    + apply step_down_spec in Hs. destruct Hs as (Hup & Hhd & _ & _ & Hs).
      rewrite Hhd, Hup.
      assert (Hgoal : (length (errCh r') + ended (up r) + ended (down r)
                       = length (errCh r) + ended (up r) + ended (down r'))%nat /\
                      closed (client r') = closed (client r) /\
                      closed (backend r') = closed (backend r)).
      { destruct (down r) as [|chunk er|err|].
        - destruct Hs as (data & er & Hread & _ & -> & -> & ->).
          apply Read_spec in Hread. destruct Hread as (_ & _ & _ & _ & _ & Hcl & _).
          rewrite ended_copy_read. simpl. auto.
        - destruct Hs as (nw & ew & Hw & _ & -> & -> & ->).
          apply Write_spec in Hw. destruct Hw as (_ & _ & _ & Hcl & _).
          rewrite ended_copy_write. simpl. auto.
        - destruct Hs as (_ & _ & -> & -> & -> & ->).
          rewrite length_app. simpl. repeat split; lia.
        - destruct Hs. }
      destruct Hgoal as (Hn & -> & ->).
      destruct (handler r); destruct IH as (IHn & IHc & IHb); repeat split; auto; lia.
    + apply step_handler_spec in Hs. destruct Hs as (Hup & Hdn & _ & _ & Hs).
      rewrite Hup, Hdn.
      destruct (handler r); destruct IH as (IHn & IHc & IHb).
      * destruct Hs as (err & Hch' & _ & -> & -> & ->).
        rewrite Hch' in IHn. simpl in IHn. repeat split; auto.
      * destruct Hs as (_ & -> & -> & -> & ->). repeat split; auto.
      * destruct Hs as (_ & -> & -> & -> & ->). repeat split; auto.
      * destruct Hs.
Qed.

(** Once both sockets are closed no step delivers a byte or takes one from
    what is still to arrive. *)
Lemma relay_step_closed r evs r' :
  relay_step r evs r' ->
  closed (client r) = true -> closed (backend r) = true ->
  sent (client r') = sent (client r) /\ sent (backend r') = sent (backend r) /\
  inbound (client r') = inbound (client r) /\ inbound (backend r') = inbound (backend r).
Proof.
  intros Hstep Hc Hb. destruct Hstep as [Hs | Hs | Hs].
  - apply step_up_spec in Hs. destruct Hs as (_ & _ & _ & Hs).
    destruct (up r) as [|chunk er|err|].
    + destruct Hs as (data & er & Hp & -> & _).
      apply prefixRead_spec in Hp. destruct Hp as (_ & Hsent & _ & _ & Hin & _).
      repeat split; auto.
    + destruct Hs as (nw & ew & Hw & _ & -> & _).
      apply Write_spec in Hw. destruct Hw as (_ & _ & Hin & _ & _ & Hsent).
      repeat split; auto.
    + destruct Hs as (_ & _ & _ & _ & -> & -> & _). repeat split; reflexivity.
    + destruct Hs.
  - apply step_down_spec in Hs. destruct Hs as (_ & _ & _ & _ & Hs).
    destruct (down r) as [|chunk er|err|].
    + destruct Hs as (data & er & Hread & _ & -> & _).
      unfold Read in Hread. rewrite Hb in Hread. inversion Hread; subst.
      repeat split; congruence.
    + destruct Hs as (nw & ew & Hw & _ & -> & _).
      apply Write_spec in Hw. destruct Hw as (_ & _ & Hin & _ & _ & Hsent).
      repeat split; auto.
    + destruct Hs as (_ & _ & _ & _ & -> & ->). repeat split; reflexivity.
    + destruct Hs.
  - apply step_handler_spec in Hs. destruct Hs as (_ & _ & _ & _ & Hs).
    destruct (handler r).
    + destruct Hs as (err & _ & _ & -> & -> & _). repeat split; reflexivity.
    + destruct Hs as (_ & _ & -> & -> & _). repeat split; reflexivity.
    + destruct Hs as (_ & _ & -> & -> & _). repeat split; reflexivity.
    + destruct Hs.
Qed.

(** With an error in the channel the handler goes through its receive and
    its two deferred calls, whatever the two copies do, and touches
    nothing but the two sockets' closed marks. *)
Lemma handler_closes_both r err rest :
  handler r = AwaitErr -> errCh r = err :: rest ->
  exists evs1 r1 r2 r3,
    step_handler r = Some (evs1, r1) /\
    step_handler r1 = Some ([EvClose Backend], r2) /\
    step_handler r2 = Some ([EvClose Client], r3) /\
    handler r3 = Returned /\
    closed (client r3) = true /\ closed (backend r3) = true /\
    up r3 = up r /\ down r3 = down r /\ reader r3 = reader r /\
    inbound (client r3) = inbound (client r) /\
    inbound (backend r3) = inbound (backend r) /\
    sent (client r3) = sent (client r) /\ sent (backend r3) = sent (backend r).
Proof.
  intros Hh Hch. unfold step_handler at 1. rewrite Hh, Hch.
  do 4 eexists. split; [reflexivity|].
  split; [reflexivity|]. split; [reflexivity|]. simpl. repeat split; reflexivity.
Qed.

End TeardownFacts.

(** C6. In the relay the handler closes no socket before one of the two
    copies has ended and sent its error; as soon as one has, the handler
    receives the error and closes the backend socket and the client
    socket, whatever the other copy does: it does not wait for it, and
    what is still unread on either socket stays unread; a copy that ended
    can always send its error, the channel has room for it; once both
    sockets are closed no byte is delivered any more. *)
Theorem relay_teardown (E : Env) (conn : Conn) (routes : RouteMap)
  (tr : list Event) (r0 : Relay) (evs : list Event) (r : Relay)
  (Hrelay : handleConn E conn routes = (tr, Relaying r0))
  (Hopen : closed conn = false /\ closed (backend r0) = false)
  (Hrun : relay_run r0 evs r) :
  (handler r = AwaitErr -> closed (client r) = false /\ closed (backend r) = false) /\
  (handler r <> AwaitErr -> up r = Exited \/ down r = Exited) /\
  (handler r = AwaitErr -> up r = Exited \/ down r = Exited ->
   exists evs1 r1 r2 r3,
     step_handler r = Some (evs1, r1) /\
     step_handler r1 = Some ([EvClose Backend], r2) /\
     step_handler r2 = Some ([EvClose Client], r3) /\
     handler r3 = Returned /\
     closed (client r3) = true /\ closed (backend r3) = true /\
     up r3 = up r /\ down r3 = down r /\ reader r3 = reader r /\
     inbound (client r3) = inbound (client r) /\
     inbound (backend r3) = inbound (backend r) /\
     sent (client r3) = sent (client r) /\ sent (backend r3) = sent (backend r)) /\
  (forall err, up r = Sending err ->
     exists r', step_up r = Some ([EvSend err], r') /\
                up r' = Exited /\ errCh r' = errCh r ++ [err]) /\
  (forall err, down r = Sending err ->
     exists r', step_down r = Some ([EvSend err], r') /\
                down r' = Exited /\ errCh r' = errCh r ++ [err]) /\
  (handler r = Returned ->
   closed (client r) = true /\ closed (backend r) = true /\
   forall evs' r',
     relay_step r evs' r' ->
     sent (client r') = sent (client r) /\ sent (backend r') = sent (backend r) /\
     inbound (client r') = inbound (client r) /\
     inbound (backend r') = inbound (backend r)).
Proof.
  destruct (readClientHello (SetReadDeadline conn (Some (now E + 10 * Second))))
    as [evs0 [[buf c1] failed]] eqn:Hhello.
  destruct (handleConn_shape E conn routes _ _ _ _ Hhello) as (rest & _ & _ & Hout).
  rewrite Hrelay in Hout. simpl in Hout.
  destruct Hout as (_ & _ & Hc & Hup & Hdn & Hch & Hh & _).
  pose proof (readClientHello_spec _ _ _ _ _ Hhello) as (_ & Hcl & _).
  simpl in Hcl. destruct Hopen as [Hoc Hob].
  assert (Hc0 : closed (client r0) = false) by (rewrite Hc; simpl; congruence).
  pose proof (relay_teardown_inv _ _ _ Hrun Hup Hdn Hch Hh) as Hinv.
  assert (Hended : forall k, (ended k <= 1)%nat) by (intros []; simpl; lia).
  assert (Hex : forall k, ended k = 1%nat -> k = Exited)
    by (intros []; simpl; intros; congruence).
  pose proof (Hended (up r)). pose proof (Hended (down r)).
  assert (Hroom : forall err, up r = Sending err \/ down r = Sending err ->
                  (length (errCh r) <? 2)%nat = true).
  { intros err Hs. apply Nat.ltb_lt.
    assert (ended (up r) + ended (down r) <= 1)%nat
      by (destruct Hs as [-> | ->]; simpl; lia).
    destruct (handler r); destruct Hinv as (Hn & _); lia. }
  split; [|split; [|split; [|split; [|split]]]].
  - intros Hr. rewrite Hr in Hinv. destruct Hinv as (_ & -> & ->). auto.
  - intros Hr. destruct (handler r); [congruence| | |];
      destruct Hinv as (Hn & _);
      (destruct (up r); [| | |left; reflexivity]);
      (destruct (down r); [| | |right; reflexivity]); simpl in Hn; lia.
  - intros Hr Hend. rewrite Hr in Hinv. destruct Hinv as (Hn & _).
    destruct (errCh r) as [|err rest'] eqn:Hq.
    + exfalso. destruct Hend as [He | He]; rewrite He in Hn; simpl in Hn; lia.
    + apply (handler_closes_both r err rest' Hr Hq).
  - intros err Hs. unfold step_up. rewrite Hs, (Hroom err (or_introl Hs)).
    eexists. split; [reflexivity|]. split; reflexivity.
  - intros err Hs. unfold step_down. rewrite Hs, (Hroom err (or_intror Hs)).
    eexists. split; [reflexivity|]. split; reflexivity.
  - intros Hr. rewrite Hr in Hinv. destruct Hinv as (_ & Hcc & Hcb).
    split; [exact Hcc|]. split; [exact Hcb|].
    intros evs' r' Hstep. apply (relay_step_closed _ _ _ Hstep Hcc Hcb).
Qed.

Lemma relay_teardown_witness :
  exists evs r r3,
    relay_run sampleRelay evs r /\
    down r = Exited /\ up r = Reading /\ handler r = AwaitErr /\
    handler r3 = Returned /\
    closed (client r3) = true /\ closed (backend r3) = true /\
    up r3 = Reading /\
    reader r3 = PrBuf (sni.enc_record (sampleHello "b")) /\
    inbound (client r3) = [Data [x07; x08]].
Proof.
  assert (Hrun : exists evs r,
    relay_run sampleRelay evs r /\
    handler r = AwaitErr /\ down r = Exited /\ up r = Reading /\
    reader r = PrBuf (sni.enc_record (sampleHello "b")) /\
    inbound (client r) = [Data [x07; x08]]).
  { do 2 eexists. split.
    - eapply run_step;
        [eapply run_step;
          [eapply run_step; [eapply run_step; [apply run_start|]|]|]|];
        apply step_of_down; reflexivity.
    - repeat split; reflexivity. }
  destruct Hrun as (evs & r & Hrun & Hh & Hd & Hu & Hrd & Hin).
  destruct (relay_teardown sampleEnv (sampleClient "b") sampleTable
              (fst (handleConn sampleEnv (sampleClient "b") sampleTable))
              sampleRelay evs r) as (_ & _ & H3 & _).
  - vm_compute. reflexivity.
  - split; reflexivity.
  - exact Hrun.
  - destruct (H3 Hh (or_intror Hd))
      as (evs1 & r1 & r2 & r3 & _ & _ & _ & Hh3 & Hc3 & Hb3 & Hu3 & _ & Hr3 & Hi3 & _).
    exists evs, r, r3. repeat split; try assumption; congruence.
Defined.

(* ===================================================================== *)
(** * Further properties of the route table *)
(* ===================================================================== *)

Section TableFacts.

Implicit Types (rm : gmap string RouteConfig) (routes : list string).

(** [parseRoutes] goes on from the table of the strings before. *)
Lemma parseRoutesFrom_app rm l1 l2 :
  parseRoutesFrom rm (l1 ++ l2)
  = match parseRoutesFrom rm l1 with
    | Ok t => parseRoutesFrom (rules t) l2
    | Err e => Err e
    end.
Proof.
  revert rm. induction l1 as [|r l1 IH]; intros rm; simpl; [reflexivity|].
  destruct (parseRoute r) as [c|e]; [|reflexivity].
  destruct (rm !! Host c); [reflexivity|]. apply IH.
Qed.

(** Valid strings with hosts that differ from each other and from the keys
    of the map give a table, one entry larger for every string. *)
Lemma parseRoutesFrom_distinct rm routes cfgs :
  Forall2 (fun r c => parseRoute r = Ok c) routes cfgs ->
  NoDup (map Host cfgs) ->
  (forall c, In c cfgs -> rm !! Host c = None) ->
  exists t, parseRoutesFrom rm routes = Ok t /\
            size (rules t) = (size rm + length routes)%nat.
Proof.
  intros Hall. revert rm.
  induction Hall as [|r c routes cfgs Hr _ IH]; intros rm Hnd Hfresh; simpl.
  - eexists. split; [reflexivity|]. simpl. lia.
  - rewrite Hr. rewrite (Hfresh c) by (simpl; auto).
    simpl in Hnd. apply NoDup_cons in Hnd. destruct Hnd as [Hnotin Hnd].
    destruct (IH (<[Host c := c]> rm) Hnd) as (t & Ht & Hsize).
    + intros c' Hin. rewrite lookup_insert_ne.
      * apply Hfresh. simpl. auto.
      * intros Heq. apply Hnotin. rewrite Heq. apply list_elem_of_In, in_map.
        exact Hin.
    + exists t. split; [exact Ht|].
      rewrite Hsize, map_size_insert_None by (apply Hfresh; simpl; auto). lia.
Qed.

(** A table that was built comes from valid strings with hosts that differ
    from each other and from the keys of the map. *)
Lemma parseRoutesFrom_ok_inv rm routes t :
  parseRoutesFrom rm routes = Ok t ->
  exists cfgs,
    Forall2 (fun r c => parseRoute r = Ok c) routes cfgs /\
    NoDup (map Host cfgs) /\
    (forall c, In c cfgs -> rm !! Host c = None).
Proof.
  revert rm. induction routes as [|r routes IH]; intros rm Hok; simpl in Hok.
  - exists []. repeat split; [constructor | constructor | intros c []].
  - destruct (parseRoute r) as [c|e] eqn:Hr; [|discriminate].
    destruct (rm !! Host c) eqn:Hfresh; [discriminate|].
    destruct (IH _ Hok) as (cfgs & Hall & Hnd & Hnone).
    exists (c :: cfgs). split; [constructor; assumption|]. split.
    + simpl. apply NoDup_cons. split; [|exact Hnd].
      intros Hin. apply list_elem_of_In, in_map_iff in Hin.
      destruct Hin as (c' & Hh & Hin). specialize (Hnone c' Hin).
      rewrite Hh, lookup_insert_eq in Hnone. discriminate.
    + intros c' [<- | Hin]; [exact Hfresh|].
      specialize (Hnone c' Hin). apply lookup_insert_None in Hnone. tauto.
Qed.

Lemma Forall2_pick_r {A B} (P : A -> B -> Prop) l k c :
  Forall2 P l k -> In c k -> exists r, In r l /\ P r c.
Proof.
  intros H. induction H as [|r c' l k Hp _ IH]; simpl; [intros []|].
  intros [<- | Hin]; [eauto|]. destruct (IH Hin) as (r' & ? & ?). eauto.
Qed.

Lemma Forall2_pick_l {A B} (P : A -> B -> Prop) l k r :
  Forall2 P l k -> In r l -> exists c, In c k /\ P r c.
Proof.
  intros H. induction H as [|r' c l k Hp _ IH]; simpl; [intros []|].
  intros [<- | Hin]; [eauto|]. destruct (IH Hin) as (c' & ? & ?). eauto.
Qed.

End TableFacts.

(** X1. [parseRoutes] returns a table exactly when every route string is
    valid and the hostnames of the descriptors differ from each other; the
    table then has one entry for every string, [Lookup] of the hostname of
    a string gives the descriptor of that string, and [Lookup] of any other
    name finds nothing. *)
Theorem parseRoutes_builds (routes : list string) :
  (forall rm, parseRoutes routes = Ok rm ->
     exists cfgs,
       Forall2 (fun r c => parseRoute r = Ok c) routes cfgs /\
       NoDup (map Host cfgs)) /\
  (forall cfgs,
     Forall2 (fun r c => parseRoute r = Ok c) routes cfgs ->
     NoDup (map Host cfgs) ->
     exists rm,
       parseRoutes routes = Ok rm /\
       size (rules rm) = length routes /\
       (forall c, In c cfgs -> Lookup rm (Host c) = Some c) /\
       (forall h, ~ In h (map Host cfgs) -> Lookup rm h = None)).
Proof.
  split.
  - intros rm Hok. destruct (parseRoutesFrom_ok_inv _ _ _ Hok) as (cfgs & Hall & Hnd & _).
    eauto.
  - intros cfgs Hall Hnd.
    destruct (parseRoutesFrom_distinct ∅ routes cfgs Hall Hnd) as (rm & Hok & Hsize).
    { intros c _. apply lookup_empty. }
    exists rm. split; [exact Hok|]. split; [rewrite Hsize, map_size_empty; reflexivity|].
    pose proof (parseRoutesFrom_lookup _ _ _ Hok) as Hl. split.
    + intros c Hin. unfold Lookup. apply Hl. right.
      destruct (Forall2_pick_r _ _ _ _ Hall Hin) as (r & Hr & Hp). eauto.
    + intros h Hnot. unfold Lookup.
      destruct (rules rm !! h) as [cfg|] eqn:Hh; [|reflexivity]. exfalso.
      apply Hl in Hh. destruct Hh as [Hh | (r & Hin & Hp & Heq)].
      * rewrite lookup_empty in Hh. discriminate.
      * destruct (Forall2_pick_l _ _ _ _ Hall Hin) as (c & Hc & Hpc).
        rewrite Hp in Hpc. inversion Hpc; subst c.
        apply Hnot. rewrite <- Heq. apply in_map. exact Hc.
Qed.

Lemma parseRoutes_builds_witness :
  exists rm,
    parseRoutes ["example.com"; "b=:1"] = Ok rm /\
    size (rules rm) = 2%nat /\
    Lookup rm "b" = Some (mkRouteConfig "b" "localhost:1" false "").
Proof.
  destruct (proj2 (parseRoutes_builds ["example.com"; "b=:1"])
              [mkRouteConfig "example.com" "" true "";
               mkRouteConfig "b" "localhost:1" false ""])
    as (rm & Hok & Hsize & Hin & _).
  - repeat constructor; vm_compute; reflexivity.
  - apply (bool_decide_unpack _). vm_compute. reflexivity.
  - exists rm. split; [exact Hok|]. split; [exact Hsize|].
    apply (Hin (mkRouteConfig "b" "localhost:1" false "")). simpl. auto.
Defined.

(** X2. [parseRoutes] reads the strings in order and stops at the first
    that is invalid or repeats a hostname: after strings that built a
    table, an invalid string gives its own error and a string whose
    hostname is in the table gives the duplicate-route error for that
    hostname, whatever strings follow; a valid string with a new hostname
    adds its descriptor under that hostname. *)
Theorem parseRoutes_stops (before : list string) (r : string) (after : list string)
  (rm : RouteMap) (Hbefore : parseRoutes before = Ok rm) :
  (forall e, parseRoute r = Err e -> parseRoutes (before ++ r :: after) = Err e) /\
  (forall c, parseRoute r = Ok c -> Lookup rm (Host c) <> None ->
     parseRoutes (before ++ r :: after) = Err (ErrDuplicateRoute (Host c))) /\
  (forall c, parseRoute r = Ok c -> Lookup rm (Host c) = None ->
     parseRoutes (before ++ [r]) = Ok (mkRouteMap (<[Host c := c]> (rules rm)))).
Proof.
  unfold parseRoutes in *. unfold Lookup.
  split; [|split].
  - intros e He. rewrite parseRoutesFrom_app, Hbefore. simpl. rewrite He. reflexivity.
  - intros c Hc Hdup. rewrite parseRoutesFrom_app, Hbefore. simpl. rewrite Hc.
    destruct (rules rm !! Host c); [reflexivity | contradiction].
  - intros c Hc Hnew. rewrite parseRoutesFrom_app, Hbefore. simpl. rewrite Hc, Hnew.
    reflexivity.
Qed.

Lemma parseRoutes_stops_witness :
  parseRoutes (["example.com"; "b=:1"] ++ "b" :: ["c:1"]) = Err (ErrDuplicateRoute "b").
Proof.
  apply (proj1 (proj2 (parseRoutes_stops ["example.com"; "b=:1"] "b" ["c:1"] sampleTable
                         ltac:(vm_compute; reflexivity)))
           (mkRouteConfig "b" "" true "")).
  - vm_compute. reflexivity.
  - vm_compute. discriminate.
Defined.

(* ===================================================================== *)
(** * Further properties of route strings *)
(* ===================================================================== *)

Section DescriptorFacts.

Lemma IndexByte_notin s c : ~ In c (list_ascii_of_string s) -> IndexByte s c = -1.
Proof.
  intros Hn. destruct (IndexByte_split s c) as [[Hi _] | (A & B & Hl & _)]; [exact Hi|].
  exfalso. apply Hn. rewrite Hl, in_app_iff. simpl. tauto.
Qed.

Lemma LastIndex_split s c :
  (LastIndex s c = -1 /\ ~ In c (list_ascii_of_string s)) \/
  exists A B,
    list_ascii_of_string s = A ++ c :: B /\ ~ In c B /\
    LastIndex s c = Z.of_nat (length A) /\
    take_str (length A) s = string_of_list_ascii A /\
    drop_str (S (length A)) s = string_of_list_ascii B.
Proof.
  induction s as [|a s IH]; cbn [LastIndex list_ascii_of_string].
  - left. simpl. tauto.
  - destruct IH as [[Hi Hn] | (A & B & Hl & HB & Hi & Hto & Hfrom)].
    + rewrite Hi. cbn [Z.eqb].
      destruct (Ascii.eqb_spec a c) as [->|Hne].
      * right. exists [], (list_ascii_of_string s). simpl.
        rewrite string_of_list_ascii_of_string. repeat split; auto.
      * left. split; [reflexivity|]. simpl. intros [?|?]; [congruence | tauto].
    + right. exists (a :: A), B.
      destruct (Z.eqb_spec (LastIndex s c) (-1)) as [E|_]; [lia|].
      rewrite Hl, Hi. cbn [length take_str drop_str string_of_list_ascii app].
      rewrite Hto. cbn [drop_str] in Hfrom. rewrite Hfrom.
      repeat split; auto. lia.
Qed.

Lemma LastIndex_notin s c : ~ In c (list_ascii_of_string s) -> LastIndex s c = -1.
Proof.
  intros Hn. destruct (LastIndex_split s c) as [[Hi _] | (A & B & Hl & _)]; [exact Hi|].
  exfalso. apply Hn. rewrite Hl, in_app_iff. simpl. tauto.
Qed.

Lemma digits_numeric s n v :
  go_strconv.digits s n = inl v -> Forall numeric (list_ascii_of_string s).
Proof.
  revert n. induction s as [|c s IH]; intros n; simpl; [constructor|].
  destruct (0 <=? Z.of_nat (nat_of_ascii c) - 48) eqn:Hlo; [|discriminate].
  destruct (Z.of_nat (nat_of_ascii c) - 48 <=? 9) eqn:Hhi; [|discriminate].
  simpl. case_match; [discriminate|]. intros Hd. constructor; [|eauto].
  left. lia.
Qed.

Lemma Atoi_numeric s v :
  go_strconv.Atoi s = inl v -> Forall numeric (list_ascii_of_string s).
Proof.
  unfold go_strconv.Atoi. destruct s as [|c s]; [discriminate|].
  destruct (Ascii.eqb_spec c "-") as [->|Hm]; cbn [orb].
  - destruct s as [|c' s']; [discriminate|].
    destruct (go_strconv.digits (String c' s') 0) as [un|] eqn:Hd; [|discriminate].
    intros _. constructor; [right; left; reflexivity|]. exact (digits_numeric _ _ _ Hd).
  - destruct (Ascii.eqb_spec c "+") as [->|Hp].
    + destruct s as [|c' s']; [discriminate|].
      destruct (go_strconv.digits (String c' s') 0) as [un|] eqn:Hd; [|discriminate].
      intros _. constructor; [right; right; reflexivity|]. exact (digits_numeric _ _ _ Hd).
    + destruct (go_strconv.digits (String c s) 0) as [un|] eqn:Hd; [|discriminate].
      intros _. exact (digits_numeric _ _ _ Hd).
Qed.

Lemma numeric_notin l c :
  Forall numeric l -> ~ numeric c -> ~ In c l.
Proof.
  intros Hall Hc Hin. apply Hc. rewrite List.Forall_forall in Hall. auto.
Qed.

(** A port [strconv.Atoi] accepts makes, after [localhost:], an address
    [net.SplitHostPort] accepts. *)
Lemma SplitHostPort_localhost port v :
  go_strconv.Atoi port = inl v ->
  go_net.SplitHostPort ("localhost" ++ String ":" port)%string = inl ("localhost", port).
Proof.
  intros Hv. apply Atoi_numeric in Hv.
  assert (Hc : LastIndex port ":" = -1).
  { apply LastIndex_notin, (numeric_notin _ _ Hv). unfold numeric.
    intros [H|[H|H]]; [vm_compute in H; lia | discriminate | discriminate]. }
  assert (Ho : IndexByte port "[" = -1).
  { apply IndexByte_notin, (numeric_notin _ _ Hv). unfold numeric.
    intros [H|[H|H]]; [vm_compute in H; lia | discriminate | discriminate]. }
  assert (Hb : IndexByte port "]" = -1).
  { apply IndexByte_notin, (numeric_notin _ _ Hv). unfold numeric.
    intros [H|[H|H]]; [vm_compute in H; lia | discriminate | discriminate]. }
  change ("localhost" ++ String ":" port)%string
    with (String "l" (String "o" (String "c" (String "a" (String "l"
         (String "h" (String "o" (String "s" (String "t" (String ":" port)))))))))).
  set (hp := String "l" _).
  assert (H1 : LastIndex hp ":" = 9)
    by (unfold hp; cbn [LastIndex]; rewrite Hc; reflexivity).
  assert (H2 : HasPrefix hp "[" = false) by reflexivity.
  assert (H3 : slice_to hp 9 = "localhost") by reflexivity.
  assert (H4 : slice_from hp 0 = hp) by reflexivity.
  assert (H5 : IndexByte hp "[" = -1)
    by (unfold hp; cbn [IndexByte]; rewrite Ho; reflexivity).
  assert (H6 : IndexByte hp "]" = -1)
    by (unfold hp; cbn [IndexByte]; rewrite Hb; reflexivity).
  assert (H7 : slice_from hp (9 + 1) = port) by reflexivity.
  clearbody hp. unfold go_net.SplitHostPort.
  rewrite H1, H2, H3. cbn [Z.ltb Z.compare]. cbv iota.
  change (IndexByte "localhost" ":") with (-1). cbn [Z.leb Z.compare]. cbv iota.
  rewrite H4, H5, H6, H7. reflexivity.
Qed.

Lemma splitProxy_spec route proxyAddr remainder :
  splitProxy route = Ok (proxyAddr, remainder) ->
  (proxyAddr = "" \/ exists h p, go_net.SplitHostPort proxyAddr = inl (h, p)) /\
  Contains proxyAddr "@" = false /\
  TrimSpace proxyAddr = proxyAddr.
Proof.
  assert (Hat : plain "@") by (unfold plain; vm_compute; lia).
  unfold splitProxy.
  destruct (LastIndex_split route "@") as [[Hi Hn] | (A & B & Hl & HB & Hi & Hto & Hfrom)].
  - rewrite Hi. cbn [Z.eqb negb]. intros H; inversion H. repeat split; auto.
  - rewrite Hi. destruct (Z.eqb_spec (Z.of_nat (length A)) (-1)) as [E|_]; [lia|].
    cbn [negb]. unfold slice_from.
    replace (Z.to_nat (Z.of_nat (length A) + 1)) with (S (length A)) by lia.
    rewrite Hfrom.
    assert (Hnone : Contains (TrimSpace (string_of_list_ascii B)) "@" = false).
    { rewrite Contains_TrimSpace by exact Hat.
      destruct (Contains (string_of_list_ascii B) "@") eqn:Hc; [|reflexivity].
      apply Contains_In in Hc. rewrite list_ascii_of_string_of_list_ascii in Hc.
      contradiction. }
    destruct (String.eqb_spec (TrimSpace (string_of_list_ascii B)) "") as [He|Hne];
      cbn [negb].
    + intros H; inversion H; subst. rewrite He. repeat split; auto.
    + destruct (go_net.SplitHostPort (TrimSpace (string_of_list_ascii B)))
        as [[h p]|err] eqn:Hs; [|discriminate].
      intros H; inversion H; subst. split; [right; eauto|].
      split; [exact Hnone | apply TrimSpace_idem].
Qed.

Lemma parseRemainder_spec route proxyAddr remainder cfg :
  parseRemainder route proxyAddr remainder = Ok cfg ->
  ProxyAddr cfg = proxyAddr /\
  Host cfg <> "" /\ TrimSpace (Host cfg) = Host cfg /\ Contains (Host cfg) "=" = false /\
  if Passthrough cfg
  then Target cfg = "" /\ Contains (Host cfg) ":" = false
  else Target cfg <> "" /\ exists h p, go_net.SplitHostPort (Target cfg) = inl (h, p).
Proof.
  assert (Hcolon : plain ":") by (unfold plain; vm_compute; lia).
  assert (Heq : plain "=") by (unfold plain; vm_compute; lia).
  unfold parseRemainder.
  destruct (Contains remainder "=") eqn:Hc; cbn [negb].
  - rewrite andb_false_r.
    destruct (SplitN2_spec _ _ Hc) as (A & B & Hl & HA & ->). cbn [nth].
    set (host := TrimSpace (string_of_list_ascii A)).
    set (target := TrimSpace (string_of_list_ascii B)).
    assert (Hhost : Contains host "=" = false).
    { unfold host. rewrite Contains_TrimSpace by exact Heq.
      destruct (Contains (string_of_list_ascii A) "=") eqn:Hc'; [|reflexivity].
      apply Contains_In in Hc'. rewrite list_ascii_of_string_of_list_ascii in Hc'.
      contradiction. }
    destruct (String.eqb_spec host "") as [|Hne]; [discriminate|].
    destruct (String.eqb_spec target "") as [|Hte]; [discriminate|].
    destruct (HasPrefix target ":") eqn:Hp.
    + destruct target as [|a port] eqn:Ht; [discriminate|]. simpl in Hp.
      apply Ascii.eqb_eq in Hp. subst a.
      change (slice_from (String ":" port) 1) with port.
      destruct (go_strconv.Atoi port) as [v|] eqn:Hv; [|discriminate].
      intros H; inversion H; subst cfg; cbn [ProxyAddr Host Target Passthrough].
      split; [reflexivity|]. split; [exact Hne|]. split; [apply TrimSpace_idem|].
      split; [exact Hhost|]. split; [intros Hx; simpl in Hx; discriminate|].
      exists "localhost", port. exact (SplitHostPort_localhost _ _ Hv).
    + destruct (go_net.SplitHostPort target) as [[h p]|] eqn:Hs; [|discriminate].
      intros H; inversion H; subst cfg; cbn [ProxyAddr Host Target Passthrough].
      split; [reflexivity|]. split; [exact Hne|]. split; [apply TrimSpace_idem|].
      split; [exact Hhost|]. split; [exact Hte | eauto].
  - rewrite andb_true_r. destruct (Contains remainder ":") eqn:Hc2; [discriminate|].
    cbn [negb].
    destruct (String.eqb_spec (TrimSpace remainder) "") as [|Hne]; [discriminate|].
    intros H; inversion H; subst cfg; cbn [ProxyAddr Host Target Passthrough].
    split; [reflexivity|]. split; [exact Hne|]. split; [apply TrimSpace_idem|].
    rewrite !Contains_TrimSpace by assumption. auto.
Qed.

End DescriptorFacts.

(** X3. Every descriptor [parseRoute] returns has a hostname that is not
    empty, has no white space around it and holds no [=]; a passthrough
    descriptor has no target and no colon in its hostname, a routed one
    has a target that [net.SplitHostPort] splits into a host and a port
    (a target given as [:port] with [localhost] before it); and the
    proxy address holds no [@], has no white space around it, and is
    empty or an address that [net.SplitHostPort] splits. *)
Theorem parseRoute_descriptor (route : string) (cfg : RouteConfig)
  (Hok : parseRoute route = Ok cfg) :
  Host cfg <> "" /\ TrimSpace (Host cfg) = Host cfg /\ Contains (Host cfg) "=" = false /\
  (if Passthrough cfg
   then Target cfg = "" /\ Contains (Host cfg) ":" = false
   else Target cfg <> "" /\ exists h p, go_net.SplitHostPort (Target cfg) = inl (h, p)) /\
  (ProxyAddr cfg = "" \/ exists h p, go_net.SplitHostPort (ProxyAddr cfg) = inl (h, p)) /\
  Contains (ProxyAddr cfg) "@" = false /\
  TrimSpace (ProxyAddr cfg) = ProxyAddr cfg.
Proof.
  unfold parseRoute in Hok.
  destruct (splitProxy route) as [[proxyAddr remainder]|] eqn:Hsp; [|discriminate].
  destruct (splitProxy_spec _ _ _ Hsp) as (Hp1 & Hp2 & Hp3).
  destruct (parseRemainder_spec _ _ _ _ Hok) as (-> & Hh1 & Hh2 & Hh3 & Ht).
  repeat split; assumption.
Qed.

Lemma parseRoute_descriptor_witness :
  exists h p,
    go_net.SplitHostPort (Target (mkRouteConfig "a" "localhost:-1" false "p:1"))
    = inl (h, p).
Proof.
  exact (proj2 (proj1 (proj2 (proj2 (proj2
           (parseRoute_descriptor " a = :-1 @ p:1 "
                                  (mkRouteConfig "a" "localhost:-1" false "p:1")
                                  ltac:(vm_compute; reflexivity))))))).
Defined.

(** X4. The address check of [createDialer] never fails for the proxy
    address of a descriptor [parseRoute] returned: the dialer factory
    gives a dialer, a plain one when the descriptor has no proxy address,
    or the error of [proxy.SOCKS5]. *)
Theorem createDialer_parsed (E : Env) (route : string) (cfg : RouteConfig) (timeout : Z)
  (Hok : parseRoute route = Ok cfg) :
  (forall addr why,
     snd (createDialer E (ProxyAddr cfg) timeout) <> Err (ErrInvalidSocksProxy addr why)) /\
  (ProxyAddr cfg = "" -> snd (createDialer E (ProxyAddr cfg) timeout) = Ok (NetDialer timeout)) /\
  (ProxyAddr cfg <> "" -> socks5_error E "tcp" (ProxyAddr cfg) = None ->
   snd (createDialer E (ProxyAddr cfg) timeout)
   = Ok (Socks5Dialer "tcp" (ProxyAddr cfg) (NetDialer timeout))).
Proof.
  unfold parseRoute in Hok.
  destruct (splitProxy route) as [[proxyAddr remainder]|] eqn:Hsp; [|discriminate].
  destruct (splitProxy_spec _ _ _ Hsp) as (Hp1 & _).
  destruct (parseRemainder_spec _ _ _ _ Hok) as (-> & _).
  unfold createDialer. cbn [snd].
  destruct (String.eqb_spec proxyAddr "") as [He|Hne].
  - repeat split; [discriminate | contradiction].
  - destruct Hp1 as [|(h & p & Hs)]; [contradiction|]. rewrite Hs.
    split; [|split].
    + intros addr why. destruct (socks5_error E "tcp" proxyAddr); discriminate.
    + intros; contradiction.
    + intros _ ->. reflexivity.
Qed.

Lemma createDialer_parsed_witness :
  snd (createDialer sampleEnv (ProxyAddr (mkRouteConfig "a" "" true "p:1")) (10 * Second))
  = Ok (Socks5Dialer "tcp" "p:1" (NetDialer (10 * Second))).
Proof.
  apply (proj2 (proj2 (createDialer_parsed sampleEnv "a@p:1"
                         (mkRouteConfig "a" "" true "p:1") (10 * Second)
                         ltac:(vm_compute; reflexivity)))).
  - discriminate.
  - vm_compute. reflexivity.
Defined.

Section SuffixFacts.

Lemma list_ascii_of_string_app s1 s2 :
  list_ascii_of_string (s1 ++ s2)%string
  = list_ascii_of_string s1 ++ list_ascii_of_string s2.
Proof. induction s1 as [|a s1 IH]; simpl; [reflexivity | rewrite IH; reflexivity]. Qed.

Lemma last_split_unique (c : ascii) (A B A' B' : list ascii) :
  A ++ c :: B = A' ++ c :: B' -> ~ In c B -> ~ In c B' -> A = A' /\ B = B'.
Proof.
  intros Heq HB HB'. apply (f_equal (@rev ascii)) in Heq.
  rewrite !rev_app_distr in Heq. cbn [rev] in Heq. rewrite <- !app_assoc in Heq.
  cbn [app] in Heq.
  destruct (first_split_unique c (rev B) (rev A) (rev B') (rev A') Heq) as [H1 H2];
    try (rewrite <- in_rev; assumption).
  split; [apply rev_inj; exact H2 | apply rev_inj; exact H1].
Qed.

Lemma Contains_false s c : Contains s c = false <-> ~ In c (list_ascii_of_string s).
Proof.
  rewrite <- Contains_In. destruct (Contains s c); split; intros; congruence.
Qed.

(** The split of a route string that ends in [@] and a text without
    [@]. *)
Lemma splitProxy_suffix route proxy :
  Contains proxy "@" = false ->
  splitProxy (route ++ String "@" proxy)
  = if negb (String.eqb (TrimSpace proxy) "") then
      match go_net.SplitHostPort (TrimSpace proxy) with
      | inr err => Err (ErrInvalidSocksProxy (TrimSpace proxy) err)
      | inl _ => Ok (TrimSpace proxy, TrimSpace route)
      end
    else Ok (TrimSpace proxy, TrimSpace route).
Proof.
  intros Hp. apply Contains_false in Hp.
  unfold splitProxy.
  destruct (LastIndex_split (route ++ String "@" proxy) "@")
    as [[Hi Hn] | (A & B & Hl & HB & Hi & Hto & Hfrom)].
  - exfalso. apply Hn. rewrite list_ascii_of_string_app, in_app_iff. simpl. tauto.
  - rewrite list_ascii_of_string_app in Hl. cbn [list_ascii_of_string] in Hl.
    symmetry in Hl.
    destruct (last_split_unique _ _ _ _ _ Hl HB Hp) as [HA HB'].
    rewrite Hi. destruct (Z.eqb_spec (Z.of_nat (length A)) (-1)) as [E|_]; [lia|].
    cbn [negb]. unfold slice_from, slice_to.
    replace (Z.to_nat (Z.of_nat (length A) + 1)) with (S (length A)) by lia.
    rewrite Nat2Z.id, Hto, Hfrom, HA, HB', !string_of_list_ascii_of_string.
    reflexivity.
Qed.

(** The result of the remainder of a route depends on the proxy address
    only through the field it fills. *)
Lemma parseRemainder_proxy route proxyAddr proxyAddr' remainder :
  parseRemainder route proxyAddr' remainder
  = match parseRemainder route proxyAddr remainder with
    | Ok cfg => Ok (mkRouteConfig (Host cfg) (Target cfg) (Passthrough cfg) proxyAddr')
    | Err e => Err e
    end.
Proof. unfold parseRemainder. repeat case_match; reflexivity. Qed.

Lemma parseRoute_plain route :
  Contains route "@" = false -> parseRoute route = parseRemainder route "" route.
Proof.
  intros Hr. apply Contains_false, LastIndex_notin in Hr.
  unfold parseRoute, splitProxy. rewrite Hr. reflexivity.
Qed.

End SuffixFacts.

(** X5. A proxy suffix only adds the proxy address.  For a route string
    and a proxy text that hold no [@], the string made of the route, an
    [@] and the proxy text is refused with the invalid-proxy error when
    the proxy text, trimmed, is not empty and [net.SplitHostPort] refuses
    it, whatever the route is; otherwise it gives a descriptor exactly
    when the route string alone gives one, the same but for the proxy
    address, which is the trimmed proxy text. *)
Theorem parseRoute_proxy_suffix (route proxy : string)
  (Hroute : Contains route "@" = false) (Hproxy : Contains proxy "@" = false) :
  (TrimSpace proxy <> "" ->
   forall why, go_net.SplitHostPort (TrimSpace proxy) = inr why ->
     parseRoute (route ++ String "@" proxy)
     = Err (ErrInvalidSocksProxy (TrimSpace proxy) why)) /\
  ((TrimSpace proxy = "" \/ exists h p, go_net.SplitHostPort (TrimSpace proxy) = inl (h, p)) ->
   forall cfg,
     parseRoute (route ++ String "@" proxy) = Ok cfg <->
     exists cfg0,
       parseRoute route = Ok cfg0 /\
       cfg = mkRouteConfig (Host cfg0) (Target cfg0) (Passthrough cfg0) (TrimSpace proxy)).
Proof.
  pose proof (splitProxy_suffix route proxy Hproxy) as Hsp.
  split.
  - intros Hne why Hwhy. unfold parseRoute. rewrite Hsp, Hwhy.
    destruct (String.eqb_spec (TrimSpace proxy) ""); [contradiction | reflexivity].
  - intros Hvalid cfg.
    assert (Hsp' : splitProxy (route ++ String "@" proxy)
                   = Ok (TrimSpace proxy, TrimSpace route)).
    { rewrite Hsp. destruct Hvalid as [-> | (h & p & ->)]; [reflexivity|].
      destruct (negb _); reflexivity. }
    unfold parseRoute at 1. rewrite Hsp'.
    rewrite (parseRemainder_TrimSpace _ route), (parseRoute_plain route Hroute).
    rewrite (parseRemainder_proxy route "" (TrimSpace proxy) route).
    destruct (parseRemainder route "" route) as [cfg0|e].
    + split.
      * intros H; inversion H. eauto.
      * intros (cfg1 & H1 & ->). inversion H1. reflexivity.
    + split; [discriminate|]. intros (cfg1 & H1 & _). discriminate.
Qed.

Lemma parseRoute_proxy_suffix_witness :
  parseRoute (" a = :80 " ++ String "@" " 10.0.0.1:1080 ")
  = Ok (mkRouteConfig "a" "localhost:80" false "10.0.0.1:1080").
Proof.
  apply (proj2 (parseRoute_proxy_suffix " a = :80 " " 10.0.0.1:1080 " eq_refl eq_refl)).
  - right. exists "10.0.0.1", "1080". vm_compute. reflexivity.
  - exists (mkRouteConfig "a" "localhost:80" false ""). split; vm_compute; reflexivity.
Defined.

Section PortFacts.

Lemma plain_not_space a : plain a -> ascii_space a = false.
Proof.
  unfold plain, ascii_space. intros Hp.
  destruct (Nat.leb_spec 9 (nat_of_ascii a)), (Nat.leb_spec (nat_of_ascii a) 13),
    (Nat.eqb_spec (nat_of_ascii a) 32); simpl; try reflexivity; lia.
Qed.

Lemma plain_not_space2 a b : plain a \/ plain b -> space2 a b = false.
Proof.
  unfold plain, space2. intros Hp.
  destruct (Nat.eqb_spec (nat_of_ascii a) 194), (Nat.eqb_spec (nat_of_ascii b) 133),
    (Nat.eqb_spec (nat_of_ascii b) 160); simpl; try reflexivity; lia.
Qed.

Lemma plain_not_space3 a b c : plain a \/ plain c -> space3 a b c = false.
Proof.
  unfold plain, space3. intros Hp.
  destruct (Nat.eqb_spec (nat_of_ascii a) 225), (Nat.eqb_spec (nat_of_ascii a) 226),
    (Nat.eqb_spec (nat_of_ascii a) 227),
    (Nat.eqb_spec (nat_of_ascii c) 128), (Nat.leb_spec 128 (nat_of_ascii c)),
    (Nat.leb_spec (nat_of_ascii c) 138),
    (Nat.eqb_spec (nat_of_ascii c) 168), (Nat.eqb_spec (nat_of_ascii c) 169),
    (Nat.eqb_spec (nat_of_ascii c) 175), (Nat.eqb_spec (nat_of_ascii c) 159);
    simpl; rewrite ?andb_false_r; simpl; try reflexivity; lia.
Qed.

Lemma trim_left_plain a l : plain a -> trim_left (a :: l) = a :: l.
Proof.
  intros Hp. cbn [trim_left]. rewrite (plain_not_space a Hp).
  destruct l as [|b l]; [reflexivity|]. rewrite plain_not_space2 by auto.
  destruct l as [|c l]; [reflexivity|]. rewrite plain_not_space3 by auto. reflexivity.
Qed.

Lemma trim_rev_plain a r : plain a -> trim_rev (a :: r) = a :: r.
Proof.
  intros Hp. cbn [trim_rev]. rewrite (plain_not_space a Hp).
  destruct r as [|b r]; [reflexivity|]. rewrite plain_not_space2 by auto.
  destruct r as [|c r]; [reflexivity|]. rewrite plain_not_space3 by auto. reflexivity.
Qed.

(** Printable ASCII text has no white space for [strings.TrimSpace] to
    remove. *)
Lemma trim_plain l : Forall plain l -> trim l = l.
Proof.
  intros Hall. unfold trim. destruct l as [|a l]; [reflexivity|].
  rewrite trim_left_plain by (inversion Hall; assumption).
  assert (Hrev : Forall plain (rev (a :: l))) by (apply List.Forall_rev; exact Hall).
  destruct (rev (a :: l)) as [|b r] eqn:Hr.
  - apply (f_equal (@rev ascii)) in Hr. rewrite rev_involutive in Hr. discriminate.
  - rewrite trim_rev_plain by (inversion Hrev; assumption).
    rewrite <- Hr. apply rev_involutive.
Qed.

Lemma numeric_plain c : numeric c -> plain c.
Proof.
  unfold numeric, plain. intros [H|[->| ->]]; [lia | vm_compute; lia | vm_compute; lia].
Qed.

End PortFacts.

(** X6. The port of a route [hostname=:port] is any text
    [strconv.Atoi] accepts: its value is not looked at, so a negative
    port or one above 65535 is taken as well, and the descriptor routes
    the hostname to [localhost] with that port text. *)
Theorem parseRoute_port (host port : string) (v : Z)
  (Hhost : host <> "" /\ TrimSpace host = host)
  (Hsep : Contains host "=" = false /\ Contains host "@" = false)
  (Hport : go_strconv.Atoi port = inl v) :
  parseRoute (host ++ String "=" (String ":" port))
  = Ok (mkRouteConfig host ("localhost" ++ String ":" port)%string false "").
Proof.
  destruct Hhost as [Hne Htrim]. destruct Hsep as [Heq Hat].
  pose proof (Atoi_numeric _ _ Hport) as Hnum.
  assert (Hplain : Forall plain (":"%char :: list_ascii_of_string port)).
  { constructor; [unfold plain; vm_compute; lia|].
    eapply List.Forall_impl; [|exact Hnum]. apply numeric_plain. }
  set (route := (host ++ String "=" (String ":" port))%string).
  assert (Hl : list_ascii_of_string route
               = list_ascii_of_string host ++ "="%char :: ":"%char :: list_ascii_of_string port).
  { unfold route. rewrite list_ascii_of_string_app. reflexivity. }
  assert (Hnoat : Contains route "@" = false).
  { apply Contains_false. rewrite Hl, in_app_iff. apply Contains_false in Hat.
    intros [Hin | [Hin | [Hin | Hin]]]; [tauto | discriminate | discriminate |].
    revert Hin. apply (numeric_notin _ _ Hnum). unfold numeric.
    intros [H|[H|H]]; [vm_compute in H; lia | discriminate | discriminate]. }
  rewrite (parseRoute_plain route Hnoat). unfold parseRemainder.
  assert (Hc : Contains route "=" = true).
  { apply Contains_In. rewrite Hl, in_app_iff. simpl. tauto. }
  rewrite Hc. cbn [negb]. rewrite andb_false_r.
  destruct (SplitN2_spec _ _ Hc) as (A & B & Hl' & HA & ->). cbn [nth].
  rewrite Hl in Hl'. apply Contains_false in Heq.
  destruct (first_split_unique _ _ _ _ _ Hl' Heq HA) as [<- <-].
  rewrite string_of_list_ascii_of_string, Htrim.
  rewrite (TrimSpace_trim (string_of_list_ascii _)), list_ascii_of_string_of_list_ascii.
  rewrite (trim_plain _ Hplain). cbn [string_of_list_ascii].
  rewrite string_of_list_ascii_of_string.
  destruct (String.eqb_spec host "") as [|_]; [contradiction|].
  cbn [String.eqb HasPrefix].
  change (slice_from (String ":" port) 1) with port. rewrite Hport. reflexivity.
Qed.

Lemma parseRoute_port_witness :
  parseRoute ("a" ++ String "=" (String ":" "-99999"))
  = Ok (mkRouteConfig "a" "localhost:-99999" false "").
Proof.
  apply (parseRoute_port "a" "-99999" (-99999)); repeat split;
    try discriminate; vm_compute; reflexivity.
Defined.

Section SpaceFacts.

Lemma string_of_list_ascii_app l1 l2 :
  string_of_list_ascii (l1 ++ l2)
  = (string_of_list_ascii l1 ++ string_of_list_ascii l2)%string.
Proof. induction l1 as [|a l1 IH]; simpl; [reflexivity | rewrite IH; reflexivity]. Qed.

Lemma TrimSpace_around w1 s w2 :
  blank (list_ascii_of_string w1) -> blank (list_ascii_of_string w2) ->
  TrimSpace (w1 ++ s ++ w2) = TrimSpace s.
Proof.
  intros H1 H2. rewrite !TrimSpace_trim, !list_ascii_of_string_app.
  rewrite (trim_blank_l _ _ H1), (trim_blank_r _ _ H2). reflexivity.
Qed.

(** The descriptor of a remainder does not depend on the route string
    the format error quotes. *)
Lemma parseRemainder_route route route' proxyAddr remainder cfg :
  parseRemainder route proxyAddr remainder = Ok cfg <->
  parseRemainder route' proxyAddr remainder = Ok cfg.
Proof.
  rewrite <- (parseRemainder_TrimSpace route route proxyAddr remainder cfg).
  apply parseRemainder_TrimSpace.
Qed.

End SpaceFacts.

(** X13. White space around a route string does not matter: with any
    white-space runes before it and after it, [parseRoute] gives a
    descriptor exactly when it gives one for the string itself, and the
    same one. *)
Theorem parseRoute_spaces (w1 route w2 : string)
  (Hw1 : blank (list_ascii_of_string w1)) (Hw2 : blank (list_ascii_of_string w2))
  (cfg : RouteConfig) :
  parseRoute (w1 ++ route ++ w2) = Ok cfg <-> parseRoute route = Ok cfg.
Proof.
  assert (Hat : plain "@") by (unfold plain; vm_compute; lia).
  pose proof (blank_plain _ _ Hw1 Hat) as Hn1.
  pose proof (blank_plain _ _ Hw2 Hat) as Hn2.
  destruct (LastIndex_split route "@") as [[_ Hn] | (A & B & Hl & HB & _)].
  - assert (Hr : Contains route "@" = false) by (apply Contains_false; exact Hn).
    assert (Hx : Contains (w1 ++ route ++ w2) "@" = false).
    { apply Contains_false. rewrite !list_ascii_of_string_app, !in_app_iff. tauto. }
    rewrite (parseRoute_plain _ Hr), (parseRoute_plain _ Hx).
    rewrite <- (parseRemainder_TrimSpace route _ "" (w1 ++ route ++ w2) cfg).
    rewrite (TrimSpace_around _ _ _ Hw1 Hw2).
    apply parseRemainder_TrimSpace.
  - set (sA := string_of_list_ascii A). set (sB := string_of_list_ascii B).
    assert (Hroute : route = (sA ++ String "@" sB)%string).
    { rewrite <- (string_of_list_ascii_of_string route), Hl, string_of_list_ascii_app.
      reflexivity. }
    assert (Hx : (w1 ++ route ++ w2)%string
                 = ((w1 ++ sA) ++ String "@" (sB ++ w2))%string).
    { rewrite <- (string_of_list_ascii_of_string (w1 ++ route ++ w2)).
      rewrite <- (string_of_list_ascii_of_string ((w1 ++ sA) ++ String "@" (sB ++ w2))).
      f_equal. rewrite Hroute, !list_ascii_of_string_app. cbn [list_ascii_of_string].
      rewrite !list_ascii_of_string_app, <- !app_assoc. reflexivity. }
    assert (HsB : Contains sB "@" = false).
    { apply Contains_false. unfold sB. rewrite list_ascii_of_string_of_list_ascii.
      exact HB. }
    assert (HsB2 : Contains (sB ++ w2) "@" = false).
    { apply Contains_false. apply Contains_false in HsB.
      rewrite list_ascii_of_string_app, in_app_iff. tauto. }
    assert (Hp : TrimSpace (sB ++ w2) = TrimSpace sB).
    { rewrite <- (TrimSpace_around "" sB w2 blank_nil Hw2). reflexivity. }
    assert (Hrem : TrimSpace (w1 ++ sA) = TrimSpace sA).
    { rewrite <- (TrimSpace_around w1 sA "" Hw1 blank_nil).
      rewrite !TrimSpace_trim, !list_ascii_of_string_app. cbn [list_ascii_of_string].
      rewrite app_nil_r. reflexivity. }
    pose proof (splitProxy_suffix (w1 ++ sA) _ HsB2) as HspX.
    rewrite <- Hx, Hp, Hrem in HspX.
    pose proof (splitProxy_suffix sA _ HsB) as Hsp. rewrite <- Hroute in Hsp.
    unfold parseRoute. rewrite HspX, Hsp.
    destruct (negb (String.eqb (TrimSpace sB) "")).
    + destruct (go_net.SplitHostPort (TrimSpace sB)); [|reflexivity].
      apply parseRemainder_route.
    + apply parseRemainder_route.
Qed.

Lemma parseRoute_spaces_witness :
  parseRoute (String (ascii_of_nat 9) " " ++ "a=:80@p:1" ++ " ")
  = Ok (mkRouteConfig "a" "localhost:80" false "p:1").
Proof.
  apply (proj2 (parseRoute_spaces (String (ascii_of_nat 9) " ") "a=:80@p:1" " "
                  ltac:(repeat (apply blank_1; [reflexivity|]); apply blank_nil)
                  ltac:(repeat (apply blank_1; [reflexivity|]); apply blank_nil)
                  (mkRouteConfig "a" "localhost:80" false "p:1"))).
  vm_compute. reflexivity.
Defined.

(* ===================================================================== *)
(** * Properties of the start of the program *)
(* ===================================================================== *)

Section StartupFacts.

(** The entries of a table that was built are the entries of the map it
    was built from and one entry for every route string, under the
    hostname of its descriptor. *)
Lemma parseRoutesFrom_entries rm routes cfgs t :
  parseRoutesFrom rm routes = Ok t ->
  Forall2 (fun r c => parseRoute r = Ok c) routes cfgs ->
  map_to_list (rules t) ≡ₚ map (fun c => (Host c, c)) cfgs ++ map_to_list rm.
Proof.
  intros Hok Hall. revert rm Hok.
  induction Hall as [|r c routes cfgs Hr _ IH]; intros rm Hok; simpl in Hok.
  - inversion Hok. reflexivity.
  - rewrite Hr in Hok. destruct (rm !! Host c) eqn:Hfresh; [discriminate|].
    rewrite (IH _ Hok), (map_to_list_insert _ _ _ Hfresh).
    cbn [map app]. symmetry. apply Permutation_middle.
Qed.

End StartupFacts.

(** X7. [main] ends with the error of [parseRoutes] and logs nothing
    else when a route flag is invalid or repeats a hostname.  Otherwise
    it logs the listen address, then the warning that no routes are
    configured exactly when there is no route flag, and else one line
    for every route flag, in some order, each with the hostname, the
    destination and the proxy of the descriptor of its flag. *)
Theorem startup_lines
  (range : gmap string RouteConfig -> list (string * RouteConfig))
  (Hrange : forall m, range m ≡ₚ map_to_list m)
  (listen : string) (routes : list string) :
  (forall err, parseRoutes routes = Err err ->
     startup range listen routes = ([LogParseFailed err], Err err)) /\
  (forall rm, parseRoutes routes = Ok rm ->
     exists cfgs lines,
       Forall2 (fun r c => parseRoute r = Ok c) routes cfgs /\
       lines ≡ₚ map (fun c => routeLine (Host c, c)) cfgs /\
       startup range listen routes
       = (LogStarting listen ::
          match routes with
          | [] => [LogNoRoutes]
          | _ :: _ => LogConfiguredRoutes :: lines
          end,
          Ok rm)).
Proof.
  unfold startup. split.
  - intros err ->. reflexivity.
  - intros rm Hok. rewrite Hok.
    destruct (parseRoutesFrom_ok_inv _ _ _ Hok) as (cfgs & Hall & Hnd & Hnone).
    destruct (parseRoutesFrom_distinct _ _ _ Hall Hnd Hnone) as (t & Hok' & Hsize).
    unfold parseRoutes in Hok. rewrite Hok in Hok'. inversion Hok'; subst t.
    rewrite map_size_empty in Hsize. cbn [Nat.add] in Hsize.
    exists cfgs, (map routeLine (range (rules rm))).
    split; [exact Hall|]. split.
    + rewrite (Hrange (rules rm)), (parseRoutesFrom_entries _ _ _ _ Hok Hall).
      rewrite map_to_list_empty, app_nil_r, map_map. reflexivity.
    + rewrite Hsize. destruct routes; reflexivity.
Qed.

Lemma startup_lines_witness :
  exists lines,
    lines ≡ₚ [routeLine ("a", mkRouteConfig "a" "" true "p:1");
              routeLine ("b", mkRouteConfig "b" "localhost:1" false "")] /\
    fst (startup map_to_list ":443" ["a@p:1"; "b=:1"])
    = LogStarting ":443" :: LogConfiguredRoutes :: lines.
Proof.
  assert (Hok : parseRoutes ["a@p:1"; "b=:1"]
                = Ok (mkRouteMap (<["b" := mkRouteConfig "b" "localhost:1" false ""]>
                                  (<["a" := mkRouteConfig "a" "" true "p:1"]> ∅))))
    by (vm_compute; reflexivity).
  destruct (proj2 (startup_lines map_to_list ltac:(reflexivity) ":443" ["a@p:1"; "b=:1"])
              _ Hok) as (cfgs & lines & Hall & Hperm & Hstart).
  exists lines. split.
  - rewrite Hperm.
    inversion Hall as [|r1 c1 l1 k1 H1 Hall1]; subst.
    inversion Hall1 as [|r2 c2 l2 k2 H2 Hall2]; subst.
    inversion Hall2; subst.
    vm_compute in H1. vm_compute in H2. inversion H1. inversion H2. reflexivity.
  - rewrite Hstart. reflexivity.
Defined.

(* ===================================================================== *)
(** * Further properties of the connection handler *)
(* ===================================================================== *)

Section HelloFacts.

Lemma stream_chunks chunks : stream (map Data chunks) = concat chunks.
Proof. induction chunks as [|bs chunks IH]; simpl; [reflexivity | rewrite IH; reflexivity]. Qed.

(** A read from a peer that only sends and then closes: [io.EOF] when
    nothing is left, and else some of the next bytes, with what is left
    still only sent. *)
Lemma read_inbound_chunks dl limit chunks :
  (0 < limit)%nat ->
  exists data chunks',
    read_inbound dl limit (map Data chunks)
    = (data, match concat chunks with [] => Some EOF | _ :: _ => None end,
       map Data chunks') /\
    data ++ concat chunks' = concat chunks /\
    (length data <= limit)%nat /\
    (concat chunks <> [] -> data <> []).
Proof.
  intros Hlim. induction chunks as [|bs chunks IH].
  - exists [], []. simpl. repeat split; auto; lia.
  - destruct bs as [|b bs].
    + destruct IH as (data & chunks' & Hr & Hcat & Hlen & Hne).
      exists data, chunks'. cbn [map read_inbound concat app]. auto.
    + cbn [map read_inbound concat]. cbn [app].
      destruct (Nat.leb_spec (length (b :: bs)) limit) as [Hle|Hgt].
      * exists (b :: bs), chunks. repeat split; auto; discriminate.
      * exists (firstn limit (b :: bs)), (skipn limit (b :: bs) :: chunks).
        cbn [map concat]. rewrite app_assoc, firstn_skipn.
        split; [reflexivity|]. split; [reflexivity|]. split.
        -- rewrite length_firstn. lia.
        -- intros _. destruct limit; [lia | discriminate].
Qed.

Lemma firstn_plus {A} a b (l : list A) :
  firstn (a + b) l = firstn a l ++ firstn b (skipn a l).
Proof.
  revert l. induction a as [|a IH]; intros l; [reflexivity|].
  destruct l as [|x l]; cbn [Nat.add firstn skipn app].
  - rewrite firstn_nil. reflexivity.
  - rewrite IH. reflexivity.
Qed.

(** [io.CopyN] from a client that only sends and then closes: the first
    [n] bytes of what it sends, however they are cut into arrivals, and
    [io.EOF] when there are fewer. *)
Lemma copyN_chunks rounds buf src n chunks :
  closed src = false -> inbound src = map Data chunks -> (n <= rounds)%nat ->
  exists evs src' chunks',
    copyN rounds buf src n
    = (evs, (buf ++ firstn n (concat chunks), src',
             if (n <=? length (concat chunks))%nat then None else Some EOF)) /\
    closed src' = false /\ inbound src' = map Data chunks' /\
    concat chunks' = skipn n (concat chunks).
Proof.
  revert buf src n chunks.
  induction rounds as [|rounds IH]; intros buf src n chunks Hopen Hin Hn.
  - assert (n = 0)%nat as -> by lia. exists [], src, chunks.
    cbn [copyN firstn skipn Nat.leb]. rewrite app_nil_r. auto.
  - cbn [copyN]. destruct (Nat.eqb_spec n 0) as [->|Hn0].
    { exists [], src, chunks. cbn [firstn skipn Nat.leb]. rewrite app_nil_r. auto. }
    unfold Read. rewrite Hopen. destruct (Nat.eqb_spec n 0) as [|_]; [contradiction|].
    rewrite Hin.
    destruct (read_inbound_chunks (deadline src) n chunks ltac:(lia))
      as (data & chunks' & -> & Hcat & Hlen & Hne).
    destruct (concat chunks) as [|b s] eqn:Hs.
    + destruct data; [|discriminate]. simpl in Hcat.
      exists [EvRead Client (deadline src) n [] (Some EOF)],
        (set_inbound src (map Data chunks')), chunks'.
      split; [|split; [exact Hopen|split; [reflexivity|]]].
      * rewrite firstn_nil. destruct n; [contradiction|]. reflexivity.
      * rewrite skipn_nil. exact Hcat.
    + specialize (Hne ltac:(discriminate)).
      destruct (IH (buf ++ data) (set_inbound src (map Data chunks'))
                   (n - length data)%nat chunks' Hopen eq_refl)
        as (evs & src' & chunks'' & Heq & Hopen' & Hin' & Hcat').
      { destruct data; [contradiction|]. simpl in *. lia. }
      rewrite Heq. eexists _, src', chunks''. split; [|repeat split; auto].
      * rewrite <- Hcat, firstn_app, (firstn_all2 data) by exact Hlen.
        rewrite <- app_assoc, length_app.
        replace (n <=? length data + length (concat chunks'))%nat
          with (n - length data <=? length (concat chunks'))%nat; [reflexivity|].
        destruct (Nat.leb_spec (n - length data) (length (concat chunks'))),
          (Nat.leb_spec n (length data + length (concat chunks'))); auto; lia.
      * rewrite Hcat', <- Hcat, skipn_app, (skipn_all2 data) by exact Hlen.
        reflexivity.
Qed.

End HelloFacts.

(** X8. From a client that sends its bytes and closes, and never falls
    silent before, the reading of the ClientHello gives the same buffer
    however the bytes are cut into arrivals: the five header bytes and as
    many bytes as the header declares, with the bytes after them left on
    the socket; it fails on the header, with [io.EOF], exactly when the
    client sent fewer than five bytes, and on the record exactly when it
    sent the header and fewer bytes than the header declares. *)
Theorem readClientHello_segments (conn : Conn) (chunks : list (list byte))
  (Hopen : closed conn = false) (Hdata : inbound conn = map Data chunks) :
  let s := concat chunks in
  let need := (5 + N.to_nat (Uint16 (firstn 2 (skipn 3 s))))%nat in
  exists evs conn',
    readClientHello conn
    = (evs, (firstn need s, conn',
             if (length s <? 5)%nat then Some (LogHeaderFailed EOF)
             else if (length s <? need)%nat then Some (LogRecordFailed EOF)
             else None)) /\
    stream (inbound conn') = skipn need s.
Proof.
  intros s need. unfold readClientHello, CopyN.
  destruct (copyN_chunks 5 [] conn 5 chunks Hopen Hdata (le_n _))
    as (evs1 & c1 & chunks1 & -> & Hopen1 & Hin1 & Hcat1).
  fold s in Hcat1 |- *. cbn [app].
  destruct (Nat.leb_spec 5 (length s)) as [Hlen|Hlen].
  - destruct (Nat.ltb_spec (length s) 5) as [|_]; [lia|].
    assert (Hhdr : firstn 2 (skipn 3 (firstn 5 s)) = firstn 2 (skipn 3 s)).
    { rewrite skipn_firstn_comm, firstn_firstn. reflexivity. }
    rewrite Hhdr.
    set (n := N.to_nat (Uint16 (firstn 2 (skipn 3 s)))) in *.
    destruct (copyN_chunks n (firstn 5 s) c1 n chunks1 Hopen1 Hin1 (le_n _))
      as (evs2 & c2 & chunks2 & -> & Hopen2 & Hin2 & Hcat2).
    rewrite Hcat1 in *. rewrite length_skipn.
    assert (Hbuf : firstn 5 s ++ firstn n (skipn 5 s) = firstn need s)
      by (unfold need; rewrite firstn_plus; reflexivity).
    assert (Hrest : stream (inbound c2) = skipn need s).
    { rewrite Hin2, stream_chunks, Hcat2, skipn_skipn. unfold need.
      f_equal. lia. }
    destruct (Nat.leb_spec n (length s - 5)), (Nat.ltb_spec (length s) need);
      unfold need in *; try lia; rewrite Hbuf; eauto.
  - destruct (Nat.ltb_spec (length s) 5) as [_|]; [|lia].
    exists evs1, c1. split.
    + rewrite !firstn_all2 by (unfold need; lia). reflexivity.
    + rewrite Hin1, stream_chunks, Hcat1, !skipn_all2 by (unfold need; lia).
      reflexivity.
Qed.

Lemma readClientHello_segments_witness :
  exists evs conn',
    readClientHello (mkConn [Data [x16; x03]; Data [x01; x00]; Data [x02; x09];
                             Data [x08; x07]] None false [] None)
    = (evs, ([x16; x03; x01; x00; x02; x09; x08], conn', None)) /\
    stream (inbound conn') = [x07].
Proof.
  exact (readClientHello_segments
           (mkConn [Data [x16; x03]; Data [x01; x00]; Data [x02; x09];
                    Data [x08; x07]] None false [] None)
           [[x16; x03]; [x01; x00]; [x02; x09]; [x08; x07]] eq_refl eq_refl).
Defined.

Section StallFacts.

Lemma read_inbound_data_tail dl limit chunks tail :
  (0 < limit)%nat -> concat chunks <> [] ->
  exists data chunks',
    read_inbound dl limit (map Data chunks ++ tail)
    = (data, None, map Data chunks' ++ tail) /\
    data ++ concat chunks' = concat chunks /\
    (length data <= limit)%nat /\ data <> [].
Proof.
  intros Hlim. induction chunks as [|bs chunks IH]; [intros H; contradiction|].
  destruct bs as [|b bs].
  - intros Hne. destruct (IH Hne) as (data & chunks' & Hr & Hcat & Hlen & Hd).
    exists data, chunks'. cbn [map read_inbound concat app]. auto.
  - intros _. cbn [map read_inbound concat]. cbn [app read_inbound].
    destruct (Nat.leb_spec (length (b :: bs)) limit) as [Hle|Hgt].
    + exists (b :: bs), chunks. repeat split; auto; discriminate.
    + exists (firstn limit (b :: bs)), (skipn limit (b :: bs) :: chunks).
      cbn [map concat app]. rewrite app_assoc, firstn_skipn.
      split; [reflexivity|]. split; [reflexivity|]. split.
      * rewrite length_firstn. lia.
      * destruct limit; [lia | discriminate].
Qed.

Lemma read_inbound_skip dl limit chunks tail :
  concat chunks = [] ->
  read_inbound dl limit (map Data chunks ++ tail) = read_inbound dl limit tail.
Proof.
  induction chunks as [|bs chunks IH]; [reflexivity|].
  cbn [concat]. intros Hs. apply app_eq_nil in Hs. destruct Hs as [-> Hs].
  cbn [map app read_inbound]. auto.
Qed.

(** [io.CopyN] of bytes that are there: the arrivals after them are not
    looked at. *)
Lemma copyN_ready rounds buf src n chunks tail :
  closed src = false -> inbound src = map Data chunks ++ tail ->
  (n <= length (concat chunks))%nat -> (n <= rounds)%nat ->
  exists evs src' chunks',
    copyN rounds buf src n = (evs, (buf ++ firstn n (concat chunks), src', None)) /\
    closed src' = false /\ deadline src' = deadline src /\
    inbound src' = map Data chunks' ++ tail /\
    concat chunks' = skipn n (concat chunks).
Proof.
  revert buf src n chunks.
  induction rounds as [|rounds IH]; intros buf src n chunks Hopen Hin Hlen Hn.
  - assert (n = 0)%nat as -> by lia. exists [], src, chunks.
    cbn [copyN firstn skipn]. rewrite app_nil_r. auto.
  - cbn [copyN]. destruct (Nat.eqb_spec n 0) as [->|Hn0].
    { exists [], src, chunks. cbn [firstn skipn]. rewrite app_nil_r. auto. }
    unfold Read. rewrite Hopen. destruct (Nat.eqb_spec n 0) as [|_]; [contradiction|].
    rewrite Hin.
    destruct (read_inbound_data_tail (deadline src) n chunks tail ltac:(lia))
      as (data & chunks' & -> & Hcat & Hdl & Hne).
    { intros Hs. rewrite Hs in Hlen. simpl in Hlen. lia. }
    assert (Hlen' : length (concat chunks) = (length data + length (concat chunks'))%nat)
      by (rewrite <- Hcat, length_app; reflexivity).
    destruct (IH (buf ++ data) (set_inbound src (map Data chunks' ++ tail))
                 (n - length data)%nat chunks' Hopen eq_refl)
      as (evs & src' & chunks'' & Heq & Hopen' & Hdl' & Hin' & Hcat'); [lia| |].
    { destruct data; [contradiction|]. simpl. lia. }
    rewrite Heq. eexists _, src', chunks''. split; [|repeat split; auto].
    + rewrite <- Hcat, firstn_app, (firstn_all2 data) by exact Hdl.
      rewrite <- app_assoc. reflexivity.
    + rewrite Hcat', <- Hcat, skipn_app, (skipn_all2 data) by exact Hdl. reflexivity.
Qed.

(** [io.CopyN] of more bytes than arrive before the client falls silent,
    with a read deadline set: the bytes that arrived, and the error of
    the deadline. *)
Lemma copyN_stalled rounds buf src n chunks t rest :
  closed src = false -> deadline src = Some t ->
  inbound src = map Data chunks ++ Silence :: rest ->
  (length (concat chunks) < n)%nat -> (n <= rounds)%nat ->
  exists evs src',
    copyN rounds buf src n
    = (evs, (buf ++ concat chunks, src', Some ErrDeadlineExceeded)) /\
    inbound src' = Silence :: rest.
Proof.
  revert buf src n chunks.
  induction rounds as [|rounds IH]; intros buf src n chunks Hopen Hdl Hin Hlen Hn; [lia|].
  cbn [copyN]. destruct (Nat.eqb_spec n 0) as [|Hn0]; [lia|].
  unfold Read. rewrite Hopen. destruct (Nat.eqb_spec n 0) as [|_]; [contradiction|].
  rewrite Hin, Hdl.
  destruct (concat chunks) as [|b s] eqn:Hs.
  - rewrite (read_inbound_skip _ _ _ _ Hs). cbn [read_inbound].
    do 2 eexists. split; reflexivity.
  - destruct (read_inbound_data_tail (Some t) n chunks (Silence :: rest) ltac:(lia))
      as (data & chunks' & -> & Hcat & Hdle & Hne).
    { rewrite Hs. discriminate. }
    assert (Hlen' : length (b :: s) = (length data + length (concat chunks'))%nat)
      by (rewrite <- Hs, <- Hcat, length_app; reflexivity).
    destruct (IH (buf ++ data) (set_inbound src (map Data chunks' ++ Silence :: rest))
                 (n - length data)%nat chunks' Hopen Hdl eq_refl)
      as (evs & src' & Heq & Hin'); [lia| |].
    { destruct data; [contradiction|]. simpl. lia. }
    rewrite Heq. do 2 eexists. split; [|exact Hin'].
    rewrite <- Hs, <- Hcat, <- app_assoc. reflexivity.
Qed.

End StallFacts.

(** X14. A client that sends less than its ClientHello and then falls
    silent is cut off at the read deadline: the handler takes the bytes
    that arrived, the read that meets the silence fails with the error of
    the deadline, and the handler logs it, for the header when fewer than
    five bytes arrived and for the record else, and closes the
    connection; it creates no dialer, opens no connection and sends
    nothing. *)
Theorem handleConn_stalled (E : Env) (conn : Conn) (routes : RouteMap)
  (chunks : list (list byte)) (rest : list Arrival)
  (Hopen : closed conn = false)
  (Hdata : inbound conn = map Data chunks ++ Silence :: rest)
  (Hshort : (length (concat chunks)
             < 5 + N.to_nat (Uint16 (firstn 2 (skipn 3 (concat chunks)))))%nat) :
  exists evs c,
    handleConn E conn routes
    = (EvSetReadDeadline (Some (now E + 10 * Second)) :: evs ++
       [EvLog (if (length (concat chunks) <? 5)%nat
               then LogHeaderFailed ErrDeadlineExceeded
               else LogRecordFailed ErrDeadlineExceeded);
        EvClose Client],
       Closed c) /\
    Forall (read_under (Some (now E + 10 * Second))) evs /\
    Forall (fun ev => reaches_out ev = false) (fst (handleConn E conn routes)) /\
    closed c = true /\ sent c = sent conn /\ inbound c = Silence :: rest.
Proof.
  set (t := now E + 10 * Second). set (s := concat chunks) in *.
  set (conn0 := SetReadDeadline conn (Some t)).
  assert (Hhello : exists evs c1,
    readClientHello conn0
    = (evs, (s, c1, Some (if (length s <? 5)%nat
                          then LogHeaderFailed ErrDeadlineExceeded
                          else LogRecordFailed ErrDeadlineExceeded))) /\
    inbound c1 = Silence :: rest).
  { unfold readClientHello, CopyN.
    destruct (Nat.ltb_spec (length s) 5) as [Hlt|Hge].
    - destruct (copyN_stalled 5 [] conn0 5 chunks t rest Hopen eq_refl Hdata Hlt (le_n _))
        as (evs1 & c1 & -> & Hin1). eauto.
    - destruct (copyN_ready 5 [] conn0 5 chunks (Silence :: rest) Hopen Hdata Hge (le_n _))
        as (evs1 & c1 & chunks1 & -> & Hopen1 & Hdl1 & Hin1 & Hcat1).
      fold s in Hcat1 |- *. cbn [app].
      assert (Hhdr : firstn 2 (skipn 3 (firstn 5 s)) = firstn 2 (skipn 3 s)).
      { rewrite skipn_firstn_comm, firstn_firstn. reflexivity. }
      rewrite Hhdr.
      set (n := N.to_nat (Uint16 (firstn 2 (skipn 3 s)))) in *.
      destruct (copyN_stalled n (firstn 5 s) c1 n chunks1 t rest Hopen1 Hdl1 Hin1)
        as (evs2 & c2 & -> & Hin2); [rewrite Hcat1, length_skipn; lia | lia |].
      rewrite Hcat1, firstn_skipn. eauto. }
  destruct Hhello as (evs & c1 & Hhello & Hin1).
  pose proof (readClientHello_spec _ _ _ _ _ Hhello) as (Hsent & Hclosed & _ & Hreads & _).
  assert (Hrun : handleConn E conn routes
                 = (EvSetReadDeadline (Some t) :: evs ++
                    [EvLog (if (length s <? 5)%nat
                            then LogHeaderFailed ErrDeadlineExceeded
                            else LogRecordFailed ErrDeadlineExceeded);
                     EvClose Client],
                    Closed (Close c1))).
  { unfold handleConn. fold t. fold conn0. rewrite Hhello. unfold bail.
    rewrite <- app_assoc. reflexivity. }
  exists evs, (Close c1). rewrite Hrun. cbn [fst].
  split; [reflexivity|]. split; [exact Hreads|]. split; [|split; [reflexivity|split]].
  - constructor; [reflexivity|]. apply Forall_app. split.
    + eapply List.Forall_impl; [|exact Hreads]. intros ev Hev.
      apply (read_under_quiet _ _ Hev).
    + destruct (length s <? 5)%nat; repeat constructor.
  - exact Hsent.
  - exact Hin1.
Qed.

Lemma handleConn_stalled_witness :
  exists evs c,
    handleConn sampleEnv (mkConn [Data [x16; x03]; Data [x01; x00; x09; x00];
                                  Silence; Data [x01]] None false [] None)
               sampleTable
    = (EvSetReadDeadline (Some (now sampleEnv + 10 * Second)) :: evs ++
       [EvLog (LogRecordFailed ErrDeadlineExceeded); EvClose Client],
       Closed c) /\
    inbound c = [Silence; Data [x01]].
Proof.
  destruct (handleConn_stalled sampleEnv
              (mkConn [Data [x16; x03]; Data [x01; x00; x09; x00];
                       Silence; Data [x01]] None false [] None)
              sampleTable [[x16; x03]; [x01; x00; x09; x00]] [Data [x01]]
              eq_refl eq_refl ltac:(vm_compute; lia))
    as (evs & c & Hrun & _ & _ & _ & _ & Hin).
  exists evs, c. split; [exact Hrun | exact Hin].
Defined.

(** X9. A connection with a complete ClientHello whose SNI has a route
    is dialed at the SNI hostname with port 443 for a passthrough route
    and at the target of the route else, with the dialer of the route's
    proxy address and a timeout of ten seconds: without a proxy by one
    TCP connection to that address; with a proxy by a TCP connection to
    the proxy and, when that is open, a SOCKS5 CONNECT for the address,
    and by no TCP connection to the address itself.  When the dial fails
    the handler logs it and closes the client; when it succeeds the relay
    starts with the whole ClientHello in the buffer. *)
Theorem handleConn_backend (E : Env) (conn : Conn) (routes : RouteMap)
  (evs : list Event) (buf : list byte) (conn' : Conn)
  (ch : ClientHello) (cfg : RouteConfig) (d : Dialer)
  (Hhello : readClientHello (SetReadDeadline conn (Some (now E + 10 * Second)))
            = (evs, (buf, conn', None)))
  (Hsni : ParseClientHello E buf = (ch, true) /\ SNI ch <> "")
  (Hroute : Lookup routes (SNI ch) = Some cfg)
  (Hdialer : snd (createDialer E (ProxyAddr cfg) (10 * Second)) = Ok d) :
  let backend := if Passthrough cfg then (SNI ch ++ ":443")%string else Target cfg in
  let routeType := if Passthrough cfg then "passthrough" else "routed" in
  let pre := EvSetReadDeadline (Some (now E + 10 * Second)) :: evs ++
             [EvLog (LogRoute (SNI ch) backend routeType);
              EvCreateDialer (ProxyAddr cfg) (10 * Second);
              EvSetReadDeadline None] in
  fst (Dial E d "tcp" backend)
  = (if String.eqb (ProxyAddr cfg) "" then [EvConnect "tcp" backend (10 * Second)]
     else EvConnect "tcp" (ProxyAddr cfg) (10 * Second) ::
          match tcp_connect E "tcp" (ProxyAddr cfg) (10 * Second) with
          | inl _ => [EvSocksConnect backend]
          | inr _ => []
          end) /\
  handleConn E conn routes
  = match snd (Dial E d "tcp" backend) with
    | inl b =>
        (pre ++ fst (Dial E d "tcp" backend),
         Relaying (mkRelay (SNI ch) (SetReadDeadline conn' None) b (PrBuf buf)
                           Reading Reading [] AwaitErr))
    | inr err =>
        (pre ++ fst (Dial E d "tcp" backend)
             ++ [EvLog (LogConnectFailed backend err); EvClose Client],
         Closed (Close (SetReadDeadline conn' None)))
    end.
Proof.
  intros backend routeType pre. destruct Hsni as [Hsni Hname].
  split.
  - revert Hdialer. unfold createDialer. cbn [snd].
    destruct (String.eqb (ProxyAddr cfg) "").
    + intros Hd; inversion Hd. reflexivity.
    + destruct (go_net.SplitHostPort (ProxyAddr cfg)); [|discriminate].
      destruct (socks5_error E "tcp" (ProxyAddr cfg)); [discriminate|].
      intros Hd; inversion Hd. cbn [Dial].
      destruct (tcp_connect E "tcp" (ProxyAddr cfg) (10 * Second)); reflexivity.
  - unfold handleConn. rewrite Hhello, Hsni. cbn [negb orb].
    destruct (String.eqb_spec (SNI ch) "") as [|_]; [contradiction|].
    rewrite Hroute. fold backend. fold routeType.
    assert (Hbr : (if Passthrough cfg
                   then ((SNI ch ++ ":443")%string, "passthrough")
                   else (Target cfg, "routed")) = (backend, routeType))
      by (unfold backend, routeType; destruct (Passthrough cfg); reflexivity).
    rewrite Hbr.
    destruct (createDialer E (ProxyAddr cfg) (10 * Second)) as [evd dialer] eqn:Hcd.
    assert (Hevd : evd = [EvCreateDialer (ProxyAddr cfg) (10 * Second)])
      by (unfold createDialer in Hcd; inversion Hcd; reflexivity).
    cbn [snd] in Hdialer. subst dialer evd.
    destruct (Dial E d "tcp" backend) as [evc [b|err]]; cbn [fst snd].
    + unfold pre. f_equal. cbn [app]. f_equal. rewrite <- !app_assoc. reflexivity.
    + unfold bail, pre. f_equal. cbn [app]. f_equal. rewrite <- !app_assoc. reflexivity.
Qed.

Lemma handleConn_backend_witness :
  fst (Dial sampleEnv (NetDialer (10 * Second)) "tcp" "example.com:443")
  = [EvConnect "tcp" "example.com:443" (10 * Second)] /\
  exists c buf,
    snd (handleConn sampleEnv (sampleClient "example.com") sampleTable)
    = Relaying (mkRelay "example.com" c sampleBackend (PrBuf buf)
                        Reading Reading [] AwaitErr).
Proof.
  set (hello := readClientHello
                  (SetReadDeadline (sampleClient "example.com")
                                   (Some (now sampleEnv + 10 * Second)))).
  destruct (handleConn_backend sampleEnv (sampleClient "example.com") sampleTable
              (fst hello) (fst (fst (snd hello))) (snd (fst (snd hello)))
              (mkClientHello "example.com")
              (mkRouteConfig "example.com" "" true "") (NetDialer (10 * Second)))
    as [Hdial Hrun].
  - vm_compute. reflexivity.
  - split; [vm_compute; reflexivity | discriminate].
  - vm_compute. reflexivity.
  - reflexivity.
  - split; [exact Hdial|]. rewrite Hrun. do 2 eexists. reflexivity.
Defined.

(** X15. From the route flags to a connection.  With the table that
    [parseRoutes] built from a list of route strings, a connection with
    a complete ClientHello and a hostname in it is rejected, logged and
    closed, when no string of the list has that hostname; and when a
    string of the list has it, the handler logs the route and creates
    the dialer with the destination and the proxy of the descriptor of
    that string: the hostname at port 443 for a passthrough route, the
    target else. *)
Theorem served_hosts (E : Env) (routes : list string) (rm : RouteMap)
  (conn : Conn) (evs : list Event) (buf : list byte) (conn' : Conn) (ch : ClientHello)
  (Hbuilt : parseRoutes routes = Ok rm)
  (Hhello : readClientHello (SetReadDeadline conn (Some (now E + 10 * Second)))
            = (evs, (buf, conn', None)))
  (Hsni : ParseClientHello E buf = (ch, true) /\ SNI ch <> "") :
  ((forall r c, In r routes -> parseRoute r = Ok c -> Host c <> SNI ch) ->
   handleConn E conn rm
   = (EvSetReadDeadline (Some (now E + 10 * Second)) :: evs ++
      [EvLog (LogRejected (SNI ch)); EvClose Client],
      Closed (Close conn'))) /\
  (forall r c, In r routes -> parseRoute r = Ok c -> Host c = SNI ch ->
   exists rest,
     fst (handleConn E conn rm)
     = EvSetReadDeadline (Some (now E + 10 * Second)) :: evs ++
       EvLog (LogRoute (SNI ch)
                (if Passthrough c then (SNI ch ++ ":443")%string else Target c)
                (if Passthrough c then "passthrough" else "routed")) ::
       EvCreateDialer (ProxyAddr c) (10 * Second) :: rest).
Proof.
  destruct Hsni as [Hsni Hname].
  pose proof (parseRoutesFrom_lookup _ _ _ Hbuilt) as Hl.
  assert (Hne : String.eqb (SNI ch) "" = false) by (apply String.eqb_neq; exact Hname).
  split.
  - intros Hnone.
    assert (Hlk : Lookup rm (SNI ch) = None).
    { unfold Lookup. destruct (rules rm !! SNI ch) as [cfg|] eqn:Hc; [|reflexivity].
      apply Hl in Hc. destruct Hc as [Hc | (r & Hin & Hr & Hh)].
      - rewrite lookup_empty in Hc. discriminate.
      - exfalso. exact (Hnone r cfg Hin Hr Hh). }
    unfold handleConn. rewrite Hhello, Hsni, Hne, Hlk. unfold bail. cbn [negb orb].
    rewrite <- app_assoc. reflexivity.
  - intros r c Hin Hr Hh.
    assert (Hlk : Lookup rm (SNI ch) = Some c).
    { unfold Lookup. apply Hl. right. eauto. }
    unfold handleConn. rewrite Hhello, Hsni, Hne, Hlk. cbn [negb orb].
    destruct (Passthrough c);
      (destruct (createDialer E (ProxyAddr c) (10 * Second)) as [evd [d|err]] eqn:Hcd;
       assert (Hevd : evd = [EvCreateDialer (ProxyAddr c) (10 * Second)])
         by (unfold createDialer in Hcd; inversion Hcd; reflexivity);
       subst evd;
       [ destruct (Dial E d "tcp" _) as [evc [b|e]]; unfold bail; cbn [fst];
         eexists; cbn [app]; rewrite <- ?app_assoc; cbn [app]; reflexivity
       | unfold bail; cbn [fst]; eexists; cbn [app]; rewrite <- ?app_assoc; cbn [app];
         reflexivity ]).
Qed.

Lemma served_hosts_witness :
  handleConn sampleEnv (sampleClient "unknown.test") sampleTable
  = (EvSetReadDeadline (Some (now sampleEnv + 10 * Second))
       :: fst (readClientHello
                 (SetReadDeadline (sampleClient "unknown.test")
                                  (Some (now sampleEnv + 10 * Second))))
       ++ [EvLog (LogRejected "unknown.test"); EvClose Client],
     Closed (Close (snd (fst (snd (readClientHello
                 (SetReadDeadline (sampleClient "unknown.test")
                                  (Some (now sampleEnv + 10 * Second))))))))).
Proof.
  apply (proj1 (served_hosts sampleEnv ["example.com"; "b=:1"] sampleTable
                  (sampleClient "unknown.test") _
                  (fst (fst (snd (readClientHello
                     (SetReadDeadline (sampleClient "unknown.test")
                                      (Some (now sampleEnv + 10 * Second)))))))
                  _ (mkClientHello "unknown.test")
                  ltac:(vm_compute; reflexivity)
                  ltac:(vm_compute; reflexivity)
                  ltac:(split; [vm_compute; reflexivity | discriminate]))).
  intros r c [<- | [<- | []]] Hr; vm_compute in Hr; inversion Hr; discriminate.
Defined.

(* ===================================================================== *)
(** * Further properties of the relay *)
(* ===================================================================== *)

Section DownstreamFacts.

(** What the client has received is, at every point of a run of the
    relay, the start of the backend's stream; while the copy towards the
    client is under way, the bytes it holds and the rest of the stream
    are what follows. *)
Lemma relay_downstream_inv r0 evs r :
  relay_run r0 evs r ->
  down r0 = Reading ->
  exists delivered,
    sent (client r) = sent (client r0) ++ delivered /\
    match down r with
    | Reading => delivered ++ stream (inbound (backend r)) = stream (inbound (backend r0))
    | Writing chunk _ =>
        delivered ++ chunk ++ stream (inbound (backend r)) = stream (inbound (backend r0))
    | _ => delivered `prefix_of` stream (inbound (backend r0))
    end.
Proof.
  intros Hrun H0. induction Hrun as [|evs r evs' r' Hrun IH Hstep].
  - exists []. rewrite app_nil_r, H0. split; reflexivity.
  - destruct IH as (delivered & Hsent & Hinv).
    set (total := stream (inbound (backend r0))) in *.
    assert (Hafter : forall er d,
      d ++ stream (inbound (backend r')) = total ->
      match after_read er with
      | Reading => d ++ stream (inbound (backend r')) = total
      | Writing chunk _ => d ++ chunk ++ stream (inbound (backend r')) = total
      | _ => d `prefix_of` total
      end).
    { intros er d Hd. destruct er as [e|]; simpl; [|exact Hd]. eexists. symmetry. exact Hd. }
    destruct Hstep as [Hs | Hs | Hs].
    + apply step_up_spec in Hs. destruct Hs as (Hdown & _ & _ & Hs).
      exists delivered. rewrite Hdown.
      destruct (up r) as [|chunk er|err|].
      * destruct Hs as (data & er & Hp & Hb & _).
        apply prefixRead_spec in Hp. destruct Hp as (_ & Hsc & _).
        rewrite Hsc, Hb. split; [exact Hsent | exact Hinv].
      * destruct Hs as (nw & ew & Hw & _ & Hc & _).
        apply Write_spec in Hw. destruct Hw as (_ & _ & Hin & _).
        rewrite Hc, Hin. split; [exact Hsent | exact Hinv].
      * destruct Hs as (_ & _ & _ & _ & Hc & Hb & _).
        rewrite Hc, Hb. split; [exact Hsent | exact Hinv].
      * destruct Hs.
    + apply step_down_spec in Hs. destruct Hs as (_ & _ & _ & _ & Hs).
      destruct (down r) as [|chunk er|err|].
      * destruct Hs as (data & er & Hread & _ & Hc & _ & Hdown).
        apply Read_spec in Hread. destruct Hread as (Hdata & _).
        exists delivered. rewrite Hc, Hdown. split; [exact Hsent|].
        rewrite <- Hdata in Hinv.
        destruct data as [|b data]; simpl copy_read; [apply Hafter|]; exact Hinv.
      * destruct Hs as (nw & ew & Hw & _ & Hb & _ & Hdown).
        apply Write_spec in Hw. destruct Hw as ([k Hk] & Hok & _).
        rewrite Hdown, Hb. unfold copy_write. destruct ew as [e|].
        -- exists (delivered ++ firstn k chunk). rewrite Hk, Hsent, app_assoc.
           split; [reflexivity|].
           exists (skipn k chunk ++ stream (inbound (backend r))).
           rewrite <- Hinv, <- !app_assoc. f_equal.
           rewrite (app_assoc (firstn k chunk)), firstn_skipn. reflexivity.
        -- destruct (Hok eq_refl) as [-> Hall]. rewrite Nat.eqb_refl.
           exists (delivered ++ chunk). rewrite Hall, Hsent, app_assoc.
           split; [reflexivity|].
           rewrite <- Hb. apply Hafter. rewrite Hb, <- app_assoc. exact Hinv.
      * destruct Hs as (_ & _ & _ & Hdown & Hc & Hb).
        exists delivered. rewrite Hb, Hc, Hdown. split; [exact Hsent | exact Hinv].
      * destruct Hs.
    + apply step_handler_spec in Hs. destruct Hs as (_ & Hdown & _ & _ & Hs).
      exists delivered. rewrite Hdown.
      destruct (handler r).
      * destruct Hs as (err & _ & _ & Hc & Hb & _).
        rewrite Hb, Hc. split; [exact Hsent | exact Hinv].
      * destruct Hs as (_ & _ & Hc & Hb & _).
        rewrite Hb, Hc. split; [exact Hsent | exact Hinv].
      * destruct Hs as (_ & _ & Hc & Hb & _).
        rewrite Hb, Hc. split; [exact Hsent | exact Hinv].
      * destruct Hs.
Qed.

End DownstreamFacts.

(** X10. At every point of a run of the relay the bytes the client has
    received since the relay started are the start of the backend's
    stream, in its order: nothing is added, dropped or reordered on the
    way to the client; and whenever the copy towards the client is about
    to read again, every byte it has read so far has been delivered. *)
Theorem relay_downstream (r0 : Relay) (evs : list Event) (r : Relay)
  (Hrun : relay_run r0 evs r) (Hdown : down r0 = Reading) :
  exists delivered,
    sent (client r) = sent (client r0) ++ delivered /\
    delivered `prefix_of` stream (inbound (backend r0)) /\
    (down r = Reading ->
     delivered ++ stream (inbound (backend r)) = stream (inbound (backend r0))).
Proof.
  destruct (relay_downstream_inv _ _ _ Hrun Hdown) as (delivered & Hsent & Hinv).
  exists delivered. split; [exact Hsent|]. split.
  - destruct (down r); [| |exact Hinv|exact Hinv]; eexists; symmetry; exact Hinv.
  - intros Hr. rewrite Hr in Hinv. exact Hinv.
Qed.

Lemma relay_downstream_witness :
  exists evs r delivered,
    relay_run sampleRelay evs r /\
    sent (client r) = sent (client sampleRelay) ++ delivered /\
    delivered `prefix_of` [x01] /\
    evs = [EvRead Backend None copyBufSize [x01] None; EvWrite Client [x01] 1 None].
Proof.
  assert (Hrun : exists r,
            relay_run sampleRelay
              (([] ++ [EvRead Backend None copyBufSize [x01] None])
                 ++ [EvWrite Client [x01] 1 None]) r).
  { eexists. eapply run_step; [eapply run_step; [apply run_start|]|];
      apply step_of_down; reflexivity. }
  destruct Hrun as [r Hrun].
  destruct (relay_downstream sampleRelay _ r Hrun eq_refl) as (delivered & Hsent & Hpre & _).
  eexists _, r, delivered. split; [exact Hrun|]. split; [exact Hsent|].
  split; [exact Hpre | reflexivity].
Defined.

Section ExitFacts.

(** With both sockets closed the copy towards the backend ends within
    three steps, whatever it was doing: its read or its write fails, and
    it sends the error, for which the channel has room. *)
Lemma up_exits r :
  closed (client r) = true -> closed (backend r) = true ->
  up r <> Exited -> (length (errCh r) < 2)%nat ->
  exists evs r',
    relay_run r evs r' /\ up r' = Exited /\ down r' = down r /\
    handler r' = handler r /\ client r' = client r /\ backend r' = backend r /\
    length (errCh r') = S (length (errCh r)).
Proof.
  assert (Hsend : forall r err,
    up r = Sending err -> (length (errCh r) < 2)%nat ->
    exists evs r',
      relay_run r evs r' /\ up r' = Exited /\ down r' = down r /\
      handler r' = handler r /\ client r' = client r /\ backend r' = backend r /\
      length (errCh r') = S (length (errCh r))).
  { clear r. intros r err Hup Hroom. apply Nat.ltb_lt in Hroom.
    exists ([] ++ [EvSend err]),
      (with_up r (client r) (reader r) (backend r) (errCh r ++ [err]) Exited).
    split; [|repeat split; cbn [with_up errCh]; rewrite ?length_app; simpl; lia].
    eapply run_step; [apply run_start|]. apply step_of_up.
    unfold step_up. rewrite Hup, Hroom. reflexivity. }
  assert (Hwrite : forall r chunk er,
    up r = Writing chunk er -> closed (backend r) = true ->
    (length (errCh r) < 2)%nat ->
    exists evs r',
      relay_run r evs r' /\ up r' = Exited /\ down r' = down r /\
      handler r' = handler r /\ client r' = client r /\ backend r' = backend r /\
      length (errCh r') = S (length (errCh r))).
  { clear r. intros r chunk er Hup Hcb Hroom.
    set (r1 := with_up r (client r) (reader r) (backend r) (errCh r)
                       (Sending (Some ErrClosed))).
    assert (Hs1 : step_up r = Some ([EvWrite Backend chunk 0 (Some ErrClosed)], r1)).
    { unfold step_up. rewrite Hup. unfold Write. rewrite Hcb. reflexivity. }
    destruct (Hsend r1 (Some ErrClosed) eq_refl Hroom)
      as (evs & r' & Hrun & Hup' & Hd & Hh & Hc & Hb & Hlen).
    exists (([] ++ [EvWrite Backend chunk 0 (Some ErrClosed)]) ++ evs), r'.
    split; [|repeat split; assumption].
    eapply relay_run_trans; [|exact Hrun].
    eapply run_step; [apply run_start|]. apply step_of_up. exact Hs1. }
  intros Hcc Hcb Hup Hroom.
  destruct (up r) as [|chunk er|err|] eqn:Hk; [| eauto | eauto | contradiction].
  destruct copyBufSize_pos as [k Hbuf].
  assert (Hread : exists evs1 r1,
    step_up r = Some (evs1, r1) /\
    (exists chunk er, up r1 = Writing chunk er \/ up r1 = Sending er) /\
    down r1 = down r /\ handler r1 = handler r /\ client r1 = client r /\
    backend r1 = backend r /\ errCh r1 = errCh r).
  { unfold step_up. rewrite Hk.
    destruct (reader r) as [[|b rest]| |] eqn:Hrd; cbn [prefixRead].
    - unfold Read. rewrite Hcc. do 2 eexists. split; [reflexivity|].
      split; [exists [], (Some ErrClosed); right; reflexivity|]. repeat split.
    - rewrite Hbuf. cbn [firstn]. do 2 eexists. split; [reflexivity|].
      split; [exists (b :: firstn k rest), None; left; reflexivity|]. repeat split.
    - unfold Read. rewrite Hcc. do 2 eexists. split; [reflexivity|].
      split; [exists [], (Some ErrClosed); right; reflexivity|]. repeat split.
    - do 2 eexists. split; [reflexivity|].
      split; [exists [], None; right; reflexivity|]. repeat split. }
  destruct Hread as (evs1 & r1 & Hs1 & (chunk & er & Hup1) & Hd1 & Hh1 & Hc1 & Hb1 & He1).
  assert (Hnext : exists evs r',
    relay_run r1 evs r' /\ up r' = Exited /\ down r' = down r1 /\
    handler r' = handler r1 /\ client r' = client r1 /\ backend r' = backend r1 /\
    length (errCh r') = S (length (errCh r1))).
  { destruct Hup1 as [Hw | Hs].
    - apply (Hwrite r1 chunk er Hw); [rewrite Hb1; exact Hcb | rewrite He1; exact Hroom].
    - apply (Hsend r1 er Hs). rewrite He1. exact Hroom. }
  destruct Hnext as (evs & r' & Hrun & Hup' & Hd & Hh & Hc & Hb & Hlen).
  exists (([] ++ evs1) ++ evs), r'.
  split; [|repeat split; congruence].
  eapply relay_run_trans; [|exact Hrun].
  eapply run_step; [apply run_start|]. apply step_of_up. exact Hs1.
Qed.

(** The same for the copy towards the client. *)
Lemma down_exits r :
  closed (client r) = true -> closed (backend r) = true ->
  down r <> Exited -> (length (errCh r) < 2)%nat ->
  exists evs r',
    relay_run r evs r' /\ down r' = Exited /\ up r' = up r /\
    handler r' = handler r /\ client r' = client r /\ backend r' = backend r /\
    length (errCh r') = S (length (errCh r)).
Proof.
  assert (Hsend : forall r err,
    down r = Sending err -> (length (errCh r) < 2)%nat ->
    exists evs r',
      relay_run r evs r' /\ down r' = Exited /\ up r' = up r /\
      handler r' = handler r /\ client r' = client r /\ backend r' = backend r /\
      length (errCh r') = S (length (errCh r))).
  { clear r. intros r err Hdn Hroom. apply Nat.ltb_lt in Hroom.
    exists ([] ++ [EvSend err]),
      (with_down r (client r) (backend r) (errCh r ++ [err]) Exited).
    split; [|repeat split; cbn [with_down errCh]; rewrite ?length_app; simpl; lia].
    eapply run_step; [apply run_start|]. apply step_of_down.
    unfold step_down. rewrite Hdn, Hroom. reflexivity. }
  intros Hcc Hcb Hdn Hroom.
  assert (Hfail : forall evs1,
    step_down r = Some (evs1, with_down r (client r) (backend r) (errCh r)
                                       (Sending (Some ErrClosed))) ->
    exists evs r',
      relay_run r evs r' /\ down r' = Exited /\ up r' = up r /\
      handler r' = handler r /\ client r' = client r /\ backend r' = backend r /\
      length (errCh r') = S (length (errCh r))).
  { intros evs1 Hs1.
    destruct (Hsend (with_down r (client r) (backend r) (errCh r)
                               (Sending (Some ErrClosed))) (Some ErrClosed) eq_refl Hroom)
      as (evs & r' & Hrun & Hdn' & Hu & Hh & Hc & Hb & Hlen).
    exists (([] ++ evs1) ++ evs), r'.
    split; [|repeat split; assumption].
    eapply relay_run_trans; [|exact Hrun].
    eapply run_step; [apply run_start|]. apply step_of_down. exact Hs1. }
  destruct (down r) as [|chunk er|err|] eqn:Hk; [| |eauto|contradiction].
  - eapply Hfail. unfold step_down. rewrite Hk. unfold Read. rewrite Hcb. reflexivity.
  - eapply Hfail. unfold step_down. rewrite Hk. unfold Write. rewrite Hcc. reflexivity.
Qed.

End ExitFacts.

(** X11. No goroutine is left behind.  Once the handler has returned,
    each of the two copies that is still running ends within three steps:
    reading or writing a closed socket fails, and the channel, made for
    two errors, has room for the error of the copy that ends last, which
    nobody receives.  Then nothing in the relay can take a step, and no
    byte was delivered on the way. *)
Theorem relay_no_leak (E : Env) (conn : Conn) (routes : RouteMap)
  (tr : list Event) (r0 : Relay) (evs : list Event) (r : Relay)
  (Hrelay : handleConn E conn routes = (tr, Relaying r0))
  (Hrun : relay_run r0 evs r)
  (Hreturned : handler r = Returned) :
  exists evs' r',
    relay_run r evs' r' /\
    up r' = Exited /\ down r' = Exited /\ handler r' = Returned /\
    length (errCh r') = 1%nat /\
    sent (client r') = sent (client r) /\ sent (backend r') = sent (backend r) /\
    (forall evs'' r'', ~ relay_step r' evs'' r'').
Proof.
  destruct (readClientHello (SetReadDeadline conn (Some (now E + 10 * Second))))
    as [evs0 [[buf c1] failed]] eqn:Hhello.
  destruct (handleConn_shape E conn routes _ _ _ _ Hhello) as (rest & _ & _ & Hout).
  rewrite Hrelay in Hout. simpl in Hout.
  destruct Hout as (_ & _ & _ & Hup & Hdn & Hch & Hh & _).
  assert (Hinv : forall evs1 r1, relay_run r evs1 r1 -> handler r1 = Returned ->
            S (length (errCh r1)) = (ended (up r1) + ended (down r1))%nat /\
            closed (client r1) = true /\ closed (backend r1) = true).
  { intros evs1 r1 Hrun1 Hret1.
    pose proof (relay_teardown_inv _ _ _ (relay_run_trans _ _ _ _ _ Hrun Hrun1)
                                   Hup Hdn Hch Hh) as Hi.
    rewrite Hret1 in Hi. exact Hi. }
  assert (Hended : forall k, k <> Exited -> ended k = 0%nat)
    by (intros []; simpl; congruence).
  assert (Hle : forall k, (ended k <= 1)%nat) by (intros []; simpl; lia).
  (* the copy towards the backend *)
  assert (Hfirst : exists evs1 r1,
            relay_run r evs1 r1 /\ up r1 = Exited /\ handler r1 = Returned /\
            client r1 = client r /\ backend r1 = backend r).
  { destruct (Hinv [] r (run_start r) Hreturned) as (Hn & Hcc & Hcb).
    destruct (up r) as [| | |] eqn:Hk;
      [| | |exists [], r; repeat split; auto using run_start];
      (destruct (up_exits r Hcc Hcb) as (evs1 & r1 & Hrun1 & Hu & _ & Hh1 & Hc & Hb & _);
       [rewrite Hk; discriminate
       | pose proof (Hle (down r)); simpl in Hn; lia
       | exists evs1, r1; repeat split; congruence]). }
  destruct Hfirst as (evs1 & r1 & Hrun1 & Hup1 & Hret1 & Hc1 & Hb1).
  (* the copy towards the client *)
  assert (Hsecond : exists evs2 r2,
            relay_run r1 evs2 r2 /\ up r2 = Exited /\ down r2 = Exited /\
            handler r2 = Returned /\ client r2 = client r1 /\ backend r2 = backend r1).
  { destruct (Hinv _ _ Hrun1 Hret1) as (Hn & Hcc & Hcb).
    destruct (down r1) as [| | |] eqn:Hk;
      [| | |exists [], r1; repeat split; auto using run_start];
      (destruct (down_exits r1 Hcc Hcb) as (evs2 & r2 & Hrun2 & Hd & Hu & Hh2 & Hc & Hb & _);
       [rewrite Hk; discriminate
       | rewrite Hup1 in Hn; simpl in Hn; lia
       | exists evs2, r2; repeat split; congruence]). }
  destruct Hsecond as (evs2 & r2 & Hrun2 & Hup2 & Hdn2 & Hret2 & Hc2 & Hb2).
  exists (evs1 ++ evs2), r2.
  pose proof (relay_run_trans _ _ _ _ _ Hrun1 Hrun2) as Hrun12.
  destruct (Hinv _ _ Hrun12 Hret2) as (Hn & _).
  rewrite Hup2, Hdn2 in Hn. simpl in Hn.
  split; [exact Hrun12|]. split; [exact Hup2|]. split; [exact Hdn2|].
  split; [exact Hret2|]. split; [lia|].
  split; [congruence|]. split; [congruence|].
  intros evs3 r3 [Hs | Hs | Hs].
  - unfold step_up in Hs. rewrite Hup2 in Hs. discriminate.
  - unfold step_down in Hs. rewrite Hdn2 in Hs. discriminate.
  - unfold step_handler in Hs. rewrite Hret2 in Hs. discriminate.
Qed.

Lemma relay_no_leak_witness :
  exists evs r evs' r',
    relay_run sampleRelay evs r /\ handler r = Returned /\ up r = Reading /\
    relay_run r evs' r' /\
    up r' = Exited /\ down r' = Exited /\ length (errCh r') = 1%nat.
Proof.
  assert (Hrun : exists evs r,
    relay_run sampleRelay evs r /\ handler r = Returned /\ up r = Reading).
  { do 2 eexists. split.
    - eapply run_step;
        [eapply run_step;
          [eapply run_step;
            [eapply run_step;
              [eapply run_step;
                [eapply run_step; [eapply run_step; [apply run_start|]|]|]|]|]|]|];
        [apply step_of_down; reflexivity | apply step_of_down; reflexivity
        |apply step_of_down; reflexivity | apply step_of_down; reflexivity
        |apply step_of_handler; reflexivity | apply step_of_handler; reflexivity
        |apply step_of_handler; reflexivity].
    - split; reflexivity. }
  destruct Hrun as (evs & r & Hrun & Hret & Hup).
  destruct (relay_no_leak sampleEnv (sampleClient "b") sampleTable
              (fst (handleConn sampleEnv (sampleClient "b") sampleTable))
              sampleRelay evs r) as (evs' & r' & Hrun' & Hu & Hd & _ & Hlen & _).
  - vm_compute. reflexivity.
  - exact Hrun.
  - exact Hret.
  - exists evs, r, evs', r'. repeat split; assumption.
Defined.

Section UpstreamFacts.

(** The copy towards the backend, run alone to its end, from a client
    that only sends and then closes and to a backend that is open and
    takes every byte: it delivers the rest of the buffer and all the
    client sends, and ends with no error to report. *)
Lemma upstream_progress n chunks r :
  (length (buffered (reader r)) + length (concat chunks) <= n)%nat ->
  up r = Reading -> reader r <> PrDone ->
  closed (client r) = false -> inbound (client r) = map Data chunks ->
  closed (backend r) = false -> quota (backend r) = None ->
  exists evs r',
    relay_run r evs r' /\
    up r' = Sending None /\
    sent (backend r') = sent (backend r) ++ buffered (reader r) ++ concat chunks /\
    closed (backend r') = false /\ inbound (backend r') = inbound (backend r) /\
    closed (client r') = false /\ sent (client r') = sent (client r) /\
    down r' = down r /\ handler r' = handler r /\ errCh r' = errCh r /\
    sni r' = sni r /\
    Forall (fun ev => forall m, ev <> EvLog m) evs.
Proof.
  destruct copyBufSize_pos as [k Hbuf].
  revert chunks r. induction n as [n IH] using lt_wf_ind.
  intros chunks r Hlen Hup Hrd Hcc Hin Hcb Hq.
  (* the round after a read that gave [data]: the write, then the rest *)
  assert (Hround : forall ev data pr chunks',
    step_up r = Some ([ev], with_up r (set_inbound (client r) (map Data chunks')) pr
                                    (backend r) (errCh r) (Writing data None)) ->
    (forall m, ev <> EvLog m) -> pr <> PrDone ->
    (length (buffered pr) + length (concat chunks') < n)%nat ->
    data ++ buffered pr ++ concat chunks' = buffered (reader r) ++ concat chunks ->
    exists evs r',
      relay_run r evs r' /\
      up r' = Sending None /\
      sent (backend r') = sent (backend r) ++ buffered (reader r) ++ concat chunks /\
      closed (backend r') = false /\ inbound (backend r') = inbound (backend r) /\
      closed (client r') = false /\ sent (client r') = sent (client r) /\
      down r' = down r /\ handler r' = handler r /\ errCh r' = errCh r /\
      sni r' = sni r /\
      Forall (fun ev => forall m, ev <> EvLog m) evs).
  { intros ev data pr chunks' Hs1 Hev1 Hpr Hless Hcat.
    set (r1 := with_up r (set_inbound (client r) (map Data chunks')) pr
                       (backend r) (errCh r) (Writing data None)) in *.
    set (b1 := mkConn (inbound (backend r)) (deadline (backend r)) false
                      (sent (backend r) ++ data) None).
    set (r2 := with_up r1 (client r1) (reader r1) b1 (errCh r1) Reading).
    assert (Hs2 : step_up r1 = Some ([EvWrite Backend data (length data) None], r2)).
    { unfold step_up. cbn [up r1 with_up backend]. unfold Write. rewrite Hcb, Hq.
      unfold copy_write. rewrite Nat.eqb_refl. reflexivity. }
    destruct (IH _ Hless chunks' r2 (le_n _))
      as (evs & r' & Hrun & Hup' & Hsent & Hcb' & Hib & Hcc' & Hsc
          & Hd & Hh & He & Hn & Hev);
      try reflexivity; try assumption.
    exists ((([] ++ [ev]) ++ [EvWrite Backend data (length data) None]) ++ evs), r'.
    split; [|split; [exact Hup'|split; [|repeat split; assumption || idtac]]].
    - eapply relay_run_trans; [|exact Hrun].
      eapply run_step; [eapply run_step; [apply run_start|]|];
        apply step_of_up; [exact Hs1 | exact Hs2].
    - rewrite Hsent. cbn [r2 r1 with_up backend b1 sent reader].
      rewrite <- Hcat, <- !app_assoc. reflexivity.
    - constructor; [exact Hev1|]. constructor; [discriminate | exact Hev]. }
  assert (Hsocket :
    buffered (reader r) = [] ->
    prefixRead (reader r) (client r) copyBufSize
    = (let '(data, err, conn') := Read (client r) copyBufSize in
       ([EvRead Client (deadline (client r)) copyBufSize data err],
        (data, err, match err with Some EOF => PrDone | _ => PrConn end, conn'))) ->
    exists evs r',
      relay_run r evs r' /\
      up r' = Sending None /\
      sent (backend r') = sent (backend r) ++ buffered (reader r) ++ concat chunks /\
      closed (backend r') = false /\ inbound (backend r') = inbound (backend r) /\
      closed (client r') = false /\ sent (client r') = sent (client r) /\
      down r' = down r /\ handler r' = handler r /\ errCh r' = errCh r /\
      sni r' = sni r /\
      Forall (fun ev => forall m, ev <> EvLog m) evs).
  { intros Hempty Hpr.
    destruct (read_inbound_chunks (deadline (client r)) (S k) chunks ltac:(lia))
      as (data & chunks' & Hread & Hcat & _ & Hne).
    assert (Hrd' : Read (client r) copyBufSize
                   = (data, match concat chunks with [] => Some EOF | _ :: _ => None end,
                      set_inbound (client r) (map Data chunks'))).
    { unfold Read. rewrite Hcc, Hbuf. cbn [Nat.eqb]. rewrite Hin, Hread. reflexivity. }
    rewrite Hrd' in Hpr.
    destruct (concat chunks) as [|c s] eqn:Hs.
    - destruct data; [|discriminate].
      exists ([] ++ [EvRead Client (deadline (client r)) copyBufSize [] (Some EOF)]),
        (with_up r (set_inbound (client r) (map Data chunks')) PrDone
                 (backend r) (errCh r) (Sending None)).
      split.
      + eapply run_step; [apply run_start|]. apply step_of_up.
        unfold step_up. rewrite Hup, Hpr. reflexivity.
      + rewrite Hempty. cbn [app]. rewrite app_nil_r.
        repeat split; auto; try (constructor; [discriminate | constructor]).
    - specialize (Hne ltac:(discriminate)).
      destruct data as [|d data]; [contradiction|].
      apply (Hround (EvRead Client (deadline (client r)) copyBufSize (d :: data) None)
                    (d :: data) PrConn chunks').
      + unfold step_up. rewrite Hup, Hpr. reflexivity.
      + discriminate.
      + discriminate.
      + cbn [buffered length Nat.add].
        apply (f_equal (@length byte)) in Hcat. rewrite length_app in Hcat.
        rewrite Hempty in Hlen. simpl in Hcat, Hlen. lia.
      + rewrite Hempty. cbn [buffered app]. exact Hcat. }
  destruct (reader r) as [[|b rest]| |] eqn:Hreader; [| | |contradiction].
  - apply Hsocket; reflexivity.
  - (* bytes in the buffer: they are replayed *)
    apply (Hround (EvReplay (firstn copyBufSize (b :: rest)))
                  (firstn copyBufSize (b :: rest))
                  (PrBuf (skipn copyBufSize (b :: rest))) chunks).
    + assert (Hself : set_inbound (client r) (map Data chunks) = client r)
        by (rewrite <- Hin; destruct (client r); reflexivity).
      rewrite Hself. unfold step_up. rewrite Hup, Hreader. cbn [prefixRead].
      rewrite Hbuf. reflexivity.
    + discriminate.
    + discriminate.
    + cbn [buffered]. rewrite Hbuf. cbn [skipn]. rewrite length_skipn.
      cbn [buffered length] in Hlen. lia.
    + cbn [buffered]. rewrite app_assoc, firstn_skipn. reflexivity.
  - apply Hsocket; reflexivity.
Qed.

End UpstreamFacts.

(** X12. When the client sends its bytes and closes, and the backend is
    open and takes every byte, the relay can run so that the backend
    receives the whole ClientHello buffer and then everything the client
    sent after it; the copy ends with no error, the end of the client's
    stream not being one, and the handler logs nothing and closes both
    sockets.  It does so without waiting for the backend: in this run the
    copy towards the client has read nothing, and what the backend sent
    stays undelivered. *)
Theorem relay_upstream_complete (E : Env) (conn : Conn) (routes : RouteMap)
  (tr : list Event) (r0 : Relay) (chunks : list (list byte))
  (Hrelay : handleConn E conn routes = (tr, Relaying r0))
  (Hclient : closed (client r0) = false /\ inbound (client r0) = map Data chunks)
  (Hbackend : closed (backend r0) = false /\ quota (backend r0) = None) :
  exists evs r,
    relay_run r0 evs r /\
    sent (backend r) = sent (backend r0) ++ buffered (reader r0) ++ concat chunks /\
    up r = Exited /\ handler r = Returned /\
    closed (client r) = true /\ closed (backend r) = true /\
    Forall (fun ev => forall m, ev <> EvLog m) evs /\
    down r = Reading /\ sent (client r) = sent (client r0) /\
    inbound (backend r) = inbound (backend r0).
Proof.
  destruct (readClientHello (SetReadDeadline conn (Some (now E + 10 * Second))))
    as [evs0 [[buf c1] failed]] eqn:Hhello.
  destruct (handleConn_shape E conn routes _ _ _ _ Hhello) as (rest & _ & _ & Hout).
  rewrite Hrelay in Hout. simpl in Hout.
  destruct Hout as (_ & Hrd & _ & Hup & Hdn & Hch & Hh & _).
  destruct Hclient as [Hcc Hin]. destruct Hbackend as [Hcb Hq].
  destruct (upstream_progress _ chunks r0 (le_n _) Hup ltac:(rewrite Hrd; discriminate)
                              Hcc Hin Hcb Hq)
    as (evs1 & r1 & Hrun1 & Hup1 & Hsent1 & Hcb1 & Hib1 & Hcc1 & Hsc1
        & Hd1 & Hh1 & He1 & _ & Hev1).
  set (r2 := with_up r1 (client r1) (reader r1) (backend r1) (errCh r1 ++ [None]) Exited).
  assert (He2 : errCh r1 ++ [None] = [None]) by (rewrite He1, Hch; reflexivity).
  set (r3 := with_handler r2 (client r2) (backend r2) [] CloseBackend).
  set (r4 := with_handler r3 (client r3) (Close (backend r3)) (errCh r3) CloseClient).
  set (r5 := with_handler r4 (Close (client r4)) (backend r4) (errCh r4) Returned).
  assert (Hs2 : step_up r1 = Some ([EvSend None], r2)).
  { unfold step_up. rewrite Hup1.
    replace (length (errCh r1) <? 2)%nat with true by (rewrite He1, Hch; reflexivity).
    reflexivity. }
  assert (Hs3 : step_handler r2 = Some ([EvRecv None], r3)).
  { unfold step_handler. cbn [r2 handler errCh with_up]. rewrite Hh1, Hh, He2.
    reflexivity. }
  assert (Hs4 : step_handler r3 = Some ([EvClose Backend], r4)) by reflexivity.
  assert (Hs5 : step_handler r4 = Some ([EvClose Client], r5)) by reflexivity.
  exists ((((evs1 ++ [EvSend None]) ++ [EvRecv None]) ++ [EvClose Backend])
            ++ [EvClose Client]), r5.
  split; [|split; [|repeat split]].
  - eapply run_step; [eapply run_step; [eapply run_step; [eapply run_step;
      [exact Hrun1|]|]|]|].
    + apply step_of_up. exact Hs2.
    + apply step_of_handler. exact Hs3.
    + apply step_of_handler. exact Hs4.
    + apply step_of_handler. exact Hs5.
  - exact Hsent1.
  - rewrite !Forall_app. repeat split; try exact Hev1;
      repeat constructor; discriminate.
  - cbn [r5 r4 r3 r2 with_handler with_up down]. congruence.
  - exact Hsc1.
  - exact Hib1.
Qed.

Lemma relay_upstream_complete_witness :
  exists evs r,
    relay_run sampleRelay evs r /\
    sent (backend r) = sni.enc_record (sampleHello "b") ++ [x07; x08] /\
    handler r = Returned /\ sent (client r) = [] /\
    inbound (backend r) = [Data [x01]].
Proof.
  destruct (relay_upstream_complete sampleEnv (sampleClient "b") sampleTable
              (fst (handleConn sampleEnv (sampleClient "b") sampleTable))
              sampleRelay [[x07; x08]])
    as (evs & r & Hrun & Hsent & _ & Hret & _ & _ & _ & _ & Hsc & Hib).
  - vm_compute. reflexivity.
  - split; reflexivity.
  - split; reflexivity.
  - exists evs, r. repeat split; assumption.
Defined.

(* ===================================================================== *)
(** * Properties of the SNI extractor *)
(* ===================================================================== *)

Import sni.

Section SniFacts.

(** ** The decoding steps, without their bounds checks *)

Lemma slice_tail (b : list byte) (n : nat) :
  (n <= length b)%nat -> slice b n (length b) = Found (skipn n b).
Proof.
  intros Hn. unfold slice.
  destruct (Nat.leb_spec n (length b)); [|lia]. rewrite Nat.leb_refl. simpl.
  rewrite <- length_skipn, firstn_all. reflexivity.
Qed.

Lemma slice_head (b : list byte) (n : nat) :
  (n <= length b)%nat -> slice b 0 n = Found (firstn n b).
Proof.
  intros Hn. unfold slice. simpl.
  destruct (Nat.leb_spec n (length b)); [|lia]. rewrite Nat.sub_0_r. reflexivity.
Qed.

Lemma u8_eq (b : list byte) :
  u8 b = match b with
         | x :: rest => Found (Byte.to_N x, rest)
         | [] => Missing
         end.
Proof.
  destruct b as [|x rest]; [reflexivity|].
  unfold u8. simpl length. simpl Nat.ltb. cbv iota.
  rewrite slice_tail by (simpl; lia). reflexivity.
Qed.

Lemma u16_eq (b : list byte) :
  u16 b = match b with
          | hi :: lo :: rest => Found ((Byte.to_N hi * 256 + Byte.to_N lo)%N, rest)
          | _ => Missing
          end.
Proof.
  destruct b as [|hi [|lo rest]]; [reflexivity | reflexivity |].
  unfold u16. simpl length. simpl Nat.ltb. cbv iota.
  rewrite slice_tail by (simpl; lia). reflexivity.
Qed.

Lemma u24_eq (b : list byte) :
  u24 b = match b with
          | hi :: mi :: lo :: rest =>
              Found ((Byte.to_N hi * 65536 + Byte.to_N mi * 256 + Byte.to_N lo)%N, rest)
          | _ => Missing
          end.
Proof.
  destruct b as [|hi [|mi [|lo rest]]]; [reflexivity | reflexivity | reflexivity |].
  unfold u24. simpl length. simpl Nat.ltb. cbv iota.
  rewrite slice_tail by (simpl; lia). reflexivity.
Qed.

Lemma bytes_eq (n : nat) (b : list byte) :
  bytes n b = if (length b <? n)%nat then Missing else Found (firstn n b, skipn n b).
Proof.
  unfold bytes. destruct (Nat.ltb_spec (length b) n); [reflexivity|].
  rewrite slice_head, slice_tail by lia. reflexivity.
Qed.

Lemma bytes_app (d rest : list byte) : bytes (length d) (d ++ rest) = Found (d, rest).
Proof.
  rewrite bytes_eq. rewrite length_app.
  destruct (Nat.ltb_spec (length d + length rest) (length d)); [lia|].
  rewrite firstn_app, firstn_all, Nat.sub_diag, skipn_app, skipn_all, Nat.sub_diag.
  simpl. rewrite app_nil_r. reflexivity.
Qed.

(** ** Encoding and decoding of integers *)

Lemma byte_of_to_N (n : N) : Byte.to_N (byte_of n) = (n mod 256)%N.
Proof.
  unfold byte_of. destruct (Byte.of_N (n mod 256)) as [b|] eqn:Hb.
  - apply Byte.to_of_N. exact Hb.
  - apply Byte.of_N_None_iff in Hb.
    pose proof (N.mod_upper_bound n 256 ltac:(discriminate)). lia.
Qed.

Lemma u8_enc (n : N) (rest : list byte) :
  (n < 256)%N -> u8 (enc8 n ++ rest) = Found (n, rest).
Proof.
  intros Hn. rewrite u8_eq. simpl. rewrite byte_of_to_N, N.mod_small by exact Hn.
  reflexivity.
Qed.

Lemma u16_enc (n : N) (rest : list byte) :
  (n < 65536)%N -> u16 (enc16 n ++ rest) = Found (n, rest).
Proof.
  intros Hn. rewrite u16_eq. simpl. rewrite !byte_of_to_N.
  rewrite (N.mod_small (n / 256)) by (apply N.Div0.div_lt_upper_bound; lia).
  f_equal. f_equal. pose proof (N.div_mod n 256 ltac:(discriminate)). lia.
Qed.

Lemma u24_enc (n : N) (rest : list byte) :
  (n < 16777216)%N -> u24 (enc24 n ++ rest) = Found (n, rest).
Proof.
  intros Hn. rewrite u24_eq. simpl. rewrite !byte_of_to_N.
  rewrite (N.mod_small (n / 65536)) by (apply N.Div0.div_lt_upper_bound; lia).
  f_equal. f_equal.
  pose proof (N.div_mod n 256 ltac:(discriminate)).
  pose proof (N.div_mod (n / 256) 256 ltac:(discriminate)).
  rewrite N.Div0.div_div in *. change (256 * 256)%N with 65536%N in *. lia.
Qed.

Lemma vec_len8 (d rest : list byte) :
  fits 8 d -> vec u8 (len8 d ++ rest) = Found (d, rest).
Proof.
  unfold fits, vec, len8. intros Hd. rewrite <- app_assoc, u8_enc by exact Hd.
  simpl. rewrite Nat2N.id. apply bytes_app.
Qed.

Lemma vec_len16 (d rest : list byte) :
  fits 16 d -> vec u16 (len16 d ++ rest) = Found (d, rest).
Proof.
  unfold fits, vec, len16. intros Hd. rewrite <- app_assoc, u16_enc by exact Hd.
  simpl. rewrite Nat2N.id. apply bytes_app.
Qed.

Lemma vec_len24 (d rest : list byte) :
  fits 24 d -> vec u24 (len24 d ++ rest) = Found (d, rest).
Proof.
  unfold fits, vec, len24. intros Hd. rewrite <- app_assoc, u24_enc by exact Hd.
  simpl. rewrite Nat2N.id. apply bytes_app.
Qed.

(** A declared length that exceeds the bytes that remain: "not found". *)
Lemma vec_overrun (width : list byte -> Parsed (N * list byte))
      (b : list byte) (n : N) (rest : list byte) :
  width b = Found (n, rest) -> (length rest < N.to_nat n)%nat -> vec width b = Missing.
Proof.
  intros Hw Hlen. unfold vec. rewrite Hw. simpl. rewrite bytes_eq.
  destruct (Nat.ltb_spec (length rest) (N.to_nat n)); [reflexivity | lia].
Qed.

End SniFacts.

Section SniRecords.

Lemma fits_len16 (d : list byte) : fits 16 (len16 d) -> fits 16 d.
Proof. unfold fits, len16. rewrite length_app. simpl. lia. Qed.

Lemma enc_names_cons (e : Name) (es : list Name) :
  enc_names (e :: es) = enc8 (name_type e) ++ len16 (name e) ++ enc_names es.
Proof. unfold enc_names, enc_name. cbn [concat map]. rewrite <- app_assoc. reflexivity. Qed.

Lemma enc_extensions_cons (x : Extension) (xs : list Extension) :
  enc_extensions (x :: xs) = enc16 (ext_type x) ++ len16 (ext_data x) ++ enc_extensions xs.
Proof.
  unfold enc_extensions, enc_extension. cbn [concat map]. rewrite <- app_assoc. reflexivity.
Qed.

Lemma enc_names_length (es : list Name) : (length es <= length (enc_names es))%nat.
Proof.
  induction es as [|e es IH]; [simpl; lia|].
  rewrite enc_names_cons, !length_app. simpl. lia.
Qed.

Lemma enc_extensions_length (xs : list Extension) :
  (length xs <= length (enc_extensions xs))%nat.
Proof.
  induction xs as [|x xs IH]; [simpl; lia|].
  rewrite enc_extensions_cons, !length_app. simpl. lia.
Qed.

(** The scan of a server name list stops at the first name of type 0. *)
Lemma scan_names_found (before : list Name) (host : list byte) (after : list Name)
      (rounds : nat) :
  Forall (fun e => wf_name e /\ name_type e <> 0%N) before ->
  fits 16 host ->
  (length before < rounds)%nat ->
  scan_names rounds (enc_names (before ++ mkName 0 host :: after)) = Found host.
Proof.
  intros Hb Hh. revert rounds. induction Hb as [|e before [[Ht Hn] Hz] _ IH]; intros rounds Hr.
  - destruct rounds as [|rounds]; [simpl in Hr; lia|].
    simpl app. rewrite enc_names_cons. cbn [scan_names].
    rewrite u8_enc by reflexivity. cbn [mbind Parsed_bind].
    rewrite vec_len16 by exact Hh. reflexivity.
  - destruct rounds as [|rounds]; [simpl in Hr; lia|].
    simpl app. rewrite enc_names_cons. cbn [scan_names].
    rewrite u8_enc by exact Ht. cbn [mbind Parsed_bind].
    rewrite vec_len16 by exact Hn. cbn [mbind Parsed_bind].
    destruct (N.eqb_spec (name_type e) 0); [contradiction|].
    apply IH. simpl in Hr. lia.
Qed.

(** The scan of an extensions block stops at the first extension of
    type 0, and finds nothing when there is none. *)
Lemma scan_extensions_found (before : list Extension) (x : Extension)
      (after : list Extension) (rounds : nat) :
  Forall (fun y => wf_extension y /\ ext_type y <> 0%N) before ->
  wf_extension x -> ext_type x = 0%N ->
  (length before < rounds)%nat ->
  scan_extensions rounds (enc_extensions (before ++ x :: after))
  = server_name (ext_data x).
Proof.
  intros Hb [Hxt Hxd] Hx0. revert rounds.
  induction Hb as [|y before [[Ht Hn] Hz] _ IH]; intros rounds Hr.
  - destruct rounds as [|rounds]; [simpl in Hr; lia|].
    simpl app. rewrite enc_extensions_cons. cbn [scan_extensions].
    rewrite u16_enc by exact Hxt. cbn [mbind Parsed_bind].
    rewrite vec_len16 by exact Hxd. cbn [mbind Parsed_bind]. rewrite Hx0. reflexivity.
  - destruct rounds as [|rounds]; [simpl in Hr; lia|].
    simpl app. rewrite enc_extensions_cons. cbn [scan_extensions].
    rewrite u16_enc by exact Ht. cbn [mbind Parsed_bind].
    rewrite vec_len16 by exact Hn. cbn [mbind Parsed_bind].
    destruct (N.eqb_spec (ext_type y) 0); [contradiction|].
    apply IH. simpl in Hr. lia.
Qed.

Lemma scan_extensions_none (xs : list Extension) (rounds : nat) :
  Forall (fun y => wf_extension y /\ ext_type y <> 0%N) xs ->
  scan_extensions rounds (enc_extensions xs) = Missing.
Proof.
  intros Hxs. revert rounds. induction Hxs as [|y xs [[Ht Hn] Hz] _ IH]; intros rounds.
  - destruct rounds; reflexivity.
  - destruct rounds as [|rounds]; [reflexivity|].
    rewrite enc_extensions_cons. cbn [scan_extensions].
    rewrite u16_enc by exact Ht. cbn [mbind Parsed_bind].
    rewrite vec_len16 by exact Hn. cbn [mbind Parsed_bind].
    destruct (N.eqb_spec (ext_type y) 0); [contradiction|].
    apply IH.
Qed.

(** The record of a well-formed ClientHello decodes down to the scan of
    its extensions block, when it has one. *)
Lemma record_enc (h : Hello) :
  wf_hello h ->
  record (enc_record h)
  = match extensions h with
    | Some xs => scan_extensions (length (enc_extensions xs)) (enc_extensions xs)
    | None => Missing
    end.
Proof.
  intros (Hrv & Hlv & Hrnd & Hsid & Hcs & Hcm & Hext & Hbody & Hpay).
  unfold record, enc_record.
  rewrite u8_enc by reflexivity. cbn [mbind Parsed_bind].
  change (negb (22 =? 22)%N) with false. cbv iota.
  rewrite <- Hrv at 1. rewrite bytes_app. cbn [mbind Parsed_bind].
  rewrite <- (app_nil_r (len16 _)), vec_len16 by exact Hpay. cbn [mbind Parsed_bind].
  unfold handshake, enc_payload.
  rewrite u8_enc by reflexivity. cbn [mbind Parsed_bind].
  change (negb (1 =? 1)%N) with false. cbv iota.
  rewrite <- (app_nil_r (len24 _)), vec_len24 by exact Hbody. cbn [mbind Parsed_bind].
  unfold client_hello, enc_body.
  rewrite <- Hlv at 1. rewrite bytes_app. cbn [mbind Parsed_bind].
  rewrite <- Hrnd at 1. rewrite bytes_app. cbn [mbind Parsed_bind].
  rewrite vec_len8 by exact Hsid. cbn [mbind Parsed_bind].
  rewrite vec_len16 by exact Hcs. cbn [mbind Parsed_bind].
  rewrite vec_len8 by exact Hcm. cbn [mbind Parsed_bind].
  destruct (extensions h) as [xs|].
  - destruct Hext as [_ Hfit].
    rewrite <- (app_nil_r (len16 _)), vec_len16 by exact Hfit. reflexivity.
  - reflexivity.
Qed.

End SniRecords.

Section SniSafety.

(** No decoding step runs into an index or a slice bound out of range. *)
Lemma bind_safe {A B} (m : Parsed A) (k : A -> Parsed B) :
  m <> Panic -> (forall a, k a <> Panic) -> m ≫= k <> Panic.
Proof.
  intros Hm Hk. destruct m; cbn [mbind Parsed_bind]; [apply Hk | discriminate | congruence].
Qed.

Lemma u8_safe b : u8 b <> Panic.
Proof. rewrite u8_eq. destruct b; discriminate. Qed.

Lemma u16_safe b : u16 b <> Panic.
Proof. rewrite u16_eq. destruct b as [|? [|? ?]]; discriminate. Qed.

Lemma u24_safe b : u24 b <> Panic.
Proof. rewrite u24_eq. destruct b as [|? [|? [|? ?]]]; discriminate. Qed.

Lemma bytes_safe n b : bytes n b <> Panic.
Proof. rewrite bytes_eq. destruct (length b <? n)%nat; discriminate. Qed.

Lemma vec_safe width b : (forall b', width b' <> Panic) -> vec width b <> Panic.
Proof.
  intros Hw. unfold vec. apply bind_safe; [apply Hw|]. intros [n b']. apply bytes_safe.
Qed.

Lemma scan_names_safe rounds b : scan_names rounds b <> Panic.
Proof.
  revert b. induction rounds as [|rounds IH]; intros b; [discriminate|].
  cbn [scan_names]. apply bind_safe; [apply u8_safe|]. intros [t b1].
  apply bind_safe; [apply vec_safe, u16_safe|]. intros [nm b2].
  destruct (t =? 0)%N; [discriminate | apply IH].
Qed.

Lemma server_name_safe data : server_name data <> Panic.
Proof.
  unfold server_name. apply bind_safe; [apply vec_safe, u16_safe|].
  intros [names rest]. apply scan_names_safe.
Qed.

Lemma scan_extensions_safe rounds b : scan_extensions rounds b <> Panic.
Proof.
  revert b. induction rounds as [|rounds IH]; intros b; [discriminate|].
  cbn [scan_extensions]. apply bind_safe; [apply u16_safe|]. intros [t b1].
  apply bind_safe; [apply vec_safe, u16_safe|]. intros [data b2].
  destruct (t =? 0)%N; [apply server_name_safe | apply IH].
Qed.

Lemma client_hello_safe body : client_hello body <> Panic.
Proof.
  unfold client_hello.
  apply bind_safe; [apply bytes_safe|]. intros [? b1].
  apply bind_safe; [apply bytes_safe|]. intros [? b2].
  apply bind_safe; [apply vec_safe, u8_safe|]. intros [? b3].
  apply bind_safe; [apply vec_safe, u16_safe|]. intros [? b4].
  apply bind_safe; [apply vec_safe, u8_safe|]. intros [? b5].
  apply bind_safe; [apply vec_safe, u16_safe|]. intros [exts ?].
  apply scan_extensions_safe.
Qed.

Lemma handshake_safe payload : handshake payload <> Panic.
Proof.
  unfold handshake. apply bind_safe; [apply u8_safe|]. intros [t b1].
  destruct (negb (t =? 1)%N); [discriminate|].
  apply bind_safe; [apply vec_safe, u24_safe|]. intros [body ?].
  apply client_hello_safe.
Qed.

Lemma record_safe buf : record buf <> Panic.
Proof.
  unfold record. apply bind_safe; [apply u8_safe|]. intros [t b1].
  destruct (negb (t =? 22)%N); [discriminate|].
  apply bind_safe; [apply bytes_safe|]. intros [? b2].
  apply bind_safe; [apply vec_safe, u16_safe|]. intros [payload ?].
  apply handshake_safe.
Qed.

(** A record of another type than handshake, and a handshake message of
    another type than ClientHello: "not found". *)
Lemma record_type_mismatch (b : byte) (rest : list byte) :
  Byte.to_N b <> 22%N -> record (b :: rest) = Missing.
Proof.
  intros Hb. unfold record. rewrite u8_eq. cbn [mbind Parsed_bind].
  destruct (N.eqb_spec (Byte.to_N b) 22); [contradiction | reflexivity].
Qed.

Lemma message_type_mismatch (hdr : list byte) (b : byte) (rest : list byte) :
  length hdr = 5%nat -> Byte.to_N b <> 1%N -> record (hdr ++ b :: rest) = Missing.
Proof.
  intros Hlen Hb.
  destruct hdr as [|h0 [|h1 [|h2 [|h3 [|h4 [|]]]]]]; try discriminate. clear Hlen.
  unfold record. cbn [app]. rewrite u8_eq. cbn [mbind Parsed_bind].
  destruct (negb (Byte.to_N h0 =? 22)%N); [reflexivity|].
  rewrite bytes_eq. cbn [length Nat.ltb Nat.leb firstn skipn mbind Parsed_bind].
  unfold vec. rewrite u16_eq. cbn [mbind Parsed_bind]. rewrite bytes_eq.
  destruct (length (b :: rest) <? _)%nat; [reflexivity|]. cbn [mbind Parsed_bind].
  destruct (N.to_nat (Byte.to_N h3 * 256 + Byte.to_N h4)) as [|n]; [reflexivity|].
  unfold handshake. cbn [firstn]. rewrite u8_eq. cbn [mbind Parsed_bind].
  destruct (N.eqb_spec (Byte.to_N b) 1); [contradiction | reflexivity].
Qed.

(** A record cut short: the length its header declares exceeds the bytes
    that remain. *)
Lemma record_truncated (h : Hello) (k : nat) :
  wf_hello h -> (k < length (enc_record h))%nat ->
  record (firstn k (enc_record h)) = Missing.
Proof.
  intros (Hrv & _ & _ & _ & _ & _ & _ & _ & Hpay) Hk.
  unfold enc_record in *.
  destruct (record_version h) as [|v1 [|v2 [|]]]; try discriminate. clear Hrv.
  unfold len16 in *. cbn [enc8 enc16 app] in *.
  unfold record.
  destruct k as [|[|[|[|[|k]]]]]; try reflexivity.
  cbn [firstn]. rewrite u8_eq. cbn [mbind Parsed_bind].
  rewrite byte_of_to_N. change (negb (22 mod 256 =? 22)%N) with false. cbv iota.
  rewrite bytes_eq. cbn [length Nat.ltb Nat.leb firstn skipn mbind Parsed_bind].
  cbn [length] in Hk.
  pose proof (u16_enc (N.of_nat (length (enc_payload h))) (firstn k (enc_payload h)) Hpay) as Hu.
  cbn [enc16 app] in Hu.
  rewrite (vec_overrun u16 _ _ _ Hu); [reflexivity|].
  rewrite Nat2N.id, length_firstn. lia.
Qed.

End SniSafety.

Section SniOverrun.

(** A length prefix that declares more than remains gives "not found",
    for each of the three widths. *)
Lemma vec_overrun8 (b : list byte) : overrun enc8 8 b -> vec u8 b = Missing.
Proof.
  intros (n & rest & -> & Hn & Hlen).
  apply (vec_overrun u8 _ n rest); [apply u8_enc; exact Hn | exact Hlen].
Qed.

Lemma vec_overrun16 (b : list byte) : overrun enc16 16 b -> vec u16 b = Missing.
Proof.
  intros (n & rest & -> & Hn & Hlen).
  apply (vec_overrun u16 _ n rest); [apply u16_enc; exact Hn | exact Hlen].
Qed.

Lemma vec_overrun24 (b : list byte) : overrun enc24 24 b -> vec u24 b = Missing.
Proof.
  intros (n & rest & -> & Hn & Hlen).
  apply (vec_overrun u24 _ n rest); [apply u24_enc; exact Hn | exact Hlen].
Qed.

(** The record header, up to the payload length. *)
Lemma record_header (ver b : list byte) :
  length ver = 2%nat ->
  record (enc8 22 ++ ver ++ b) = ('(payload, _) ← vec u16 b; handshake payload).
Proof.
  intros Hver. unfold record.
  rewrite u8_enc by reflexivity. cbn [mbind Parsed_bind].
  change (negb (22 =? 22)%N) with false. cbv iota.
  rewrite <- Hver at 1. rewrite bytes_app. reflexivity.
Qed.

(** The handshake header, up to the body length. *)
Lemma record_message (ver b : list byte) :
  length ver = 2%nat -> fits 16 (enc8 1 ++ b) ->
  record (enc8 22 ++ ver ++ len16 (enc8 1 ++ b))
  = ('(body, _) ← vec u24 b; client_hello body).
Proof.
  intros Hver Hfit. rewrite record_header by exact Hver.
  rewrite <- (app_nil_r (len16 _)), vec_len16 by exact Hfit. cbn [mbind Parsed_bind].
  unfold handshake. rewrite u8_enc by reflexivity. cbn [mbind Parsed_bind].
  change (negb (1 =? 1)%N) with false. cbv iota. reflexivity.
Qed.

(** A record with well-formed headers decodes to its body. *)
Lemma record_frame (ver body : list byte) :
  wf_frame ver body -> record (enc_frame ver body) = client_hello body.
Proof.
  intros (Hver & Hbody & Hpay). unfold enc_frame.
  rewrite record_message by assumption.
  rewrite <- (app_nil_r (len24 _)), vec_len24 by exact Hbody. reflexivity.
Qed.

(** The body, up to the extensions block. *)
Lemma record_around (h : Hello) (block : list byte) :
  wf_around h block ->
  record (enc_around h block)
  = ('(exts, _) ← vec u16 block; scan_extensions (length exts) exts).
Proof.
  intros (Hlv & Hrnd & Hsid & Hcs & Hcm & Hframe). unfold enc_around.
  rewrite record_frame by exact Hframe.
  unfold client_hello, enc_fields. rewrite <- !app_assoc.
  rewrite <- Hlv at 1. rewrite bytes_app. cbn [mbind Parsed_bind].
  rewrite <- Hrnd at 1. rewrite bytes_app. cbn [mbind Parsed_bind].
  rewrite vec_len8 by exact Hsid. cbn [mbind Parsed_bind].
  rewrite vec_len16 by exact Hcs. cbn [mbind Parsed_bind].
  rewrite vec_len8 by exact Hcm. cbn [mbind Parsed_bind].
  reflexivity.
Qed.

(** The scans pass over well-formed entries of another type. *)
Lemma scan_extensions_skip (before : list Extension) (b : list byte) (rounds : nat) :
  Forall (fun y => wf_extension y /\ ext_type y <> 0%N) before ->
  scan_extensions (length before + rounds) (enc_extensions before ++ b)
  = scan_extensions rounds b.
Proof.
  intros Hb. induction Hb as [|y before [[Ht Hn] Hz] _ IH]; [reflexivity|].
  rewrite enc_extensions_cons, <- !app_assoc. cbn [length Nat.add scan_extensions].
  rewrite u16_enc by exact Ht. cbn [mbind Parsed_bind].
  rewrite vec_len16 by exact Hn. cbn [mbind Parsed_bind].
  destruct (N.eqb_spec (ext_type y) 0); [contradiction | exact IH].
Qed.

Lemma scan_names_skip (before : list Name) (b : list byte) (rounds : nat) :
  Forall (fun e => wf_name e /\ name_type e <> 0%N) before ->
  scan_names (length before + rounds) (enc_names before ++ b) = scan_names rounds b.
Proof.
  intros Hb. induction Hb as [|e before [[Ht Hn] Hz] _ IH]; [reflexivity|].
  rewrite enc_names_cons, <- !app_assoc. cbn [length Nat.add scan_names].
  rewrite u8_enc by exact Ht. cbn [mbind Parsed_bind].
  rewrite vec_len16 by exact Hn. cbn [mbind Parsed_bind].
  destruct (N.eqb_spec (name_type e) 0); [contradiction | exact IH].
Qed.

(** An extension the scan reaches whose data length declares too much. *)
Lemma scan_extensions_overrun (before : list Extension) (t : N) (b : list byte) :
  Forall (fun y => wf_extension y /\ ext_type y <> 0%N) before ->
  (t < 65536)%N -> overrun enc16 16 b ->
  scan_extensions (length (enc_extensions before ++ enc16 t ++ b))
                  (enc_extensions before ++ enc16 t ++ b) = Missing.
Proof.
  intros Hb Ht Hover.
  pose proof (enc_extensions_length before) as Hl.
  replace (length (enc_extensions before ++ enc16 t ++ b))
    with (length before
          + S (length (enc_extensions before) - length before + 1 + length b))%nat
    by (rewrite !length_app; simpl; lia).
  rewrite (scan_extensions_skip _ _ _ Hb). cbn [scan_extensions].
  rewrite u16_enc by exact Ht. cbn [mbind Parsed_bind].
  rewrite (vec_overrun16 _ Hover). reflexivity.
Qed.

(** The first server_name extension, with any data. *)
Lemma scan_extensions_server_name (before : list Extension) (data after : list byte) :
  Forall (fun y => wf_extension y /\ ext_type y <> 0%N) before ->
  fits 16 data ->
  scan_extensions (length (enc_extensions before ++ enc16 0 ++ len16 data ++ after))
                  (enc_extensions before ++ enc16 0 ++ len16 data ++ after)
  = server_name data.
Proof.
  intros Hb Hd.
  pose proof (enc_extensions_length before) as Hl.
  replace (length (enc_extensions before ++ enc16 0 ++ len16 data ++ after))
    with (length before
          + S (length (enc_extensions before) - length before + 1
               + length (len16 data ++ after)))%nat
    by (rewrite !length_app; simpl; lia).
  rewrite (scan_extensions_skip _ _ _ Hb). cbn [scan_extensions].
  rewrite u16_enc by reflexivity. cbn [mbind Parsed_bind].
  rewrite vec_len16 by exact Hd. reflexivity.
Qed.

(** A name entry the scan reaches whose length declares too much. *)
Lemma server_name_overrun (before : list Name) (t : N) (b tail : list byte) :
  Forall (fun e => wf_name e /\ name_type e <> 0%N) before ->
  (t < 256)%N -> overrun enc16 16 b ->
  fits 16 (enc_names before ++ enc8 t ++ b) ->
  server_name (len16 (enc_names before ++ enc8 t ++ b) ++ tail) = Missing.
Proof.
  intros Hb Ht Hover Hfit. unfold server_name.
  rewrite vec_len16 by exact Hfit. cbn [mbind Parsed_bind].
  pose proof (enc_names_length before) as Hl.
  replace (length (enc_names before ++ enc8 t ++ b))
    with (length before + S (length (enc_names before) - length before + length b))%nat
    by (rewrite !length_app; simpl; lia).
  rewrite (scan_names_skip _ _ _ Hb). cbn [scan_names].
  rewrite u8_enc by exact Ht. cbn [mbind Parsed_bind].
  rewrite (vec_overrun16 _ Hover). reflexivity.
Qed.

End SniOverrun.

Section SniLayout.

Lemma byte_of_eq (n : N) (x : byte) : (n mod 256)%N = Byte.to_N x -> byte_of n = x.
Proof. intros Hn. unfold byte_of. rewrite Hn, Byte.of_to_N. reflexivity. Qed.

Lemma to_N_lt (x : byte) : (Byte.to_N x < 256)%N.
Proof. pose proof (Byte.to_N_bounded x). lia. Qed.

Lemma bind_found {A B} (m : Parsed A) (k : A -> Parsed B) (b : B) :
  m ≫= k = Found b -> exists a, m = Found a /\ k a = Found b.
Proof. destruct m; cbn [mbind Parsed_bind]; [eauto | discriminate | discriminate]. Qed.

Lemma u8_inv b n rest : u8 b = Found (n, rest) -> b = enc8 n ++ rest /\ (n < 256)%N.
Proof.
  rewrite u8_eq. destruct b as [|x b]; [discriminate|]. intros H; inversion H; subst.
  pose proof (to_N_lt x). split; [|assumption].
  unfold enc8. cbn [app]. rewrite (byte_of_eq _ x); [reflexivity|].
  apply N.mod_small. assumption.
Qed.

Lemma u16_inv b n rest : u16 b = Found (n, rest) -> b = enc16 n ++ rest /\ (n < 65536)%N.
Proof.
  rewrite u16_eq. destruct b as [|hi [|lo b]]; try discriminate.
  intros Heq; inversion Heq; subst. clear Heq.
  pose proof (to_N_lt hi) as Bh. pose proof (to_N_lt lo) as Bl. split; [|lia].
  unfold enc16. cbn [app].
  rewrite (byte_of_eq _ hi), (byte_of_eq _ lo); [reflexivity | |].
  - rewrite N.add_comm, N.Div0.mod_add. apply N.mod_small. assumption.
  - rewrite N.div_add_l by discriminate. rewrite (N.div_small (Byte.to_N lo)) by assumption.
    rewrite N.add_0_r. apply N.mod_small. assumption.
Qed.

Lemma u24_inv b n rest : u24 b = Found (n, rest) -> b = enc24 n ++ rest /\ (n < 2 ^ 24)%N.
Proof.
  rewrite u24_eq. destruct b as [|hi [|mi [|lo b]]]; try discriminate.
  intros Heq; inversion Heq; subst. clear Heq.
  pose proof (to_N_lt hi) as Bh. pose proof (to_N_lt mi) as Bm. pose proof (to_N_lt lo) as Bl.
  set (X := Byte.to_N hi) in *. set (M := Byte.to_N mi) in *. set (L := Byte.to_N lo) in *.
  split; [|change (2 ^ 24)%N with 16777216%N; lia].
  assert (E1 : ((X * 65536 + M * 256 + L) / 256 = X * 256 + M)%N).
  { replace (X * 65536 + M * 256 + L)%N with ((X * 256 + M) * 256 + L)%N by lia.
    rewrite N.div_add_l by discriminate. rewrite (N.div_small L) by assumption. lia. }
  assert (E2 : ((X * 65536 + M * 256 + L) / 65536 = X)%N).
  { change 65536%N with (256 * 256)%N at 2. rewrite <- N.Div0.div_div, E1.
    rewrite N.div_add_l by discriminate. rewrite (N.div_small M) by assumption. lia. }
  unfold enc24. cbn [app].
  rewrite (byte_of_eq _ hi), (byte_of_eq _ mi), (byte_of_eq _ lo); [reflexivity | | |].
  - replace (X * 65536 + M * 256 + L)%N with (L + (X * 256 + M) * 256)%N by lia.
    rewrite N.Div0.mod_add. apply N.mod_small. assumption.
  - rewrite E1, N.add_comm, N.Div0.mod_add. apply N.mod_small. assumption.
  - rewrite E2. apply N.mod_small. assumption.
Qed.

Lemma bytes_inv n b d rest :
  bytes n b = Found (d, rest) -> b = d ++ rest /\ length d = n.
Proof.
  rewrite bytes_eq. destruct (Nat.ltb_spec (length b) n); [discriminate|].
  intros H'; inversion H'; subst. split; [symmetry; apply firstn_skipn|].
  rewrite length_firstn. lia.
Qed.

Lemma vec_inv width b d rest :
  vec width b = Found (d, rest) ->
  exists n b', width b = Found (n, b') /\ b' = d ++ rest /\ N.of_nat (length d) = n.
Proof.
  unfold vec. intros H. apply bind_found in H. destruct H as ([n b'] & Hw & Hb).
  apply bytes_inv in Hb. destruct Hb as [-> Hlen].
  exists n, (d ++ rest). repeat split; auto. rewrite Hlen. apply N2Nat.id.
Qed.

Lemma vec8_inv b d rest : vec u8 b = Found (d, rest) -> b = len8 d ++ rest /\ fits 8 d.
Proof.
  intros H. apply vec_inv in H. destruct H as (n & b' & Hw & -> & Hn).
  apply u8_inv in Hw. destruct Hw as [-> Hlt]. subst n.
  split; [unfold len8; rewrite <- app_assoc; reflexivity | exact Hlt].
Qed.

Lemma vec16_inv b d rest : vec u16 b = Found (d, rest) -> b = len16 d ++ rest /\ fits 16 d.
Proof.
  intros H. apply vec_inv in H. destruct H as (n & b' & Hw & -> & Hn).
  apply u16_inv in Hw. destruct Hw as [-> Hlt]. subst n.
  split; [unfold len16; rewrite <- app_assoc; reflexivity | exact Hlt].
Qed.

Lemma vec24_inv b d rest : vec u24 b = Found (d, rest) -> b = len24 d ++ rest /\ fits 24 d.
Proof.
  intros H. apply vec_inv in H. destruct H as (n & b' & Hw & -> & Hn).
  apply u24_inv in Hw. destruct Hw as [-> Hlt]. subst n.
  split; [unfold len24; rewrite <- app_assoc; reflexivity | exact Hlt].
Qed.

(** A scan that finds a name went over well-formed entries of other
    types and stopped at the first of type 0. *)
Lemma scan_names_inv rounds b host :
  scan_names rounds b = Found host -> names_layout b host.
Proof.
  revert b. induction rounds as [|rounds IH]; intros b; [discriminate|].
  cbn [scan_names]. intros H.
  apply bind_found in H. destruct H as ([t b1] & Ht & H).
  apply bind_found in H. destruct H as ([nm b2] & Hn & H).
  apply u8_inv in Ht. destruct Ht as [-> Ht].
  apply vec16_inv in Hn. destruct Hn as [-> Hfit].
  destruct (N.eqb_spec t 0) as [->|Hne].
  - inversion H; subst. exists [], b2. repeat split; auto.
  - destruct (IH _ H) as (before & tail & -> & Hall & Hh).
    exists (mkName t nm :: before), tail. split; [|split; [|exact Hh]].
    + rewrite enc_names_cons. cbn [name_type name]. rewrite <- !app_assoc. reflexivity.
    + constructor; [|exact Hall]. repeat split; assumption.
Qed.

Lemma server_name_inv data host :
  server_name data = Found host ->
  exists names tail, data = len16 names ++ tail /\ fits 16 names /\ names_layout names host.
Proof.
  unfold server_name. intros H.
  apply bind_found in H. destruct H as ([names tail] & Hv & H).
  apply vec16_inv in Hv. destruct Hv as [-> Hfit].
  exists names, tail. repeat split; auto. eapply scan_names_inv, H.
Qed.

Lemma scan_extensions_inv rounds b host :
  scan_extensions rounds b = Found host -> extensions_layout b host.
Proof.
  revert b. induction rounds as [|rounds IH]; intros b; [discriminate|].
  cbn [scan_extensions]. intros H.
  apply bind_found in H. destruct H as ([t b1] & Ht & H).
  apply bind_found in H. destruct H as ([data b2] & Hd & H).
  apply u16_inv in Ht. destruct Ht as [-> Ht].
  apply vec16_inv in Hd. destruct Hd as [-> Hfit].
  destruct (N.eqb_spec t 0) as [->|Hne].
  - destruct (server_name_inv _ _ H) as (names & tail & -> & Hn & Hl).
    exists [], names, tail, b2. repeat split; auto.
  - destruct (IH _ H) as (before & names & tail1 & tail2 & -> & Hall & Hn & Hd & Hl).
    exists (mkExtension t data :: before), names, tail1, tail2.
    split; [|split; [|repeat split; assumption]].
    + rewrite enc_extensions_cons. cbn [ext_type ext_data]. rewrite <- !app_assoc.
      reflexivity.
    + constructor; [|exact Hall]. repeat split; assumption.
Qed.

(** The scans find the name of every such list and block. *)
Lemma scan_names_layout names host :
  names_layout names host -> scan_names (length names) names = Found host.
Proof.
  intros (before & tail & -> & Hall & Hh).
  pose proof (enc_names_length before) as Hl.
  replace (length (enc_names before ++ enc8 0 ++ len16 host ++ tail))
    with (length before
          + S (length (enc_names before) - length before + length (len16 host ++ tail)))%nat
    by (rewrite !length_app; simpl; lia).
  rewrite (scan_names_skip _ _ _ Hall). cbn [scan_names].
  rewrite u8_enc by reflexivity. cbn [mbind Parsed_bind].
  rewrite vec_len16 by exact Hh. reflexivity.
Qed.

Lemma scan_extensions_layout exts host :
  extensions_layout exts host -> scan_extensions (length exts) exts = Found host.
Proof.
  intros (before & names & tail1 & tail2 & -> & Hall & Hn & Hd & Hl).
  rewrite (scan_extensions_server_name _ _ _ Hall Hd).
  unfold server_name. rewrite vec_len16 by exact Hn. cbn [mbind Parsed_bind].
  apply scan_names_layout. exact Hl.
Qed.

(** The extractor finds [host] exactly in the buffers of the layout. *)
Lemma record_layout_iff buf host : record buf = Found host <-> record_layout buf host.
Proof.
  split.
  - unfold record. intros H.
    apply bind_found in H. destruct H as ([t b1] & Ht & H).
    apply u8_inv in Ht. destruct Ht as [-> _].
    destruct (N.eqb_spec t 22) as [->|]; [|discriminate]. cbn [negb] in H.
    apply bind_found in H. destruct H as ([ver b2] & Hver & H).
    apply bytes_inv in Hver. destruct Hver as [-> Hver].
    apply bind_found in H. destruct H as ([payload tail3] & Hp & H).
    apply vec16_inv in Hp. destruct Hp as [-> Hpay].
    unfold handshake in H.
    apply bind_found in H. destruct H as ([mt p1] & Hmt & H).
    destruct (N.eqb_spec mt 1) as [->|]; [|discriminate]. cbn [negb] in H.
    apply bind_found in H. destruct H as ([body tail2] & Hb & H).
    apply u8_inv in Hmt. destruct Hmt as [Hmt _].
    apply vec24_inv in Hb. destruct Hb as [-> Hbody].
    unfold client_hello in H.
    apply bind_found in H. destruct H as ([lv c1] & Hlv & H).
    apply bind_found in H. destruct H as ([rnd c2] & Hrnd & H).
    apply bind_found in H. destruct H as ([sid c3] & Hsid & H).
    apply bind_found in H. destruct H as ([cs c4] & Hcs & H).
    apply bind_found in H. destruct H as ([cm c5] & Hcm & H).
    apply bind_found in H. destruct H as ([exts tail1] & Hex & H).
    apply bytes_inv in Hlv. destruct Hlv as [Hb1 Hlv].
    apply bytes_inv in Hrnd. destruct Hrnd as [-> Hrnd].
    apply vec8_inv in Hsid. destruct Hsid as [-> Hsid].
    apply vec16_inv in Hcs. destruct Hcs as [-> Hcs].
    apply vec8_inv in Hcm. destruct Hcm as [-> Hcm].
    apply vec16_inv in Hex. destruct Hex as [-> Hex].
    apply scan_extensions_inv in H.
    exists ver, lv, rnd, sid, cs, cm, exts, tail1, body, tail2, payload, tail3.
    repeat split; assumption.
  - intros (ver & lv & rnd & sid & cs & cm & exts & tail1 & body & tail2 & payload & tail3
            & -> & Hp & Hb & Hver & Hpay & Hbody & Hlv & Hrnd & Hsid & Hcs & Hcm & Hex & Hl).
    rewrite record_header by exact Hver.
    rewrite vec_len16 by exact Hpay. cbn [mbind Parsed_bind].
    unfold handshake. rewrite Hp, u8_enc by reflexivity. cbn [mbind Parsed_bind].
    change (negb (1 =? 1)%N) with false. cbv iota.
    rewrite vec_len24 by exact Hbody. cbn [mbind Parsed_bind].
    unfold client_hello. rewrite Hb.
    rewrite <- Hlv at 1. rewrite bytes_app. cbn [mbind Parsed_bind].
    rewrite <- Hrnd at 1. rewrite bytes_app. cbn [mbind Parsed_bind].
    rewrite vec_len8 by exact Hsid. cbn [mbind Parsed_bind].
    rewrite vec_len16 by exact Hcs. cbn [mbind Parsed_bind].
    rewrite vec_len8 by exact Hcm. cbn [mbind Parsed_bind].
    rewrite vec_len16 by exact Hex. cbn [mbind Parsed_bind].
    apply scan_extensions_layout. exact Hl.
Qed.

End SniLayout.



